(** * ChessProject: a shallow embedding of the rules engine and the search

    The Python sources under [logic/] are embedded over an explicit object
    store.  Pieces and boards are Python objects with identity: a board's
    [field] holds references to piece objects, a [Move] holds references to
    the pieces it relocates, and [Move.execute] mutates both the board and
    the piece ([is_moved]).  The store makes that sharing explicit, so that
    statements such as "the input board is unchanged" have content.

    Generators are embedded by their trace: the items they yield, in order,
    and how they end (exhausted, or an exception).  In the sources every
    generator only reads objects that none of its consumers writes, so
    running a generator to its end before its consumer's loop body differs
    from the interleaved Python execution only in the order in which
    unreachable objects are allocated. *)

From stdpp Require Import base numbers list strings gmap.
From Stdlib Require Import ZArith Lia HexString.

Open Scope Z_scope.

(* ================================================================== *)
(** ** logic/types.py *)

Inductive Player := white | black.

#[global] Instance Player_eq_dec : EqDecision Player.
Proof. solve_decision. Defined.

(** [PlayerData]: promotion_row, pawn_start_row, direction. *)
Definition promotion_row (p : Player) : Z :=
  match p with white => 0 | black => 7 end.
Definition pawn_start_row (p : Player) : Z :=
  match p with white => 6 | black => 1 end.
Definition direction (p : Player) : Z :=
  match p with white => -1 | black => 1 end.

Definition opponent (p : Player) : Player :=
  if decide (p = white) then black else white.

(** Iteration order of [for player in Player]. *)
Definition all_players : list Player := [white; black].

Inductive EndReason := checkmate | stalemate | insufficient_material.

(** The dataclass [Result]. *)
Record Result := mkResult { winner : option Player; end_reason : EndReason }.

(* ================================================================== *)
(** ** Exceptions, the object store and the two monads *)

Inductive Exn :=
| IndexError
| ValueError (msg : string)
| AttributeError.

(** How a statement ends: with a value, or with an exception raised. *)
Inductive Outcome (A : Type) :=
| Ok (a : A)
| Raise (e : Exn).
Arguments Ok {A} a.
Arguments Raise {A} e.

(** The six concrete subclasses of [Piece]. *)
Inductive PieceClass := Pawn | Knight | Bishop | Rook | Queen | King.

#[global] Instance PieceClass_eq_dec : EqDecision PieceClass.
Proof. solve_decision. Defined.

(** A piece object: its class and its two dataclass fields. *)
Record Piece := mkPiece { cls : PieceClass; player : Player; is_moved : bool }.

#[global] Instance Piece_eq_dec : EqDecision Piece.
Proof. solve_decision. Defined.

#[global] Instance Piece_inhabited : Inhabited Piece :=
  populate (mkPiece Pawn white false).

(** References are positions in the store; nothing is ever freed. *)
Definition pref := nat.
Definition bref := nat.

(** [Board.field]: a list of rows, each a list of cells ([None] or a
    reference to a piece object). *)
Definition Field := list (list (option pref)).

Record Heap := mkHeap { pieces : list Piece; boards : list Field }.

(** Attribute access through a reference.  A run never holds a reference
    to an object that is not in the store; for such a reference these
    give a default. *)
Definition deref (h : Heap) (r : pref) : Piece := pieces h !!! r.
Definition field_of (h : Heap) (b : bref) : Field := boards h !!! b.

(** Statements that may raise and that read or write the store. *)
Definition M (A : Type) := Heap -> Outcome A * Heap.

Definition ret {A} (a : A) : M A := fun h => (Ok a, h).
Definition raise {A} (e : Exn) : M A := fun h => (Raise e, h).
Definition bind {A B} (m : M A) (f : A -> M B) : M B :=
  fun h => match m h with
           | (Ok a, h1) => f a h1
           | (Raise e, h1) => (Raise e, h1)
           end.

Declare Scope py_scope.
Delimit Scope py_scope with py.
Notation "x <- c1 ;; c2" := (bind c1 (fun x => c2))
  (at level 100, c1 at next level, right associativity) : py_scope.
Notation "c1 ;; c2" := (bind c1 (fun _ => c2))
  (at level 100, right associativity) : py_scope.
Open Scope py_scope.

(** The trace of a generator: the items yielded, then how it ended. *)
Definition Gen (Y : Type) := Heap -> list Y * Outcome unit * Heap.

Definition gskip {Y} : Gen Y := fun h => ([], Ok tt, h).
Definition yield {Y} (y : Y) : Gen Y := fun h => ([y], Ok tt, h).
Definition gseq {Y} (g1 g2 : Gen Y) : Gen Y :=
  fun h => match g1 h with
           | (ys, Ok _, h1) =>
               match g2 h1 with (ys', r, h2) => (ys ++ ys', r, h2) end
           | (ys, Raise e, h1) => (ys, Raise e, h1)
           end.
(** A statement inside a generator body, followed by the rest of the body. *)
Definition gbind {Y A} (m : M A) (k : A -> Gen Y) : Gen Y :=
  fun h => match m h with
           | (Ok a, h1) => k a h1
           | (Raise e, h1) => ([], Raise e, h1)
           end.
(** How a consumer sees the end of a generator it has drained. *)
Definition finish (r : Outcome unit) : M unit :=
  match r with Ok _ => ret tt | Raise e => raise e end.

Notation "x <~ c1 ;; c2" := (gbind c1 (fun x => c2))
  (at level 100, c1 at next level, right associativity) : py_scope.
Notation "g1 ;;; g2" := (gseq g1 g2)
  (at level 100, right associativity) : py_scope.

(** [for a in l: body a] inside a generator. *)
Fixpoint gfor {Y A} (l : list A) (body : A -> Gen Y) : Gen Y :=
  match l with
  | [] => gskip
  | a :: l' => body a ;;; gfor l' body
  end.

(** Object allocation and attribute access. *)
Definition new_piece (p : Piece) : M pref :=
  fun h => (Ok (length (pieces h)), mkHeap (pieces h ++ [p]) (boards h)).
Definition new_board (f : Field) : M bref :=
  fun h => (Ok (length (boards h)), mkHeap (pieces h) (boards h ++ [f])).
Definition read (r : pref) : M Piece := fun h => (Ok (deref h r), h).
Definition get_field (b : bref) : M Field := fun h => (Ok (field_of h b), h).
Definition set_field (b : bref) (f : Field) : M unit :=
  fun h => (Ok tt, mkHeap (pieces h) (<[b := f]> (boards h))).
(** [piece.is_moved = True] *)
Definition set_is_moved (r : pref) : M unit :=
  fun h => (Ok tt,
            mkHeap (<[r := mkPiece (cls (deref h r)) (player (deref h r)) true]>
                      (pieces h))
                   (boards h)).

(* ================================================================== *)
(** ** logic/board.py: storage *)

Definition Pos := (Z * Z)%type.

(** Python list indexing: [0 <= i < n] is itself, [-n <= i < 0] counts
    from the end, anything else raises IndexError. *)
Definition py_index (n : nat) (i : Z) : option nat :=
  if bool_decide (0 <= i < Z.of_nat n) then Some (Z.to_nat i)
  else if bool_decide (- Z.of_nat n <= i < 0) then Some (Z.to_nat (Z.of_nat n + i))
  else None.

(** [field[pos[1]][pos[0]]] *)
Definition field_get {C} (f : list (list C)) (pos : Pos) : Outcome C :=
  match py_index (length f) pos.2 with
  | None => Raise IndexError
  | Some j =>
      match f !! j with
      | None => Raise IndexError
      | Some row =>
          match py_index (length row) pos.1 with
          | None => Raise IndexError
          | Some i =>
              match row !! i with
              | None => Raise IndexError
              | Some c => Ok c
              end
          end
      end
  end.

(** [field[pos[1]][pos[0]] = c] *)
Definition field_set {C} (f : list (list C)) (pos : Pos) (c : C)
  : Outcome (list (list C)) :=
  match py_index (length f) pos.2 with
  | None => Raise IndexError
  | Some j =>
      match f !! j with
      | None => Raise IndexError
      | Some row =>
          match py_index (length row) pos.1 with
          | None => Raise IndexError
          | Some i => Ok (<[j := <[i := c]> row]> f)
          end
      end
  end.

(** [Board.__getitem__] *)
Definition getitem (board : bref) (pos : Pos) : M (option pref) :=
  f <- get_field board ;;
  match field_get f pos with
  | Ok c => ret c
  | Raise e => raise e
  end.

(** [Board.__setitem__] *)
Definition setitem (board : bref) (pos : Pos) (c : option pref) : M unit :=
  f <- get_field board ;;
  match field_set f pos c with
  | Ok f' => set_field board f'
  | Raise e => raise e
  end.

(** [Board.is_inside] *)
Definition is_inside (pos : Pos) : bool :=
  bool_decide (0 <= pos.1 < 8) && bool_decide (0 <= pos.2 < 8).

Definition empty_field : Field := replicate 8 (replicate 8 None).

(** [((x, y), piece) for y, row in enumerate(field)
                      for x, piece in enumerate(row) if piece is not None] *)
Fixpoint enumerate_row {C} (x y : nat) (row : list (option C)) : list (Pos * C) :=
  match row with
  | [] => []
  | Some p :: row' => ((Z.of_nat x, Z.of_nat y), p) :: enumerate_row (S x) y row'
  | None :: row' => enumerate_row (S x) y row'
  end.

Fixpoint enumerate_rows {C} (y : nat) (f : list (list (option C))) : list (Pos * C) :=
  match f with
  | [] => []
  | row :: f' => enumerate_row 0 y row ++ enumerate_rows (S y) f'
  end.

Definition enumerate_cells {C} (f : list (list (option C))) : list (Pos * C) :=
  enumerate_rows 0 f.

(** [Board.iter_pieces(player=...)]: the generator expression reads the
    field and each piece's [player]; none of its consumers writes either. *)
Definition iter_pieces (board : bref) (pl : option Player)
  : M (list (Pos * pref)) :=
  fun h =>
    (Ok (List.filter
           (fun e : Pos * pref =>
              match pl with
              | None => true
              | Some p => bool_decide (player (deref h e.2) = p)
              end)
           (enumerate_cells (field_of h board))), h).

(** [Board.__deepcopy__]: a new board whose field holds a fresh copy of
    every piece, [piece.__class__(piece.player, piece.is_moved)]. *)
Fixpoint copy_row (row : list (option pref)) : M (list (option pref)) :=
  match row with
  | [] => ret []
  | None :: row' => r <- copy_row row' ;; ret (None :: r)
  | Some p :: row' =>
      v <- read p ;;
      p' <- new_piece (mkPiece (cls v) (player v) (is_moved v)) ;;
      r <- copy_row row' ;;
      ret (Some p' :: r)
  end.

Fixpoint copy_rows (f : Field) : M Field :=
  match f with
  | [] => ret []
  | row :: f' =>
      r <- copy_row row ;; rs <- copy_rows f' ;; ret (r :: rs)
  end.

Definition deepcopy_board (board : bref) : M bref :=
  b <- new_board empty_field ;;
  f <- get_field board ;;
  f' <- copy_rows f ;;
  set_field b f' ;;
  ret b.

(* ================================================================== *)
(** ** logic/moves.py *)

Inductive Move :=
| MovePlain (piece : pref) (start_position destination : Pos)
| MoveWithPromotion (piece : pref) (start_position destination : Pos)
                    (promoted_to : pref)
| MoveCastling (piece : pref) (start_position destination : Pos)
               (rock : pref) (rook_start rook_destination : Pos).

Definition piece (m : Move) : pref :=
  match m with
  | MovePlain p _ _ | MoveWithPromotion p _ _ _ | MoveCastling p _ _ _ _ _ => p
  end.
Definition start_position (m : Move) : Pos :=
  match m with
  | MovePlain _ s _ | MoveWithPromotion _ s _ _ | MoveCastling _ s _ _ _ _ => s
  end.
Definition destination (m : Move) : Pos :=
  match m with
  | MovePlain _ _ d | MoveWithPromotion _ _ d _ | MoveCastling _ _ d _ _ _ => d
  end.

(** [Move.execute] *)
Definition Move_execute (m : Move) (board : bref) : M unit :=
  setitem board (destination m) (Some (piece m)) ;;
  setitem board (start_position m) None ;;
  set_is_moved (piece m).

(** [execute], dispatched on the class of the move. *)
Definition execute (m : Move) (board : bref) : M unit :=
  match m with
  | MovePlain _ _ _ => Move_execute m board
  | MoveWithPromotion _ _ d q =>
      Move_execute m board ;;
      setitem board d (Some q)
  | MoveCastling _ _ _ rk rs rd =>
      Move_execute m board ;;
      setitem board rd (Some rk) ;;
      setitem board rs None ;;
      set_is_moved rk
  end.

(** [copy.deepcopy] of a piece: same class, same field values. *)
Definition deepcopy_piece (p : pref) : M pref :=
  v <- read p ;; new_piece (mkPiece (cls v) (player v) (is_moved v)).

(** [copy.deepcopy] of a move: the fields are copied in declaration order;
    the memo makes one copy of an object met twice. *)
Definition deepcopy_move (m : Move) : M Move :=
  match m with
  | MovePlain p s d =>
      p' <- deepcopy_piece p ;; ret (MovePlain p' s d)
  | MoveWithPromotion p s d q =>
      p' <- deepcopy_piece p ;;
      q' <- (if decide (q = p) then ret p' else deepcopy_piece q) ;;
      ret (MoveWithPromotion p' s d q')
  | MoveCastling p s d rk rs rd =>
      p' <- deepcopy_piece p ;;
      rk' <- (if decide (rk = p) then ret p' else deepcopy_piece rk) ;;
      ret (MoveCastling p' s d rk' rs rd)
  end.

(* ================================================================== *)
(** ** logic/pieces.py: pseudo-legal generation *)

(** Running a generator to its end and handing its trace to the consumer. *)
Definition consume {Y A} (g : Gen Y) (k : list Y -> Outcome unit -> M A) : M A :=
  fun h => match g h with (ys, r, h1) => k ys r h1 end.

(** [Pawn._possible_moves] *)
Definition Pawn_possible_moves (self : pref) (x y : Z) (board : bref) : Gen Move :=
  me <~ read self ;;
  let direction := direction (player me) in
  let y1 := y + direction in
  (if is_inside (x, y + direction) then
     c <~ getitem board (x, y1) ;;
     match c with
     | None =>
         (if bool_decide (y + direction <> promotion_row (player me)) then
            yield (MovePlain self (x, y) (x, y + direction))
          else
            q <~ new_piece (mkPiece Queen (player me) false) ;;
            yield (MoveWithPromotion self (x, y) (x, y + direction) q)) ;;;
         (let y2 := y + 2 * direction in
          if negb (is_moved me) && bool_decide (y = pawn_start_row (player me)) then
            c2 <~ getitem board (x, y2) ;;
            match c2 with
            | None => yield (MovePlain self (x, y) (x, y + 2 * direction))
            | Some _ => gskip
            end
          else gskip)
     | Some _ => gskip
     end
   else gskip) ;;;
  gfor [-1; 1] (fun dx =>
    let x1 := x + dx in
    let y3 := y + direction in
    if is_inside (x + dx, y + direction) then
      c <~ getitem board (x1, y3) ;;
      match c with
      | None => gskip
      | Some r =>
          o <~ read r ;;
          if bool_decide (player o <> player me) then
            if bool_decide (y + direction <> promotion_row (player me)) then
              yield (MovePlain self (x, y) (x + dx, y + direction))
            else
              q <~ new_piece (mkPiece Queen (player me) false) ;;
              yield (MoveWithPromotion self (x, y) (x + dx, y + direction) q)
          else gskip
      end
    else gskip).

(** [PieceWithDiscreteMoves._possible_moves_in_direction] *)
Definition _possible_moves_in_direction
    (self : pref) (x y dx dy : Z) (board : bref) : Gen Move :=
  let x := x + dx in
  let y := y + dy in
  if is_inside (x, y) then
    cell <~ getitem board (x, y) ;;
    match cell with
    | None => yield (MovePlain self (x - dx, y - dy) (x, y))
    | Some r =>
        o <~ read r ;;
        me <~ read self ;;
        if bool_decide (player o <> player me) then
          yield (MovePlain self (x - dx, y - dy) (x, y))
        else gskip
    end
  else gskip.

(** [PieceWithDiscreteMoves._possible_moves] *)
Definition PieceWithDiscreteMoves_possible_moves
    (_vectors : list (Z * Z)) (self : pref) (x y : Z) (board : bref) : Gen Move :=
  gfor _vectors (fun v => _possible_moves_in_direction self x y v.1 v.2 board).

Definition Knight_vectors : list (Z * Z) :=
  [(2, 1); (2, -1); (-2, 1); (-2, -1); (1, 2); (1, -2); (-1, 2); (-1, -2)].

Definition King_vectors : list (Z * Z) :=
  [(1, 1); (1, -1); (-1, 1); (-1, -1); (1, 0); (-1, 0); (0, 1); (0, -1)].

(** [range(a, b)] *)
Definition range (a b : Z) : list Z := seqZ a (b - a).

(** [all(board[xx, y] is None for xx in xs)], stopping at the first
    occupied square. *)
Fixpoint all_none (board : bref) (xs : list Z) (y : Z) : M bool :=
  match xs with
  | [] => ret true
  | xx :: xs' =>
      c <- getitem board (xx, y) ;;
      match c with
      | None => all_none board xs' y
      | Some _ => ret false
      end
  end.

(** The guard of either castling branch:
    [not self.is_moved and isinstance(fig, Rook)
     and fig.player == self.player and all(...)]. *)
Definition castling_guard (self : pref) (fig : option pref)
    (board : bref) (between : list Z) (y : Z) : M bool :=
  me <- read self ;;
  if negb (is_moved me) then
    match fig with
    | None => ret false
    | Some r =>
        f <- read r ;;
        if bool_decide (cls f = Rook) then
          if bool_decide (player f = player me) then all_none board between y
          else ret false
        else ret false
    end
  else ret false.

(** [King._possible_moves] *)
Definition King_possible_moves (self : pref) (x y : Z) (board : bref) : Gen Move :=
  PieceWithDiscreteMoves_possible_moves King_vectors self x y board ;;;
  (fig_to_the_left <~ getitem board (0, y) ;;
   ok <~ castling_guard self fig_to_the_left board (range 1 x) y ;;
   match ok, fig_to_the_left with
   | true, Some rk =>
       yield (MoveCastling self (x, y) (x - 2, y) rk (0, y) (x - 1, y))
   | _, _ => gskip
   end) ;;;
  (fig_to_the_right <~ getitem board (7, y) ;;
   ok <~ castling_guard self fig_to_the_right board (range (x + 1) 7) y ;;
   match ok, fig_to_the_right with
   | true, Some rk =>
       yield (MoveCastling self (x, y) (x + 2, y) rk (7, y) (x + 1, y))
   | _, _ => gskip
   end).

(** The [while board.is_inside(destination)] loop of
    [PieceWithStraightMoves._possible_moves] along one direction.  The
    loop leaves the 8x8 square after at most eight steps (see
    [slide_fuel]); [fuel] only makes the recursion structural. *)
Fixpoint slide (fuel : nat) (self : pref) (start_pos : Pos)
    (x y dx dy : Z) (board : bref) : Gen Move :=
  match fuel with
  | O => gskip
  | S fuel' =>
      let destination := (x, y) in
      if is_inside destination then
        cell <~ getitem board (x, y) ;;
        match cell with
        | None =>
            yield (MovePlain self start_pos destination) ;;;
            slide fuel' self start_pos (x + dx) (y + dy) dx dy board
        | Some r =>
            o <~ read r ;;
            me <~ read self ;;
            if bool_decide (player o <> player me) then
              yield (MovePlain self start_pos destination)
            else gskip
        end
      else gskip
  end.

(** [PieceWithStraightMoves._possible_moves] *)
Definition PieceWithStraightMoves_possible_moves
    (_directions : list (Z * Z)) (self : pref) (x y : Z) (board : bref) : Gen Move :=
  let start_x := x in
  let start_y := y in
  let start_pos := (x, y) in
  gfor _directions (fun d =>
    slide 8 self start_pos (start_x + d.1) (start_y + d.2) d.1 d.2 board).

Definition Bishop_directions : list (Z * Z) :=
  [(1, 1); (1, -1); (-1, 1); (-1, -1)].
Definition Rook_directions : list (Z * Z) :=
  [(1, 0); (-1, 0); (0, 1); (0, -1)].
Definition Queen_directions : list (Z * Z) :=
  [(1, 1); (1, -1); (-1, 1); (-1, -1); (1, 0); (-1, 0); (0, 1); (0, -1)].

(** [self._possible_moves(x, y, board)], dispatched on the class of [self]. *)
Definition _possible_moves (self : pref) (x y : Z) (board : bref) : Gen Move :=
  me <~ read self ;;
  match cls me with
  | Pawn => Pawn_possible_moves self x y board
  | Knight => PieceWithDiscreteMoves_possible_moves Knight_vectors self x y board
  | King => King_possible_moves self x y board
  | Bishop => PieceWithStraightMoves_possible_moves Bishop_directions self x y board
  | Rook => PieceWithStraightMoves_possible_moves Rook_directions self x y board
  | Queen => PieceWithStraightMoves_possible_moves Queen_directions self x y board
  end.

(** The loop of [Piece.is_check] over the pseudo-legal moves. *)
Fixpoint is_check_loop (self : pref) (board : bref)
    (moves : list Move) (rest : Outcome unit) : M bool :=
  match moves with
  | [] => finish rest ;; ret false
  | move :: moves' =>
      c <- getitem board (destination move) ;;
      match c with
      | None => is_check_loop self board moves' rest
      | Some r =>
          k <- read r ;;
          me <- read self ;;
          if bool_decide (cls k = King) && bool_decide (player k <> player me)
          then ret true
          else is_check_loop self board moves' rest
      end
  end.

(** [Piece.is_check] *)
Definition is_check (self : pref) (x y : Z) (board : bref) : M bool :=
  consume (_possible_moves self x y board) (is_check_loop self board).

(** [Board.is_in_check] *)
Fixpoint is_in_check_loop (board : bref) (ps : list (Pos * pref)) : M bool :=
  match ps with
  | [] => ret false
  | (pos, piece) :: ps' =>
      c <- is_check piece pos.1 pos.2 board ;;
      if c then ret true else is_in_check_loop board ps'
  end.

Definition is_in_check (board : bref) (player : Player) : M bool :=
  ps <- iter_pieces board (Some (opponent player)) ;;
  is_in_check_loop board ps.

(** The body of the loop of [Piece.possible_moves]: the pseudo-legal
    move is tried on a deep copy of the board, with a deep copy of the
    move; the copy of the move is what is yielded. *)
Definition try_move (self : pref) (board : bref) (move : Move) : Gen Move :=
  new_board <~ deepcopy_board board ;;
  move <~ deepcopy_move move ;;
  _ <~ execute move new_board ;;
  me <~ read self ;;
  c <~ is_in_check new_board (player me) ;;
  if negb c then yield move else gskip.

(** [Piece.possible_moves]: the legality filter. *)
Definition possible_moves (self : pref) (x y : Z) (board : bref) : Gen Move :=
  fun h =>
    match _possible_moves self x y board h with
    | (moves, rest, h1) =>
        (gfor moves (try_move self board) ;;; (fun h2 => ([], rest, h2))) h1
    end.

(** [Piece.has_possible_move]: [any(...)] stops at the first move. *)
Definition has_possible_move (self : pref) (x y : Z) (board : bref) : M bool :=
  consume (possible_moves self x y board)
    (fun moves rest =>
       match moves with
       | _ :: _ => ret true
       | [] => finish rest ;; ret false
       end).

(* ================================================================== *)
(** ** logic/board.py: queries *)

Fixpoint has_no_move_loop (board : bref) (ps : list (Pos * pref)) : M bool :=
  match ps with
  | [] => ret true
  | (pos, piece) :: ps' =>
      c <- has_possible_move piece pos.1 pos.2 board ;;
      if c then ret false else has_no_move_loop board ps'
  end.

(** [Board.is_in_checkmate] *)
Definition is_in_checkmate (board : bref) (player : Player) : M bool :=
  c <- is_in_check board player ;;
  if negb c then ret false
  else ps <- iter_pieces board (Some player) ;; has_no_move_loop board ps.

(** [Board.is_in_stalemate] *)
Definition is_in_stalemate (board : bref) (player : Player) : M bool :=
  c <- is_in_check board player ;;
  if c then ret false
  else ps <- iter_pieces board (Some player) ;; has_no_move_loop board ps.

(** [Board.possible_moves] *)
Definition Board_possible_moves (board : bref) (x y : Z) : Gen Move :=
  c <~ getitem board (x, y) ;;
  match c with
  | None => fun h => ([], Raise AttributeError, h)
  | Some p => possible_moves p x y board
  end.

(** [Board.check_winner] *)
Fixpoint check_winner_loop (board : bref) (players : list Player)
  : M (option Result) :=
  match players with
  | [] => ret None
  | player :: players' =>
      mate <- is_in_checkmate board player ;;
      if mate then ret (Some (mkResult (Some (opponent player)) checkmate))
      else
        stale <- is_in_stalemate board player ;;
        if stale then ret (Some (mkResult None stalemate))
        else check_winner_loop board players'
  end.

Definition check_winner (board : bref) : M (option Result) :=
  check_winner_loop board all_players.

(** [Board.hash]: the argument of [hash] is a generator expression, so
    the result is the identity hash of that temporary generator object,
    here a function [py_hash_obj] of its address [genexpr_id].  The field
    of the board is not read. *)
Definition Board_hash (py_hash_obj : N -> Z) (genexpr_id : N) (board : bref) : M Z :=
  ret (py_hash_obj genexpr_id).

(** [Board.add_start_pieces] *)
Definition place (board : bref) (pos : Pos) (c : PieceClass) (pl : Player) : M unit :=
  p <- new_piece (mkPiece c pl false) ;; setitem board pos (Some p).

Fixpoint place_pawns (board : bref) (cs : list Z) : M unit :=
  match cs with
  | [] => ret tt
  | c :: cs' =>
      place board (c, 1) Pawn black ;;
      place board (c, 6) Pawn white ;;
      place_pawns board cs'
  end.

Definition add_start_pieces (board : bref) : M unit :=
  place board (0, 0) Rook black ;;
  place board (1, 0) Knight black ;;
  place board (2, 0) Bishop black ;;
  place board (3, 0) Queen black ;;
  place board (4, 0) King black ;;
  place board (5, 0) Bishop black ;;
  place board (6, 0) Knight black ;;
  place board (7, 0) Rook black ;;
  place board (0, 7) Rook white ;;
  place board (1, 7) Knight white ;;
  place board (2, 7) Bishop white ;;
  place board (3, 7) Queen white ;;
  place board (4, 7) King white ;;
  place board (5, 7) Bishop white ;;
  place board (6, 7) Knight white ;;
  place board (7, 7) Rook white ;;
  place_pawns board (range 0 8).

(** [Board.initial] *)
Definition initial : M bref :=
  board <- new_board empty_field ;;
  add_start_pieces board ;;
  ret board.

(* ================================================================== *)
(** ** logic/ai.py *)

(** Scores are Python ints, or the floats [-inf] and [inf] that
    [get_best_move] starts from. *)
Inductive Score := NegInf | Fin (z : Z) | PosInf.

#[global] Instance Score_eq_dec : EqDecision Score.
Proof. solve_decision. Defined.

(** Unary minus. *)
Definition score_neg (s : Score) : Score :=
  match s with NegInf => PosInf | Fin z => Fin (- z) | PosInf => NegInf end.

(** [a > b] *)
Definition score_gt (a b : Score) : bool :=
  match a, b with
  | NegInf, _ => false
  | Fin _, NegInf => true
  | Fin x, Fin y => bool_decide (y < x)
  | Fin _, PosInf => false
  | PosInf, PosInf => false
  | PosInf, _ => true
  end.

(** [a >= b] *)
Definition score_ge (a b : Score) : bool := negb (score_gt b a).

(** [max(a, b)]: the first argument unless the second is greater. *)
Definition score_max (a b : Score) : Score := if score_gt b a then b else a.

(** The [piece_values] dictionary of [_evaluate_board]. *)
Definition piece_values (c : PieceClass) : Z :=
  match c with
  | King => 1000
  | Queen => 9
  | Rook => 5
  | Bishop => 3
  | Knight => 3
  | Pawn => 1
  end.

(** The accumulation loop of [_evaluate_board]. *)
Fixpoint material (self_player : Player) (ps : list Piece) (value : Z) : Z :=
  match ps with
  | [] => value
  | piece :: ps' =>
      let piece_value := piece_values (cls piece) in
      if decide (player piece = self_player)
      then material self_player ps' (value + piece_value)
      else material self_player ps' (value - piece_value)
  end.

(** The loop of [_order_moves] over the legal moves of one piece. *)
Fixpoint sort_moves (board : bref) (moves : list Move)
    (acc : list Move * list Move) : M (list Move * list Move) :=
  match moves with
  | [] => ret acc
  | move :: moves' =>
      c <- getitem board (destination move) ;;
      match c with
      | Some _ => sort_moves board moves' (acc.1 ++ [move], acc.2)
      | None => sort_moves board moves' (acc.1, acc.2 ++ [move])
      end
  end.

Fixpoint _order_moves_loop (board : bref) (ps : list (Pos * pref))
    (acc : list Move * list Move) : M (list Move * list Move) :=
  match ps with
  | [] => ret acc
  | (start_pos, piece) :: ps' =>
      acc' <- consume (possible_moves piece start_pos.1 start_pos.2 board)
                (fun moves rest =>
                   a <- sort_moves board moves acc ;; finish rest ;; ret a) ;;
      _order_moves_loop board ps' acc'
  end.

(** [ChessAI._order_moves] *)
Definition _order_moves (board : bref) (player : Player) : M (list Move) :=
  ps <- iter_pieces board (Some player) ;;
  acc <- _order_moves_loop board ps ([], []) ;;
  ret (acc.1 ++ acc.2).

(** Reading the attributes of each piece of an iteration. *)
Definition read_all (rs : list pref) : M (list Piece) :=
  fun h => (Ok (map (deref h) rs), h).

Section ChessAI.
(** The attributes of the [ChessAI] object that the search reads:
    [self.game.board] and [self.player]. *)
Variable game_board : bref.
Variable self_player : Player.

(** [ChessAI._evaluate_board] *)
Definition _evaluate_board (board : bref) : M Score :=
  ps <- iter_pieces board None ;;
  vs <- read_all (map snd ps) ;;
  let value := material self_player vs 0 in
  end_of_the_game <- check_winner game_board ;;
  match end_of_the_game with
  | Some r =>
      if decide (winner r = Some self_player) then ret (Fin 10000)
      else ret (Fin (-10000))
  | None => ret (Fin value)
  end.

(** [ChessAI._search] *)
Fixpoint _search (depth : nat) (board : bref) (player : Player)
    (alpha beta : Score) : M Score :=
  match depth with
  | O => _evaluate_board board
  | S depth' =>
      moves <- _order_moves board player ;;
      (fix loop (moves : list Move) (alpha : Score) : M Score :=
         match moves with
         | [] => ret alpha
         | move :: moves' =>
             board_copy <- deepcopy_board board ;;
             execute move board_copy ;;
             s <- _search depth' board_copy (opponent player) (score_neg beta) (score_neg alpha) ;;
             let score := score_neg s in
             let alpha := score_max alpha score in
             if score_ge alpha beta then ret alpha else loop moves' alpha
         end) moves alpha
  end.

(** The object system as the search sees it: [id(board)] of a live
    board object and the built-in [hash] on strings. *)
Variable py_id : bref -> N.
Variable py_hash : string -> Z.

(** [str(board)]: [Board] defines neither [__str__] nor [__repr__], so
    this is [object.__repr__]. *)
Definition Board_str (board : bref) : string :=
  "<logic.board.Board object at " ++ HexString.of_N (py_id board) ++ ">".

(** [ChessAI._hash_board] *)
Definition _hash_board (board : bref) : M Z :=
  ret (py_hash (Board_str board)).

Definition Table := gmap Z Score.

(** The loop of [ChessAI._iter_possible_moves_in_depth]; the
    transposition table is threaded next to the store. *)
Fixpoint iter_loop (depth' : nat) (board : bref) (player : Player)
    (moves : list Move) (alpha beta : Score) (table : Table)
  : Heap -> list (Move * Score) * Outcome unit * Table * Heap :=
  fun h =>
    match moves with
    | [] => ([], Ok tt, table, h)
    | move :: moves' =>
        match (board_copy <- deepcopy_board board ;;
               execute move board_copy ;;
               board_key <- _hash_board board_copy ;;
               ret (board_copy, board_key)) h with
        | (Raise e, h1) => ([], Raise e, table, h1)
        | (Ok (board_copy, board_key), h1) =>
            let cont score table h2 :=
              let alpha := score_max alpha score in
              if score_ge alpha beta then ([(move, score)], Ok tt, table, h2)
              else
                match iter_loop depth' board player moves' alpha beta table h2 with
                | (ys, r, table', h3) => ((move, score) :: ys, r, table', h3)
                end in
            match table !! board_key with
            | Some score => cont score table h1
            | None =>
                match _search depth' board_copy (opponent player)
                        (score_neg beta) (score_neg alpha) h1 with
                | (Raise e, h2) => ([], Raise e, table, h2)
                | (Ok s, h2) =>
                    let score := score_neg s in
                    cont score (<[board_key := score]> table) h2
                end
            end
        end
    end.

(** [ChessAI._iter_possible_moves_in_depth] *)
Definition _iter_possible_moves_in_depth (depth : nat) (board : bref)
    (player : Player) (alpha beta : Score) (table : Table)
  : Heap -> list (Move * Score) * Outcome unit * Table * Heap :=
  fun h =>
    match depth with
    | O =>
        match _evaluate_board board h with
        | (Ok _, h1) => ([], Ok tt, table, h1)
        | (Raise e, h1) => ([], Raise e, table, h1)
        end
    | S depth' =>
        match _order_moves board player h with
        | (Raise e, h1) => ([], Raise e, table, h1)
        | (Ok moves, h1) => iter_loop depth' board player moves alpha beta table h1
        end
    end.

(** The loop of [get_best_move]. *)
Fixpoint best_of (ys : list (Move * Score)) (best_move : option Move)
    (best_score : Score) : option Move :=
  match ys with
  | [] => best_move
  | (move, score) :: ys' =>
      if score_gt score best_score then best_of ys' (Some move) score
      else best_of ys' best_move best_score
  end.

(** [ChessAI.get_best_move] *)
Definition get_best_move (depth : nat) (table : Table)
  : Heap -> Outcome (option Move) * Table * Heap :=
  fun h =>
    let best_move := None in
    let best_score := NegInf in
    let alpha := NegInf in
    let beta := PosInf in
    match _iter_possible_moves_in_depth depth game_board self_player
            alpha beta table h with
    | (ys, Ok _, table', h1) => (Ok (best_of ys best_move best_score), table', h1)
    | (_, Raise e, table', h1) => (Raise e, table', h1)
    end.
End ChessAI.

(* ================================================================== *)
(** ** logic/game.py *)

(** The [ChessAI] instance bound to a game: [self.player] and
    [self.transposition_table]; [self.game] is the game that holds it. *)
Record ChessAI := mkAI { ai_player : Player; transposition_table : Table }.

Record ChessGame := mkGame {
  board : bref;
  current_player : Player;
  ai : option ChessAI
}.

(** Methods of the game: they may raise, and they read and write both
    the game object and the store. *)
Definition GM (A : Type) := ChessGame -> Heap -> Outcome A * ChessGame * Heap.

Definition gm_ret {A} (a : A) : GM A := fun g h => (Ok a, g, h).
Definition gm_raise {A} (e : Exn) : GM A := fun g h => (Raise e, g, h).
Definition gm_bind {A B} (m : GM A) (f : A -> GM B) : GM B :=
  fun g h => match m g h with
             | (Ok a, g1, h1) => f a g1 h1
             | (Raise e, g1, h1) => (Raise e, g1, h1)
             end.
Definition gm_lift {A} (m : M A) : GM A :=
  fun g h => match m h with (r, h1) => (r, g, h1) end.
Definition gm_self : GM ChessGame := fun g h => (Ok g, g, h).
Definition set_current_player (p : Player) : GM unit :=
  fun g h => (Ok tt, mkGame (board g) p (ai g), h).

Notation "x <<- c1 ;; c2" := (gm_bind c1 (fun x => c2))
  (at level 100, c1 at next level, right associativity) : py_scope.

Section Game.
Variable py_id : bref -> N.
Variable py_hash : string -> Z.

(** [self.ai.get_best_move(depth)] *)
Definition ai_get_best_move (a : ChessAI) (depth : nat) : GM (option Move) :=
  fun g h =>
    match get_best_move (board g) (ai_player a) py_id py_hash depth
            (transposition_table a) h with
    | (r, table', h1) =>
        (r, mkGame (board g) (current_player g)
                   (option_map (fun a' => mkAI (ai_player a') table') (ai g)), h1)
    end.

(** [ChessGame.__init__] *)
Definition ChessGame_init (board : option bref) (ai : bool) : M ChessGame :=
  b <- match board with None => initial | Some b => ret b end ;;
  ret (mkGame b white (if ai then Some (mkAI black ∅) else None)).

(** [ChessGame.move_piece] *)
Definition move_piece (start_pos end_pos : Pos) : GM (option Result) :=
  self <<- gm_self ;;
  piece <<- gm_lift (getitem (board self) start_pos) ;;
  match piece with
  | None => gm_raise (ValueError "No piece at start position")
  | Some piece =>
      p <<- gm_lift (read piece) ;;
      if decide (player p <> current_player self) then
        gm_raise (ValueError "It's not your turn")
      else
        move <<- gm_lift
          (consume (possible_moves piece start_pos.1 start_pos.2 (board self))
             (fun moves rest =>
                match List.find (fun move => bool_decide (destination move = end_pos))
                                moves with
                | Some move => ret move
                | None => finish rest ;; raise (ValueError "Invalid move")
                end)) ;;
        _ <<- gm_lift (execute move (board self)) ;;
        end_of_the_game <<- gm_lift (check_winner (board self)) ;;
        match end_of_the_game with
        | Some r => gm_ret (Some r)
        | None =>
            _ <<- set_current_player (opponent (current_player self)) ;;
            self <<- gm_self ;;
            match ai self with
            | None => gm_ret None
            | Some a =>
                best_move <<- ai_get_best_move a 2 ;;
                match best_move with
                | None => gm_raise AttributeError
                | Some best_move =>
                    _ <<- gm_lift (execute best_move (board self)) ;;
                    end_of_the_game <<- gm_lift (check_winner (board self)) ;;
                    match end_of_the_game with
                    | Some r => gm_ret (Some r)
                    | None =>
                        self <<- gm_self ;;
                        _ <<- set_current_player (opponent (current_player self)) ;;
                        gm_ret None
                    end
                end
            end
        end
  end.
End Game.

(* ================================================================== *)
(** * The vocabulary of the properties *)

(** ** The frame: objects that exist are not written *)

(** [extends h h']: every object of [h] is in [h'], unchanged. *)
Definition extends (h h' : Heap) : Prop :=
  pieces h `prefix_of` pieces h' ∧ boards h `prefix_of` boards h'.

Infix "⊑" := extends (at level 70).

(** If [r] is an exception, it is IndexError. *)
Definition only_index {A} (r : Outcome A) : Prop :=
  ∀ e, r = Raise e → e = IndexError.

(** A statement is framed from [h0] when it leaves the objects of [h0]
    alone and raises nothing but IndexError. *)
Definition framed {A} (h0 : Heap) (m : M A) : Prop :=
  ∀ h, h0 ⊑ h → h0 ⊑ (m h).2 ∧ only_index (m h).1.

Definition gframed {Y} (h0 : Heap) (g : Gen Y) : Prop :=
  ∀ h, h0 ⊑ h → h0 ⊑ (g h).2 ∧ only_index (g h).1.2.

(** Safe statements are framed from every store: whatever they write,
    they have allocated themselves. *)
Abbreviation safe m := (∀ h0, framed h0 m).
Abbreviation gsafe g := (∀ h0, gframed h0 g).

(** The pieces a move writes when executed: its [piece] and, for a
    castling move, its [rock]. *)
Definition written (m : Move) : list pref :=
  match m with
  | MoveCastling p _ _ rk _ _ => [p; rk]
  | _ => [piece m]
  end.

(** ** Positions: what a board looks like *)

(** The position on a board: for every square, the attributes of the
    piece that stands there.  Two boards that look the same may hold
    different objects. *)
Definition View := list (list (option Piece)).

Definition view (h : Heap) (b : bref) : View :=
  map (map (fmap (M := option) (deref h))) (field_of h b).

(** A board is closed in a store when it and every piece it refers to
    exist there. *)
Definition valid_cell (h : Heap) (c : option pref) : Prop :=
  match c with
  | Some r => (r < length (pieces h))%nat
  | None => True
  end.

Definition closed_field (h : Heap) (f : Field) : Prop :=
  Forall (Forall (valid_cell h)) f.

Definition closed (h : Heap) (b : bref) : Prop :=
  (b < length (boards h))%nat ∧ closed_field h (field_of h b).

(** ** Pseudo-legal destinations and check, read off a position

    These functions follow the generators of [logic/pieces.py] step by
    step, on a position instead of a board object, and keep only the
    destinations of the moves.  They are the yardstick for "the outcome
    depends only on what the board looks like". *)

Definition Dests := (list Pos * Outcome unit)%type.

Definition dskip : Dests := ([], Ok tt).
Definition done_at (d : Pos) : Dests := ([d], Ok tt).
Definition dseq (s1 s2 : Dests) : Dests :=
  match s1 with
  | (ds, Ok _) => (ds ++ s2.1, s2.2)
  | (ds, Raise e) => (ds, Raise e)
  end.
Definition dbind {A} (r : Outcome A) (k : A → Dests) : Dests :=
  match r with Ok a => k a | Raise e => ([], Raise e) end.
Fixpoint dfor {A} (l : list A) (body : A → Dests) : Dests :=
  match l with
  | [] => dskip
  | a :: l' => dseq (body a) (dfor l' body)
  end.

Section PositionRules.
Variable me : Piece.
Variable v : View.

Definition Pawn_dests (x y : Z) : Dests :=
  let direction := direction (player me) in
  dseq
    (if is_inside (x, y + direction) then
       dbind (field_get v (x, y + direction)) (λ c,
         match c with
         | None =>
             dseq (done_at (x, y + direction))
               (if negb (is_moved me)
                   && bool_decide (y = pawn_start_row (player me)) then
                  dbind (field_get v (x, y + 2 * direction)) (λ c2,
                    match c2 with
                    | None => done_at (x, y + 2 * direction)
                    | Some _ => dskip
                    end)
                else dskip)
         | Some _ => dskip
         end)
     else dskip)
    (dfor [-1; 1] (λ dx,
       if is_inside (x + dx, y + direction) then
         dbind (field_get v (x + dx, y + direction)) (λ c,
           match c with
           | None => dskip
           | Some o =>
               if bool_decide (player o ≠ player me)
               then done_at (x + dx, y + direction)
               else dskip
           end)
       else dskip)).

Definition step_dests (x y dx dy : Z) : Dests :=
  if is_inside (x + dx, y + dy) then
    dbind (field_get v (x + dx, y + dy)) (λ cell,
      match cell with
      | None => done_at (x + dx, y + dy)
      | Some o =>
          if bool_decide (player o ≠ player me)
          then done_at (x + dx, y + dy)
          else dskip
      end)
  else dskip.

Definition discrete_dests (vectors : list (Z * Z)) (x y : Z) : Dests :=
  dfor vectors (λ d, step_dests x y d.1 d.2).

Fixpoint all_none_v (xs : list Z) (y : Z) : Outcome bool :=
  match xs with
  | [] => Ok true
  | xx :: xs' =>
      match field_get v (xx, y) with
      | Raise e => Raise e
      | Ok None => all_none_v xs' y
      | Ok (Some _) => Ok false
      end
  end.

Definition castling_guard_v (fig : option Piece) (between : list Z) (y : Z)
  : Outcome bool :=
  if negb (is_moved me) then
    match fig with
    | None => Ok false
    | Some f =>
        if bool_decide (cls f = Rook) then
          if bool_decide (player f = player me) then all_none_v between y
          else Ok false
        else Ok false
    end
  else Ok false.

Definition castling_dests (corner : Z) (between : list Z) (d : Pos) (y : Z)
  : Dests :=
  dbind (field_get v (corner, y)) (λ fig,
    dbind (castling_guard_v fig between y) (λ ok,
      match ok, fig with
      | true, Some _ => done_at d
      | _, _ => dskip
      end)).

Definition King_dests (x y : Z) : Dests :=
  dseq (discrete_dests King_vectors x y)
    (dseq (castling_dests 0 (range 1 x) (x - 2, y) y)
          (castling_dests 7 (range (x + 1) 7) (x + 2, y) y)).

Fixpoint slide_dests (fuel : nat) (x y dx dy : Z) : Dests :=
  match fuel with
  | O => dskip
  | S fuel' =>
      if is_inside (x, y) then
        dbind (field_get v (x, y)) (λ cell,
          match cell with
          | None =>
              dseq (done_at (x, y)) (slide_dests fuel' (x + dx) (y + dy) dx dy)
          | Some o =>
              if bool_decide (player o ≠ player me) then done_at (x, y)
              else dskip
          end)
      else dskip
  end.

Definition straight_dests (directions : list (Z * Z)) (x y : Z) : Dests :=
  dfor directions (λ d, slide_dests 8 (x + d.1) (y + d.2) d.1 d.2).

Definition pseudo_dests (x y : Z) : Dests :=
  match cls me with
  | Pawn => Pawn_dests x y
  | Knight => discrete_dests Knight_vectors x y
  | King => King_dests x y
  | Bishop => straight_dests Bishop_directions x y
  | Rook => straight_dests Rook_directions x y
  | Queen => straight_dests Queen_directions x y
  end.

(** Does one of the destinations hold an enemy king? *)
Fixpoint attacks_king (ds : list Pos) (rest : Outcome unit) : Outcome bool :=
  match ds with
  | [] => match rest with Ok _ => Ok false | Raise e => Raise e end
  | d :: ds' =>
      match field_get v d with
      | Raise e => Raise e
      | Ok None => attacks_king ds' rest
      | Ok (Some k) =>
          if bool_decide (cls k = King) && bool_decide (player k ≠ player me)
          then Ok true
          else attacks_king ds' rest
      end
  end.
End PositionRules.

Definition gives_check (v : View) (me : Piece) (x y : Z) : Outcome bool :=
  attacks_king me v (pseudo_dests me v x y).1 (pseudo_dests me v x y).2.

Fixpoint any_gives_check (v : View) (ps : list (Pos * Piece)) : Outcome bool :=
  match ps with
  | [] => Ok false
  | (pos, p) :: ps' =>
      match gives_check v p pos.1 pos.2 with
      | Raise e => Raise e
      | Ok true => Ok true
      | Ok false => any_gives_check v ps'
      end
  end.

(** Whether [pl] is in check in position [v]. *)
Definition in_check (v : View) (pl : Player) : Outcome bool :=
  any_gives_check v
    (List.filter (λ e : Pos * Piece, bool_decide (player e.2 = opponent pl))
                 (enumerate_cells v)).

(** ** The generators compute what the position says *)

(** [gsim h0 g s]: from every store that extends [h0], the generator [g]
    yields moves with the destinations [s.1], ends as [s.2] says, and is
    framed. *)
Definition gsim (h0 : Heap) (g : Gen Move) (s : Dests) : Prop :=
  ∀ h, h0 ⊑ h →
       destination <$> (g h).1.1 = s.1 ∧ (g h).1.2 = s.2 ∧ h0 ⊑ (g h).2.

Definition msim {A} (h0 : Heap) (m : M A) (r : Outcome A) : Prop :=
  ∀ h, h0 ⊑ h → (m h).1 = r ∧ h0 ⊑ (m h).2.

(** ** What executing a move does to a board *)

Definition rbind {A B} (r : Outcome A) (k : A → Outcome B) : Outcome B :=
  match r with Ok a => k a | Raise e => Raise e end.

(** The writes of [execute] to the squares, with [g] telling what stands
    for each piece of the move. *)
Definition exec_cells {C} (g : pref → C) (m : Move) (f : list (list (option C)))
  : Outcome (list (list (option C))) :=
  rbind (field_set f (destination m) (Some (g (piece m)))) (λ f1,
  rbind (field_set f1 (start_position m) None) (λ f2,
  match m with
  | MovePlain _ _ _ => Ok f2
  | MoveWithPromotion _ _ d q => field_set f2 d (Some (g q))
  | MoveCastling _ _ _ rk rs rd =>
      rbind (field_set f2 rd (Some (g rk))) (λ f3, field_set f3 rs None)
  end)).

(** The writes of [execute] to the pieces. *)
Definition mark (r : pref) (ps : list Piece) : list Piece :=
  <[r := mkPiece (cls (ps !!! r)) (player (ps !!! r)) true]> ps.

Definition mark_written (m : Move) (ps : list Piece) : list Piece :=
  match m with
  | MoveCastling p _ _ rk _ _ => mark rk (mark p ps)
  | _ => mark (piece m) ps
  end.

(** Every piece a move refers to. *)
Definition refs (m : Move) : list pref :=
  match m with
  | MovePlain p _ _ => [p]
  | MoveWithPromotion p _ _ q => [p; q]
  | MoveCastling p _ _ rk _ _ => [p; rk]
  end.

(** What is known, in a later store [h'], of a move that has passed the
    test of [try_move] for the piece [self] on board [b] of store [h]: its
    pieces were allocated after [h], those it writes are already marked as
    moved, and the position it produces from that of [b] has the mover
    out of check. *)
Definition tested (h : Heap) (b : bref) (self : pref) (m : Move) (h' : Heap)
  : Prop :=
  Forall (λ r, (length (pieces h) ≤ r < length (pieces h'))%nat) (refs m) ∧
  Forall (λ r, is_moved (deref h' r) = true) (written m) ∧
  ∃ v', exec_cells (deref h') m (view h b) = Ok v' ∧
        in_check v' (player (deref h self)) = Ok false.

(** ** Exceptions other than IndexError *)

Definition raises_only_index {A} (m : M A) : Prop :=
  ∀ h, only_index (m h).1.

(** ** The sliding loop *)

(** How many squares remain in front of coordinate [x] when stepping by
    [dx]; without bound when [dx] is 0. *)
Definition room (dx x : Z) : Z :=
  if bool_decide (0 < dx) then 8 - x
  else if bool_decide (dx < 0) then x + 1
  else 0.

Definition enough (fuel : nat) (x y dx dy : Z) : Prop :=
  is_inside (x, y) = true →
  (dx ≠ 0 ∧ room dx x ≤ Z.of_nat fuel) ∨ (dy ≠ 0 ∧ room dy y ≤ Z.of_nat fuel).

(** ** Counting legal moves *)

(** The census of a player's legal moves,
    [[(type(piece), move.start_position, move.destination)
      for (x, y), piece in board.iter_pieces(player=player)
      for move in piece.possible_moves(x, y, board)]]. *)
Fixpoint legal_moves_loop (board : bref) (ps : list (Pos * pref))
  : M (list (PieceClass * Pos * Pos)) :=
  match ps with
  | [] => ret []
  | (pos, piece) :: ps' =>
      p <- read piece ;;
      ms <- consume (possible_moves piece pos.1 pos.2 board)
              (fun moves rest => finish rest ;; ret moves) ;;
      l <- legal_moves_loop board ps' ;;
      ret (map (fun m => (cls p, start_position m, destination m)) ms ++ l)
  end.

Definition legal_moves (board : bref) (player : Player)
  : M (list (PieceClass * Pos * Pos)) :=
  ps <- iter_pieces board (Some player) ;;
  legal_moves_loop board ps.

Definition count_class (c : PieceClass) (l : list (PieceClass * Pos * Pos)) : nat :=
  length (List.filter (fun e => bool_decide (e.1.1 = c)) l).

(** A pawn advance of one or two squares along its file, for white. *)
Definition is_advance (e : PieceClass * Pos * Pos) : bool :=
  bool_decide (e.2.1 = e.1.2.1) &&
  (bool_decide (e.2.2 = e.1.2.2 - 1) || bool_decide (e.2.2 = e.1.2.2 - 2)).

Definition empty_store : Heap := mkHeap [] [].

(** ** Positions used as examples *)

Definition empty_row : list (option pref) := replicate 8 None.

(** The run-time functions used in the examples: the address of a board
    is its position in the store, and every string hashes to 0. *)
Definition addr (b : bref) : N := N.of_nat b.
Definition zero_hash (s : string) : Z := 0.

(** White: king e1, rook e2.  Black: king a8, rook e8.  The white rook is
    pinned on the e-file. *)
Definition pin_heap : Heap := mkHeap
  [ mkPiece King black true; mkPiece Rook black true;
    mkPiece Rook white true; mkPiece King white true ]
  [ [ [Some 0%nat; None; None; None; Some 1%nat; None; None; None];
      empty_row; empty_row; empty_row; empty_row; empty_row;
      [None; None; None; None; Some 2%nat; None; None; None];
      [None; None; None; None; Some 3%nat; None; None; None] ] ].
Definition pin_game : ChessGame := mkGame 0%nat white None.
Definition pin_run := Eval vm_compute in possible_moves 2%nat 4 6 0%nat pin_heap.
Definition pin_illegal :=
  Eval vm_compute in move_piece addr zero_hash (4, 6) (5, 6) pin_game pin_heap.

(** A white king alone on e1. *)
Definition lone_heap : Heap := mkHeap
  [ mkPiece King white true ]
  [ [ empty_row; empty_row; empty_row; empty_row; empty_row; empty_row;
      empty_row;
      [None; None; None; None; Some 0%nat; None; None; None] ] ].
Definition lone_game : ChessGame := mkGame 0%nat white (Some (mkAI black ∅)).
Definition lone_final :=
  Eval vm_compute in (move_piece addr zero_hash (4, 7) (4, 6) lone_game lone_heap).2.

(** Board 0, the board of the game, black to move: white king h1; black
    king f2 and queen g6.  Board 1, the position after the queen has gone
    to g3: white is stalemated. *)
Definition search_heap : Heap := mkHeap
  [ mkPiece Queen black true; mkPiece King black true; mkPiece King white true;
    mkPiece Queen black true; mkPiece King black true; mkPiece King white true ]
  [ [ empty_row; empty_row;
      [None; None; None; None; None; None; Some 0%nat; None];
      empty_row; empty_row; empty_row;
      [None; None; None; None; None; Some 1%nat; None; None];
      [None; None; None; None; None; None; None; Some 2%nat] ];
    [ empty_row; empty_row; empty_row; empty_row; empty_row;
      [None; None; None; None; None; None; Some 3%nat; None];
      [None; None; None; None; None; Some 4%nat; None; None];
      [None; None; None; None; None; None; None; Some 5%nat] ] ].
Definition search_after :=
  Eval vm_compute in (_order_moves 1%nat white search_heap).2.

(** White king e1, not moved; white rook a1, which has moved; b1, c1 and
    d1 empty. *)
Definition castle_heap : Heap := mkHeap
  [ mkPiece King white false; mkPiece Rook white true ]
  [ [ empty_row; empty_row; empty_row; empty_row; empty_row; empty_row;
      empty_row;
      [Some 1%nat; None; None; None; Some 0%nat; None; None; None] ] ].

(** As the arrangement editor leaves it: black king e8; white pawn a2,
    king g1 and rook h1, none of them moved. *)
Definition corner_heap : Heap := mkHeap
  [ mkPiece King black false; mkPiece Pawn white false;
    mkPiece King white false; mkPiece Rook white false ]
  [ [ [None; None; None; None; Some 0%nat; None; None; None];
      empty_row; empty_row; empty_row; empty_row; empty_row;
      [Some 1%nat; None; None; None; None; None; None; None];
      [None; None; None; None; None; None; Some 2%nat; Some 3%nat] ] ].
Definition corner_game : ChessGame := mkGame 0%nat white None.

(** Two board objects with the same position, the kings on e1 and e8. *)
Definition twin_heap : Heap := mkHeap
  [ mkPiece King black true; mkPiece King white true;
    mkPiece King black true; mkPiece King white true ]
  [ [ [None; None; None; None; Some 0%nat; None; None; None];
      empty_row; empty_row; empty_row; empty_row; empty_row; empty_row;
      [None; None; None; None; Some 1%nat; None; None; None] ];
    [ [None; None; None; None; Some 2%nat; None; None; None];
      empty_row; empty_row; empty_row; empty_row; empty_row; empty_row;
      [None; None; None; None; Some 3%nat; None; None; None] ] ].

(* ================================================================== *)
(** * The vocabulary of the further properties *)

(** ** Deep copies *)

(** A cell that is empty or refers to a piece allocated after [h]. *)
Definition new_cell (h : Heap) (c : option pref) : Prop :=
  match c with
  | Some r => (length (pieces h) ≤ r)%nat
  | None => True
  end.

(** ** What the generators yield *)

(** [gpost h0 P g]: from every store that extends [h0], the generator [g]
    only allocates, and every move it yields satisfies [P] in the store
    it ends in. *)
Definition gpost (h0 : Heap) (P : Heap → Move → Prop) (g : Gen Move) : Prop :=
  ∀ h, h0 ⊑ h → h ⊑ (g h).2 ∧ Forall (P (g h).2) (g h).1.1.

Definition stable (P : Heap → Move → Prop) : Prop :=
  ∀ h h' m, h ⊑ h' → P h m → P h' m.

(** A square on which the piece [me] may land in position [v]: it is
    there, and empty or held by the other player. *)
Definition lands_ok (v : View) (me : Piece) (d : Pos) : Prop :=
  match field_get v d with
  | Ok None => True
  | Ok (Some o) => player o ≠ player me
  | Raise _ => False
  end.

(** What every pseudo-legal move of the piece [self] at (x, y) on board
    [b] of store [h0] looks like, in a later store [h']. *)
Definition pseudo_ok (h0 : Heap) (b : bref) (self : pref) (x y : Z)
    (h' : Heap) (m : Move) : Prop :=
  let me := deref h0 self in
  let v := view h0 b in
  piece m = self ∧ start_position m = (x, y) ∧
  match m with
  | MovePlain _ _ d =>
      is_inside d = true ∧ lands_ok v me d ∧
      (cls me = Pawn → d.2 ≠ promotion_row (player me)) ∧
      (cls me = King → Z.abs (d.1 - x) ≤ 1)
  | MoveWithPromotion _ _ d q =>
      cls me = Pawn ∧ is_inside d = true ∧ lands_ok v me d ∧
      d.2 = promotion_row (player me) ∧
      pieces h' !! q = Some (mkPiece Queen (player me) false)
  | MoveCastling _ _ d rk rs rd =>
      cls me = King ∧ is_moved me = false ∧
      (rk < length (pieces h0))%nat ∧
      field_get v rs = Ok (Some (deref h0 rk)) ∧
      cls (deref h0 rk) = Rook ∧ player (deref h0 rk) = player me ∧
      ((d = (x - 2, y) ∧ rs = (0, y) ∧ rd = (x - 1, y) ∧
        ∀ xx, 1 ≤ xx < x → field_get v (xx, y) = Ok None) ∨
       (d = (x + 2, y) ∧ rs = (7, y) ∧ rd = (x + 1, y) ∧
        ∀ xx, x + 1 ≤ xx < 7 → field_get v (xx, y) = Ok None))
  end.

(** ** Regular boards *)

(** A field of eight rows of eight squares, as [Board.__init__] makes it. *)
Definition regular {C} (f : list (list C)) : Prop :=
  length f = 8%nat ∧ Forall (λ row, length row = 8%nat) f.

(** ** How the pieces move *)

(** One step of a piece of class [c], as a change of column and row: the
    jump of a knight, a step of a king in any direction, a step along a
    row or column for a rook, along a diagonal for a bishop, either for
    a queen. *)
Definition step_of (c : PieceClass) (dx dy : Z) : Prop :=
  match c with
  | Knight => (Z.abs dx = 1 ∧ Z.abs dy = 2) ∨ (Z.abs dx = 2 ∧ Z.abs dy = 1)
  | King | Queen => Z.abs dx ≤ 1 ∧ Z.abs dy ≤ 1 ∧ (dx, dy) ≠ (0, 0)
  | Rook => Z.abs dx + Z.abs dy = 1
  | Bishop => Z.abs dx = 1 ∧ Z.abs dy = 1
  | Pawn => False
  end.

(** The condition under which [King._possible_moves] yields a castling
    towards the corner in column [corner]: the king has not moved, a rook
    of its player stands in that corner of the row, and the squares of
    the columns from [lo] up to, not including, [hi] are empty. *)
Definition can_castle (v : View) (me : Piece) (corner lo hi : Z) (y : Z) : Prop :=
  is_moved me = false ∧
  (∃ rk, field_get v (corner, y) = Ok (Some rk) ∧
         cls rk = Rook ∧ player rk = player me) ∧
  ∀ xx, lo ≤ xx < hi → field_get v (xx, y) = Ok None.

(** The square holds a piece of the other player. *)
Definition enemy_at (v : View) (me : Piece) (d : Pos) : Prop :=
  ∃ o, field_get v d = Ok (Some o) ∧ player o ≠ player me.

(** An example position.  Black: king e8, pawn b3.  White: king e1,
    knight b1, bishop c1, pawn a2; the white pawn has not moved. *)
Definition minor_heap : Heap := mkHeap
  [ mkPiece King black true; mkPiece King white true;
    mkPiece Knight white false; mkPiece Bishop white false;
    mkPiece Pawn white false; mkPiece Pawn black true ]
  [ [ [None; None; None; None; Some 0%nat; None; None; None];
      empty_row; empty_row; empty_row; empty_row;
      [None; Some 5%nat; None; None; None; None; None; None];
      [Some 4%nat; None; None; None; None; None; None; None];
      [None; Some 2%nat; Some 3%nat; None; Some 1%nat; None; None; None] ] ].

(** ** Pieces that have moved *)

(** The piece [p] after [piece.is_moved = True]. *)
Definition moved (p : Piece) : Piece := mkPiece (cls p) (player p) true.

(** ** Legal moves on a position *)

(** The rook's part of a castling, on a position: the rook that stands
    in the corner of the original position [v] goes to column [rook_x]. *)
Definition castle_cells (v v2 : View) (corner rook_x y : Z) : Outcome View :=
  match field_get v (corner, y) with
  | Ok (Some rk) =>
      rbind (field_set v2 (rook_x, y) (Some (moved rk))) (λ v3,
        field_set v3 (corner, y) None)
  | Ok None => Ok v2
  | Raise e => Raise e
  end.

(** The position after the piece [me] has made its pseudo-legal move
    from (x, y) to [d] in position [v]: what [execute] leaves of the
    move that [_possible_moves] yields for that destination. *)
Definition after_move (me : Piece) (v : View) (x y : Z) (d : Pos)
  : Outcome View :=
  rbind (field_set v d (Some (moved me))) (λ v1,
  rbind (field_set v1 (x, y) None) (λ v2,
    match cls me with
    | Pawn =>
        if bool_decide (d.2 = promotion_row (player me))
        then field_set v2 d (Some (mkPiece Queen (player me) false))
        else Ok v2
    | King =>
        if bool_decide (d.1 = x - 2) then castle_cells v v2 0 (x - 1) y
        else if bool_decide (d.1 = x + 2) then castle_cells v v2 7 (x + 1) y
        else Ok v2
    | _ => Ok v2
    end)).

(** The test of [try_move] on a position: does the move to [d] leave
    the mover's player out of check? *)
Definition keeps_safe (me : Piece) (v : View) (x y : Z) (d : Pos) : Outcome bool :=
  rbind (after_move me v x y d) (λ v', in_check v' (player me)).

(** The legal destinations of the piece [me] on (x, y) in position [v]:
    [Piece.possible_moves] on a position. *)
Definition legal_dests (me : Piece) (v : View) (x y : Z) : Dests :=
  dseq (dfor (pseudo_dests me v x y).1 (λ d,
          dbind (keeps_safe me v x y d) (λ c,
            if negb c then done_at d else dskip)))
       ([], (pseudo_dests me v x y).2).

(** [Piece.has_possible_move] on a position. *)
Definition has_move (v : View) (p : Piece) (pos : Pos) : Outcome bool :=
  match legal_dests p v pos.1 pos.2 with
  | (_ :: _, _) => Ok true
  | ([], Ok _) => Ok false
  | ([], Raise e) => Raise e
  end.

(** Has none of the pieces [ps] a legal move? *)
Fixpoint none_moves (v : View) (ps : list (Pos * Piece)) : Outcome bool :=
  match ps with
  | [] => Ok true
  | (pos, p) :: ps' =>
      match has_move v p pos with
      | Raise e => Raise e
      | Ok true => Ok false
      | Ok false => none_moves v ps'
      end
  end.

(** The pieces of player [pl] in position [v], row by row. *)
Definition pieces_of (v : View) (pl : Player) : list (Pos * Piece) :=
  List.filter (λ e : Pos * Piece, bool_decide (player e.2 = pl))
              (enumerate_cells v).

(** [Board.is_in_checkmate], [Board.is_in_stalemate] and
    [Board.check_winner] on a position. *)
Definition checkmate_in (v : View) (pl : Player) : Outcome bool :=
  rbind (in_check v pl) (λ c,
    if negb c then Ok false else none_moves v (pieces_of v pl)).

Definition stalemate_in (v : View) (pl : Player) : Outcome bool :=
  rbind (in_check v pl) (λ c,
    if c then Ok false else none_moves v (pieces_of v pl)).

Fixpoint winner_loop (v : View) (players : list Player) : Outcome (option Result) :=
  match players with
  | [] => Ok None
  | pl :: players' =>
      rbind (checkmate_in v pl) (λ mate,
        if mate then Ok (Some (mkResult (Some (opponent pl)) checkmate))
        else rbind (stalemate_in v pl) (λ stale,
          if stale then Ok (Some (mkResult None stalemate))
          else winner_loop v players'))
  end.

Definition winner_in (v : View) : Outcome (option Result) :=
  winner_loop v all_players.

(** A deep copy [m'] in store [h'] of the move [m] of store [h]. *)
Definition copy_of (h h' : Heap) (m m' : Move) : Prop :=
  start_position m' = start_position m ∧ destination m' = destination m ∧
  deref h' (piece m') = deref h (piece m) ∧
  match m, m' with
  | MovePlain _ _ _, MovePlain _ _ _ => True
  | MoveWithPromotion p _ _ q, MoveWithPromotion p' _ _ q' =>
      deref h' q' = deref h q ∧ (q ≠ p → q' ≠ p')
  | MoveCastling p _ _ rk rs rd, MoveCastling p' _ _ rk' rs' rd' =>
      deref h' rk' = deref h rk ∧ rs' = rs ∧ rd' = rd ∧ (rk ≠ p → rk' ≠ p')
  | _, _ => False
  end.

(** ** Moves that have passed the test *)


(** ** The moves of the search *)

(** The pieces a move writes were allocated after the store [h0]. *)
Definition fresh_move (h0 : Heap) (m : Move) : Prop :=
  Forall (λ r, (length (pieces h0) ≤ r)%nat) (written m).

(** Executing the move writes no piece of [h0] anew: the pieces it
    marks as moved are new, or marked already. *)
Definition harmless (h0 : Heap) (m : Move) : Prop :=
  Forall (λ r, (length (pieces h0) ≤ r)%nat ∨ is_moved (deref h0 r) = true)
         (written m).

(** A legal move of a piece of player [pl] on board [b] of store [h0],
    as [possible_moves] has left it in the later store [h']. *)
Definition legal_for (h0 : Heap) (b : bref) (pl : Player) (h' : Heap) (m : Move)
  : Prop :=
  ∃ self, (self < length (pieces h0))%nat ∧ player (deref h0 self) = pl ∧
          tested h0 b self m h'.

(** ** The starting position *)

(** The pieces of the first and last row, from the a-file to the h-file. *)
Definition back_rank : list PieceClass :=
  [Rook; Knight; Bishop; Queen; King; Bishop; Knight; Rook].

(** The position at the start of a game; row 0 is black's back rank. *)
Definition start_view : View :=
  [ map (λ c, Some (mkPiece c black false)) back_rank;
    replicate 8 (Some (mkPiece Pawn black false));
    replicate 8 None; replicate 8 None; replicate 8 None; replicate 8 None;
    replicate 8 (Some (mkPiece Pawn white false));
    map (λ c, Some (mkPiece c white false)) back_rank ].

(** A field whose references count from [n]. *)
Definition shift_field (n : nat) (f : Field) : Field :=
  map (map (fmap (M := option) (Nat.add n))) f.

(* ================================================================== *)
(** * Properties *)

(** ** The frame: objects that exist are not written *)

#[global] Instance extends_preorder : PreOrder extends.
Proof.
  split.
  - intros h. split; reflexivity.
  - intros h1 h2 h3 [? ?] [? ?]. split; etrans; eauto.
Qed.

Lemma extends_deref h h' r :
  h ⊑ h' → (r < length (pieces h))%nat → deref h' r = deref h r.
Proof.
  intros [[k Hk] _] Hr. unfold deref. rewrite Hk.
  by rewrite lookup_total_app_l.
Qed.

Lemma extends_field_of h h' b :
  h ⊑ h' → (b < length (boards h))%nat → field_of h' b = field_of h b.
Proof.
  intros [_ [k Hk]] Hr. unfold field_of. rewrite Hk.
  by rewrite lookup_total_app_l.
Qed.

Lemma extends_pieces_length h h' :
  h ⊑ h' → (length (pieces h) ≤ length (pieces h'))%nat.
Proof. intros [? _]. by apply prefix_length. Qed.

Lemma extends_boards_length h h' :
  h ⊑ h' → (length (boards h) ≤ length (boards h'))%nat.
Proof. intros [_ ?]. by apply prefix_length. Qed.

Lemma prefix_insert_ge {A} (l0 l : list A) i x :
  l0 `prefix_of` l → (length l0 ≤ i)%nat → l0 `prefix_of` <[i := x]> l.
Proof.
  intros [k ->] Hi. rewrite insert_app_r_alt by done.
  by apply prefix_app_r.
Qed.

Lemma only_index_ok {A} (a : A) : only_index (Ok a).
Proof. by intros e. Qed.

Lemma only_index_raise {A} : only_index (@Raise A IndexError).
Proof. intros e. congruence. Qed.

#[local] Hint Resolve only_index_ok only_index_raise : core.

Section Frame.
Context (h0 : Heap).

Lemma framed_ret {A} (a : A) : framed h0 (ret a).
Proof. intros h Hh. simpl. auto. Qed.

Lemma framed_raise {A} : framed h0 (@raise A IndexError).
Proof. intros h Hh. simpl. auto. Qed.

(** Sequencing, with what is known of the first result. *)
Lemma framed_bind_post {A B} (Q : A → Prop) (m : M A) (f : A → M B) :
  (∀ h, h0 ⊑ h → h0 ⊑ (m h).2 ∧ only_index (m h).1 ∧
                  ∀ a, (m h).1 = Ok a → Q a) →
  (∀ a, Q a → framed h0 (f a)) →
  framed h0 (bind m f).
Proof.
  intros Hm Hf h Hh. unfold bind.
  destruct (Hm h Hh) as (H1 & H2 & H3).
  destruct (m h) as [[a|e] h1]; simpl in *.
  - apply Hf; [by apply H3|done].
  - split; [done|]. intros e' [= <-]. by apply (H2 e).
Qed.

Lemma framed_bind {A B} (m : M A) (f : A → M B) :
  framed h0 m → (∀ a, framed h0 (f a)) → framed h0 (bind m f).
Proof.
  intros Hm Hf. apply (framed_bind_post (λ _, True)); [|auto].
  intros h Hh. destruct (Hm h Hh). auto.
Qed.

Lemma framed_read r : framed h0 (read r).
Proof. intros h Hh. simpl. auto. Qed.

Lemma framed_read_all rs : framed h0 (read_all rs).
Proof. intros h Hh. simpl. auto. Qed.

Lemma framed_get_field b : framed h0 (get_field b).
Proof. intros h Hh. simpl. auto. Qed.

Lemma framed_iter_pieces b pl : framed h0 (iter_pieces b pl).
Proof. intros h Hh. simpl. auto. Qed.

Lemma framed_new_piece p : framed h0 (new_piece p).
Proof.
  intros h [H1 H2]. simpl. split; [|auto].
  split; simpl; [by apply prefix_app_r|done].
Qed.

Lemma framed_new_board f : framed h0 (new_board f).
Proof.
  intros h [H1 H2]. simpl. split; [|auto].
  split; simpl; [done|by apply prefix_app_r].
Qed.

Lemma field_get_only_index {C} (f : list (list C)) pos e :
  field_get f pos = Raise e → e = IndexError.
Proof. unfold field_get. repeat case_match; congruence. Qed.

Lemma field_set_only_index {C} (f : list (list C)) pos c e :
  field_set f pos c = Raise e → e = IndexError.
Proof. unfold field_set. repeat case_match; congruence. Qed.

Lemma framed_getitem b pos : framed h0 (getitem b pos).
Proof.
  intros h Hh. unfold getitem, bind, get_field. simpl.
  destruct (field_get _ _) eqn:E; simpl; [auto|].
  split; [done|]. intros e' [= <-]. by eapply field_get_only_index.
Qed.

(** Writes are framed when their target is not an object of [h0]. *)
Lemma framed_set_is_moved r :
  (length (pieces h0) ≤ r)%nat → framed h0 (set_is_moved r).
Proof.
  intros Hr h [H1 H2]. simpl. split; [|auto].
  split; simpl; [by apply prefix_insert_ge|done].
Qed.

Lemma framed_set_field b f :
  (length (boards h0) ≤ b)%nat → framed h0 (set_field b f).
Proof.
  intros Hr h [H1 H2]. simpl. split; [|auto].
  split; simpl; [done|by apply prefix_insert_ge].
Qed.

Lemma framed_setitem b pos c :
  (length (boards h0) ≤ b)%nat → framed h0 (setitem b pos c).
Proof.
  intros Hb. unfold setitem. apply framed_bind; [apply framed_get_field|].
  intros f. destruct (field_set f pos c) eqn:E.
  - by apply framed_set_field.
  - apply field_set_only_index in E as ->. apply framed_raise.
Qed.

Lemma framed_execute m b :
  (length (boards h0) ≤ b)%nat →
  (length (pieces h0) ≤ piece m)%nat →
  (∀ p s d rk rs rd, m = MoveCastling p s d rk rs rd →
                     (length (pieces h0) ≤ rk)%nat) →
  framed h0 (execute m b).
Proof.
  intros Hb Hp Hrk.
  assert (framed h0 (Move_execute m b)) as Hm.
  { unfold Move_execute.
    repeat (apply framed_bind; [|intros _]);
      auto using framed_setitem, framed_set_is_moved. }
  destruct m as [p s d|p s d q|p s d rk rs rd]; simpl; [done|..].
  - apply framed_bind; [done|intros _]. by apply framed_setitem.
  - repeat (apply framed_bind; [|intros _]);
      eauto using framed_setitem, framed_set_is_moved.
Qed.

Lemma framed_finish r : only_index r → framed h0 (finish r).
Proof.
  intros Hr. destruct r as [[]|e]; simpl.
  - apply framed_ret.
  - rewrite (Hr e eq_refl). apply framed_raise.
Qed.

Lemma gframed_skip {Y} : gframed h0 (@gskip Y).
Proof. intros h Hh. simpl. auto. Qed.

Lemma gframed_yield {Y} (y : Y) : gframed h0 (yield y).
Proof. intros h Hh. simpl. auto. Qed.

Lemma gframed_seq {Y} (g1 g2 : Gen Y) :
  gframed h0 g1 → gframed h0 g2 → gframed h0 (g1 ;;; g2).
Proof.
  intros H1 H2 h Hh. unfold gseq.
  destruct (H1 h Hh) as [Ha Hb].
  destruct (g1 h) as [[ys [[]|e]] h1]; simpl in *; [|auto].
  destruct (H2 h1 Ha) as [Hc Hd].
  by destruct (g2 h1) as [[ys' r] h2].
Qed.

Lemma gframed_bind_post {Y A} (Q : A → Prop) (m : M A) (k : A → Gen Y) :
  (∀ h, h0 ⊑ h → h0 ⊑ (m h).2 ∧ only_index (m h).1 ∧
                  ∀ a, (m h).1 = Ok a → Q a) →
  (∀ a, Q a → gframed h0 (k a)) →
  gframed h0 (gbind m k).
Proof.
  intros Hm Hk h Hh. unfold gbind.
  destruct (Hm h Hh) as (H1 & H2 & H3).
  destruct (m h) as [[a|e] h1]; simpl in *.
  - apply Hk; [by apply H3|done].
  - split; [done|]. intros e' [= <-]. by apply (H2 e).
Qed.

Lemma gframed_bind {Y A} (m : M A) (k : A → Gen Y) :
  framed h0 m → (∀ a, gframed h0 (k a)) → gframed h0 (gbind m k).
Proof.
  intros Hm Hf. apply (gframed_bind_post (λ _, True)); [|auto].
  intros h Hh. destruct (Hm h Hh). auto.
Qed.

Lemma gframed_for {Y A} (l : list A) (body : A → Gen Y) :
  (∀ a, gframed h0 (body a)) → gframed h0 (gfor l body).
Proof.
  intros Hb. induction l as [|a l IH]; simpl.
  - apply gframed_skip.
  - by apply gframed_seq.
Qed.

Lemma framed_consume {Y A} (g : Gen Y) (k : list Y → Outcome unit → M A) :
  gframed h0 g → (∀ ys r, only_index r → framed h0 (k ys r)) →
  framed h0 (consume g k).
Proof.
  intros Hg Hk h Hh. unfold consume.
  destruct (Hg h Hh) as [Ha Hb].
  destruct (g h) as [[ys r] h1]; simpl in *.
  by apply Hk.
Qed.
End Frame.

Create HintDb frame.

(** One step of a frame proof: split the statement at its head. *)
Ltac frame_step :=
  first
  [ assumption
  | solve [auto 2 with frame nocore]
  | match goal with
    | |- framed _ (bind _ _) => apply framed_bind; [|intros ?]
    | |- framed _ (ret _) => apply framed_ret
    | |- framed _ (raise IndexError) => apply framed_raise
    | |- framed _ (read _) => apply framed_read
    | |- framed _ (read_all _) => apply framed_read_all
    | |- framed _ (getitem _ _) => apply framed_getitem
    | |- framed _ (get_field _) => apply framed_get_field
    | |- framed _ (iter_pieces _ _) => apply framed_iter_pieces
    | |- framed _ (new_piece _) => apply framed_new_piece
    | |- framed _ (new_board _) => apply framed_new_board
    | |- framed _ (finish _) => apply framed_finish; assumption
    | |- framed _ (consume _ _) => apply framed_consume; [|intros ? ? ?]
    | |- gframed _ gskip => apply gframed_skip
    | |- gframed _ (yield _) => apply gframed_yield
    | |- gframed _ (gseq _ _) => apply gframed_seq
    | |- gframed _ (gbind _ _) => apply gframed_bind; [|intros ?]
    | |- gframed _ (gfor _ _) => apply gframed_for; intros ?
    | |- framed _ (match ?x with _ => _ end) => destruct x
    | |- gframed _ (match ?x with _ => _ end) => destruct x
    | |- framed _ (let _ := _ in _) => simpl
    | |- gframed _ (let _ := _ in _) => simpl
    end ].

Ltac frame := repeat frame_step.

Lemma safe_copy_row row : safe (copy_row row).
Proof. intros h0. induction row as [|[p|] row IH]; simpl; frame. Qed.
#[global] Hint Resolve safe_copy_row : frame.

Lemma safe_copy_rows f : safe (copy_rows f).
Proof. intros h0. induction f as [|row f IH]; simpl; frame. Qed.
#[global] Hint Resolve safe_copy_rows : frame.

(** A deep copy writes one object, the board it has just allocated. *)
Lemma framed_deepcopy_board h0 b h :
  h0 ⊑ h →
  h0 ⊑ (deepcopy_board b h).2 ∧ only_index (deepcopy_board b h).1 ∧
  ∀ nb, (deepcopy_board b h).1 = Ok nb → (length (boards h0) ≤ nb)%nat.
Proof.
  intros Hh.
  assert (framed h0 (deepcopy_board b)) as Hf.
  { unfold deepcopy_board.
    apply (framed_bind_post h0 (λ nb, (length (boards h0) ≤ nb)%nat)).
    - intros h' Hh'. simpl. repeat split.
      + by destruct Hh'.
      + destruct Hh' as [_ ?]. by apply prefix_app_r.
      + done.
      + intros a [= <-]. by apply extends_boards_length.
    - intros nb Hnb. frame. by apply framed_set_field. }
  destruct (Hf h Hh) as [H1 H2]. split; [done|split; [done|]].
  intros nb Hnb. pose proof (extends_boards_length _ _ Hh).
  unfold deepcopy_board, bind in Hnb. simpl in Hnb.
  destruct (copy_rows _ _) as [[f'|e] h1]; simpl in Hnb; [|done].
  injection Hnb as <-. done.
Qed.

Lemma safe_deepcopy_board b : safe (deepcopy_board b).
Proof. intros h0 h Hh. by destruct (framed_deepcopy_board h0 b h Hh) as (?&?&?). Qed.
#[global] Hint Resolve safe_deepcopy_board : frame.

Lemma safe_deepcopy_piece p : safe (deepcopy_piece p).
Proof. intros h0. unfold deepcopy_piece. frame. Qed.
#[global] Hint Resolve safe_deepcopy_piece : frame.

Lemma safe_deepcopy_move m : safe (deepcopy_move m).
Proof. intros h0. destruct m; simpl; frame. Qed.
#[global] Hint Resolve safe_deepcopy_move : frame.

Lemma gsafe_Pawn self x y b : gsafe (Pawn_possible_moves self x y b).
Proof. intros h0. unfold Pawn_possible_moves. frame. Qed.
#[global] Hint Resolve gsafe_Pawn : frame.

Lemma gsafe_in_direction self x y dx dy b :
  gsafe (_possible_moves_in_direction self x y dx dy b).
Proof. intros h0. unfold _possible_moves_in_direction. frame. Qed.
#[global] Hint Resolve gsafe_in_direction : frame.

Lemma gsafe_discrete vs self x y b :
  gsafe (PieceWithDiscreteMoves_possible_moves vs self x y b).
Proof. intros h0. unfold PieceWithDiscreteMoves_possible_moves. frame. Qed.
#[global] Hint Resolve gsafe_discrete : frame.

Lemma safe_all_none b xs y : safe (all_none b xs y).
Proof. intros h0. induction xs as [|xx xs IH]; simpl; frame. Qed.
#[global] Hint Resolve safe_all_none : frame.

Lemma safe_castling_guard self fig b xs y : safe (castling_guard self fig b xs y).
Proof. intros h0. unfold castling_guard. frame. Qed.
#[global] Hint Resolve safe_castling_guard : frame.

Lemma gsafe_King self x y b : gsafe (King_possible_moves self x y b).
Proof. intros h0. unfold King_possible_moves. frame. Qed.
#[global] Hint Resolve gsafe_King : frame.

Lemma gsafe_slide fuel self start x y dx dy b :
  gsafe (slide fuel self start x y dx dy b).
Proof.
  intros h0. revert x y. induction fuel as [|fuel IH]; intros x y; simpl; frame.
Qed.
#[global] Hint Resolve gsafe_slide : frame.

Lemma gsafe_straight ds self x y b :
  gsafe (PieceWithStraightMoves_possible_moves ds self x y b).
Proof. intros h0. unfold PieceWithStraightMoves_possible_moves. frame. Qed.
#[global] Hint Resolve gsafe_straight : frame.

Lemma gsafe__possible_moves self x y b : gsafe (_possible_moves self x y b).
Proof. intros h0. unfold _possible_moves. frame. Qed.
#[global] Hint Resolve gsafe__possible_moves : frame.

Lemma safe_is_check_loop self b ms r :
  only_index r → safe (is_check_loop self b ms r).
Proof. intros Hr h0. induction ms as [|m ms IH]; simpl; frame. Qed.
#[global] Hint Resolve safe_is_check_loop : frame.

Lemma safe_is_check self x y b : safe (is_check self x y b).
Proof. intros h0. unfold is_check. frame. Qed.
#[global] Hint Resolve safe_is_check : frame.

Lemma safe_is_in_check_loop b ps : safe (is_in_check_loop b ps).
Proof. intros h0. induction ps as [|[pos p] ps IH]; simpl; frame. Qed.
#[global] Hint Resolve safe_is_in_check_loop : frame.

Lemma safe_is_in_check b pl : safe (is_in_check b pl).
Proof. intros h0. unfold is_in_check. frame. Qed.
#[global] Hint Resolve safe_is_in_check : frame.

Lemma framed_execute_fresh h0 m b :
  (length (boards h0) ≤ b)%nat →
  Forall (λ r, (length (pieces h0) ≤ r)%nat) (written m) →
  framed h0 (execute m b).
Proof.
  intros Hb Hw. apply framed_execute; [done|..].
  - destruct m; by inversion Hw.
  - intros p s d rk rs rd ->. simpl in Hw.
    by inversion Hw as [|? ? ? Hw']; inversion Hw'.
Qed.

(** The copy of a move refers to pieces that did not exist before. *)
Lemma framed_deepcopy_move h0 m h :
  h0 ⊑ h →
  h0 ⊑ (deepcopy_move m h).2 ∧ only_index (deepcopy_move m h).1 ∧
  ∀ m', (deepcopy_move m h).1 = Ok m' →
        Forall (λ r, (length (pieces h0) ≤ r)%nat) (written m').
Proof.
  intros Hh. destruct (safe_deepcopy_move m h0 h Hh) as [H1 H2].
  split; [done|split; [done|]].
  pose proof (extends_pieces_length _ _ Hh) as Hl.
  intros m'. destruct m as [p s d|p s d q|p s d rk rs rd];
    unfold deepcopy_move, deepcopy_piece, bind, read, new_piece, ret; simpl.
  - intros [= <-]. repeat constructor. done.
  - destruct (decide (q = p)); simpl; intros [= <-]; repeat constructor; done.
  - destruct (decide (rk = p)); simpl; intros [= <-]; repeat constructor;
      simpl; rewrite ?length_app; simpl; lia.
Qed.

Lemma gsafe_try_move self b m : gsafe (try_move self b m).
Proof.
  intros h0. unfold try_move.
  apply (gframed_bind_post h0 (λ nb, (length (boards h0) ≤ nb)%nat)).
  { intros h' Hh'. apply framed_deepcopy_board. done. }
  intros nb Hnb.
  apply (gframed_bind_post h0
           (λ m', Forall (λ r, (length (pieces h0) ≤ r)%nat) (written m'))).
  { intros h' Hh'. by apply framed_deepcopy_move. }
  intros m' Hm'.
  apply gframed_bind; [by apply framed_execute_fresh|intros _].
  frame.
Qed.
#[global] Hint Resolve gsafe_try_move : frame.

Lemma gsafe_possible_moves self x y b : gsafe (possible_moves self x y b).
Proof.
  intros h0 h Hh. unfold possible_moves.
  destruct (gsafe__possible_moves self x y b h0 h Hh) as [H1 H2].
  destruct (_possible_moves self x y b h) as [[ms rest] h1]; simpl in *.
  revert h1 H1.
  change (gframed h0 (gfor ms (try_move self b) ;;; (λ h2, ([], rest, h2)))).
  apply gframed_seq; [|by intros h2 Hh2].
  apply gframed_for. intros m. apply gsafe_try_move.
Qed.
#[global] Hint Resolve gsafe_possible_moves : frame.

Lemma safe_has_possible_move self x y b : safe (has_possible_move self x y b).
Proof. intros h0. unfold has_possible_move. frame. Qed.
#[global] Hint Resolve safe_has_possible_move : frame.

Lemma safe_has_no_move_loop b ps : safe (has_no_move_loop b ps).
Proof. intros h0. induction ps as [|[pos p] ps IH]; simpl; frame. Qed.
#[global] Hint Resolve safe_has_no_move_loop : frame.

Lemma safe_is_in_checkmate b pl : safe (is_in_checkmate b pl).
Proof. intros h0. unfold is_in_checkmate. frame. Qed.
#[global] Hint Resolve safe_is_in_checkmate : frame.

Lemma safe_is_in_stalemate b pl : safe (is_in_stalemate b pl).
Proof. intros h0. unfold is_in_stalemate. frame. Qed.
#[global] Hint Resolve safe_is_in_stalemate : frame.

Lemma safe_check_winner_loop b pls : safe (check_winner_loop b pls).
Proof. intros h0. induction pls as [|pl pls IH]; simpl; frame. Qed.
#[global] Hint Resolve safe_check_winner_loop : frame.

Lemma safe_check_winner b : safe (check_winner b).
Proof. intros h0. unfold check_winner. frame. Qed.
#[global] Hint Resolve safe_check_winner : frame.

(* ================================================================== *)
(** ** Positions: what a board looks like *)

Lemma closed_field_extends h h' f :
  h ⊑ h' → closed_field h f → closed_field h' f.
Proof.
  intros Hh. pose proof (extends_pieces_length _ _ Hh).
  unfold closed_field. intros Hf.
  eapply Forall_impl; [exact Hf|]. intros row Hrow.
  eapply Forall_impl; [exact Hrow|].
  intros [r|]; simpl; [lia|done].
Qed.

Lemma closed_extends h h' b : h ⊑ h' → closed h b → closed h' b.
Proof.
  intros Hh [Hb Hf]. pose proof (extends_boards_length _ _ Hh).
  split; [lia|]. rewrite (extends_field_of h h') by done.
  by eapply closed_field_extends.
Qed.

Lemma view_extends h h' b : h ⊑ h' → closed h b → view h' b = view h b.
Proof.
  intros Hh [Hb Hf]. unfold view. rewrite (extends_field_of h h') by done.
  apply map_ext_Forall. eapply Forall_impl; [exact Hf|]. intros row Hrow.
  apply map_ext_Forall. eapply Forall_impl; [exact Hrow|].
  intros [r|] Hr; simpl; [|done]. f_equal. by apply extends_deref.
Qed.

Lemma field_get_fmap {C D} (g : C → D) (f : list (list C)) pos :
  field_get (map (map g) f) pos =
  match field_get f pos with Ok c => Ok (g c) | Raise e => Raise e end.
Proof.
  unfold field_get. rewrite length_map.
  destruct (py_index (length f) pos.2) as [j|]; [|done].
  change (map (map g) f) with (fmap (M := list) (map g) f).
  rewrite list_lookup_fmap. destruct (f !! j) as [row|]; simpl; [|done].
  rewrite length_map.
  destruct (py_index (length row) pos.1) as [i|]; [|done].
  change (map g row) with (fmap (M := list) g row).
  rewrite list_lookup_fmap. by destruct (row !! i).
Qed.

Lemma field_get_view h b pos :
  field_get (view h b) pos =
  match field_get (field_of h b) pos with
  | Ok c => Ok (deref h <$> c)
  | Raise e => Raise e
  end.
Proof. apply field_get_fmap. Qed.

Lemma field_get_closed h f pos r :
  closed_field h f → field_get f pos = Ok (Some r) →
  (r < length (pieces h))%nat.
Proof.
  intros Hf Hg. unfold field_get in Hg.
  repeat case_match; simplify_eq.
  match goal with
  | H1 : f !! _ = Some ?row, H2 : ?row !! _ = Some _ |- _ =>
      exact (Forall_lookup_1 _ _ _ _ (Forall_lookup_1 _ _ _ _ Hf H1) H2)
  end.
Qed.

(** ** The generators compute what the position says *)

Section Sim.
Context (h0 : Heap) (b : bref) (Hclosed : closed h0 b).

Lemma gsim_skip : gsim h0 gskip dskip.
Proof. by intros h Hh. Qed.

Lemma gsim_yield m : gsim h0 (yield m) (done_at (destination m)).
Proof. by intros h Hh. Qed.

Lemma gsim_seq g1 g2 s1 s2 :
  gsim h0 g1 s1 → gsim h0 g2 s2 → gsim h0 (g1 ;;; g2) (dseq s1 s2).
Proof.
  intros H1 H2 h Hh. unfold gseq, dseq.
  destruct (H1 h Hh) as (Ha & Hb & Hc).
  destruct (g1 h) as [[ys r] h1]; simpl in *.
  destruct s1 as [ds r1]; simpl in *. subst ds r1.
  destruct r as [[]|e]; [|done].
  destruct (H2 h1 Hc) as (Hd & He & Hf).
  destruct (g2 h1) as [[ys' r'] h2]; simpl in *.
  by rewrite fmap_app, Hd.
Qed.

Lemma gsim_for {A} (l : list A) body sbody :
  (∀ a, gsim h0 (body a) (sbody a)) → gsim h0 (gfor l body) (dfor l sbody).
Proof.
  intros Hb. induction l as [|a l IH]; simpl.
  - apply gsim_skip.
  - by apply gsim_seq.
Qed.

Lemma gsim_bind {A} (m : M A) r k sk :
  msim h0 m r → (∀ a, r = Ok a → gsim h0 (k a) (sk a)) →
  gsim h0 (gbind m k) (dbind r sk).
Proof.
  intros Hm Hk h Hh. unfold gbind, dbind.
  destruct (Hm h Hh) as [Ha Hb].
  destruct (m h) as [r' h1]; simpl in *. subst r'.
  destruct r as [a|e]; [|done]. by apply Hk.
Qed.

Lemma gsim_read r k s :
  (r < length (pieces h0))%nat → gsim h0 (k (deref h0 r)) s →
  gsim h0 (gbind (read r) k) s.
Proof.
  intros Hr Hk h Hh. unfold gbind, read.
  rewrite (extends_deref h0 h) by done. by apply Hk.
Qed.

Lemma gsim_new_piece p k s :
  (∀ q, gsim h0 (k q) s) → gsim h0 (gbind (new_piece p) k) s.
Proof.
  intros Hk h Hh. unfold gbind, new_piece. apply Hk.
  etrans; [exact Hh|]. split; simpl; [by apply prefix_app_r|done].
Qed.

(** Reading a square of [b]: the position tells what the piece read
    looks like, and the piece exists in [h0]. *)
Lemma gsim_getitem pos k sk :
  (∀ c, valid_cell h0 c → gsim h0 (k c) (sk (deref h0 <$> c))) →
  gsim h0 (gbind (getitem b pos) k) (dbind (field_get (view h0 b) pos) sk).
Proof.
  intros Hk h Hh. destruct Hclosed as [Hb Hf].
  unfold gbind, getitem, bind, get_field.
  rewrite (extends_field_of h0 h) by done.
  rewrite field_get_view.
  destruct (field_get (field_of h0 b) pos) as [c|e] eqn:E; simpl; [|done].
  apply Hk; [|done]. destruct c as [r|]; [|done].
  by eapply field_get_closed.
Qed.

Lemma msim_ret {A} (a : A) : msim h0 (ret a) (Ok a).
Proof. by intros h Hh. Qed.

Lemma msim_bind {A B} (m : M A) (f : A → M B) r r' :
  msim h0 m r →
  (∀ a, r = Ok a → msim h0 (f a) r') →
  (∀ e, r = Raise e → r' = Raise e) →
  msim h0 (bind m f) r'.
Proof.
  intros Hm Hf He h Hh. unfold bind.
  destruct (Hm h Hh) as [Ha Hb].
  destruct (m h) as [r0 h1]; simpl in *. subst r0.
  destruct r as [a|e]; [by apply Hf|].
  by rewrite (He e eq_refl).
Qed.

Lemma msim_read r : (r < length (pieces h0))%nat → msim h0 (read r) (Ok (deref h0 r)).
Proof.
  intros Hr h Hh. unfold read. simpl. by rewrite (extends_deref h0 h).
Qed.

Lemma msim_getitem pos :
  msim h0 (getitem b pos) (field_get (field_of h0 b) pos).
Proof.
  intros h Hh. destruct Hclosed as [Hb Hf].
  unfold getitem, bind, get_field.
  rewrite (extends_field_of h0 h) by done.
  by destruct (field_get (field_of h0 b) pos).
Qed.

Lemma msim_consume {A} g s (k : list Move → Outcome unit → M A) r :
  gsim h0 g s →
  (∀ ms, destination <$> ms = s.1 → msim h0 (k ms s.2) r) →
  msim h0 (consume g k) r.
Proof.
  intros Hg Hk h Hh. unfold consume.
  destruct (Hg h Hh) as (Ha & Hb & Hc).
  destruct (g h) as [[ms r0] h1]; simpl in *. subst r0.
  by apply Hk.
Qed.
End Sim.

(** One step of a simulation proof. *)
Ltac sim_step :=
  first
  [ assumption
  | match goal with
    | |- gsim _ gskip dskip => apply gsim_skip
    | |- gsim _ (yield _) _ => apply gsim_yield
    | |- gsim _ (gseq _ _) (dseq _ _) => apply gsim_seq
    | |- gsim _ (gfor _ _) (dfor _ _) => apply gsim_for; intros ?
    | |- gsim _ (gbind (read _) _) _ =>
        apply gsim_read; [done|]; cbv beta zeta
    | |- gsim _ (gbind (new_piece _) _) _ =>
        apply gsim_new_piece; intros ?; cbv beta zeta
    | |- gsim _ (gbind (getitem _ _) _) (dbind (field_get _ _) _) =>
        eapply gsim_getitem; [eassumption|];
        intros [?|] ?; cbn [fmap option_fmap option_map]; cbv beta iota zeta
    | |- gsim _ (if ?c then _ else _) _ =>
        destruct c; cbv beta iota zeta
    end ].
Ltac sim := cbv beta zeta; repeat sim_step.

Section GeneratorsSim.
Context (h0 : Heap) (b : bref) (Hclosed : closed h0 b).
Context (self : pref) (Hself : (self < length (pieces h0))%nat).

Lemma gsim_Pawn x y :
  gsim h0 (Pawn_possible_moves self x y b)
       (Pawn_dests (deref h0 self) (view h0 b) x y).
Proof.
  unfold Pawn_possible_moves, Pawn_dests. sim.
Qed.

Lemma gsim_in_direction x y dx dy :
  gsim h0 (_possible_moves_in_direction self x y dx dy b)
       (step_dests (deref h0 self) (view h0 b) x y dx dy).
Proof.
  unfold _possible_moves_in_direction, step_dests. sim.
Qed.

Lemma gsim_discrete vs x y :
  gsim h0 (PieceWithDiscreteMoves_possible_moves vs self x y b)
       (discrete_dests (deref h0 self) (view h0 b) vs x y).
Proof.
  unfold PieceWithDiscreteMoves_possible_moves, discrete_dests. sim.
  apply gsim_in_direction.
Qed.

Lemma gsim_slide fuel start x y dx dy :
  gsim h0 (slide fuel self start x y dx dy b)
       (slide_dests (deref h0 self) (view h0 b) fuel x y dx dy).
Proof.
  revert x y. induction fuel as [|fuel IH]; intros x y; cbn [slide slide_dests]; sim.
  apply IH.
Qed.

Lemma gsim_straight ds x y :
  gsim h0 (PieceWithStraightMoves_possible_moves ds self x y b)
       (straight_dests (deref h0 self) (view h0 b) ds x y).
Proof.
  unfold PieceWithStraightMoves_possible_moves, straight_dests. sim.
  apply gsim_slide.
Qed.

Lemma msim_all_none xs y :
  msim h0 (all_none b xs y) (all_none_v (view h0 b) xs y).
Proof.
  induction xs as [|xx xs IH]; cbn [all_none all_none_v].
  - apply msim_ret.
  - rewrite field_get_view.
    eapply msim_bind; [by apply msim_getitem|..].
    + intros c ->. destruct c; [apply msim_ret|apply IH].
    + by intros e ->.
Qed.

Lemma msim_castling_guard fig xs y :
  valid_cell h0 fig →
  msim h0 (castling_guard self fig b xs y)
       (castling_guard_v (deref h0 self) (view h0 b) (deref h0 <$> fig) xs y).
Proof.
  intros Hfig. unfold castling_guard, castling_guard_v.
  eapply msim_bind; [by apply msim_read| |done].
  intros me [= <-]. destruct (negb _); [|apply msim_ret].
  destruct fig as [r|]; cbn [fmap option_fmap option_map]; [|apply msim_ret].
  eapply msim_bind; [by apply msim_read| |done].
  intros f [= <-].
  destruct (bool_decide (cls _ = Rook)); [|apply msim_ret].
  destruct (bool_decide (player _ = player _)); [|apply msim_ret].
  apply msim_all_none.
Qed.

Lemma gsim_King x y :
  gsim h0 (King_possible_moves self x y b)
       (King_dests (deref h0 self) (view h0 b) x y).
Proof.
  unfold King_possible_moves, King_dests, castling_dests.
  apply gsim_seq; [apply gsim_discrete|].
  apply gsim_seq.
  - eapply gsim_getitem; [done|]. intros fig Hfig.
    apply gsim_bind; [by apply msim_castling_guard|].
    intros [|] _; destruct fig; cbn [fmap option_fmap option_map]; sim.
  - eapply gsim_getitem; [done|]. intros fig Hfig.
    apply gsim_bind; [by apply msim_castling_guard|].
    intros [|] _; destruct fig; cbn [fmap option_fmap option_map]; sim.
Qed.

Lemma gsim__possible_moves x y :
  gsim h0 (_possible_moves self x y b)
       (pseudo_dests (deref h0 self) (view h0 b) x y).
Proof.
  unfold _possible_moves, pseudo_dests.
  apply gsim_read; [done|].
  destruct (cls (deref h0 self));
    auto using gsim_Pawn, gsim_discrete, gsim_King, gsim_straight.
Qed.

Lemma msim_is_check_loop ms rest :
  msim h0 (is_check_loop self b ms rest)
       (attacks_king (deref h0 self) (view h0 b) (destination <$> ms) rest).
Proof.
  induction ms as [|m ms IH]; cbn [is_check_loop attacks_king fmap list_fmap].
  - destruct rest as [[]|e]; simpl.
    + eapply msim_bind; [apply msim_ret| |done]. intros _ _. apply msim_ret.
    + intros h Hh. done.
  - rewrite field_get_view.
    eapply msim_bind; [by apply msim_getitem|..].
    + intros c Hc. rewrite Hc. destruct c as [r|]; simpl; [|apply IH].
      assert (r < length (pieces h0))%nat as Hr.
      { destruct Hclosed as [_ Hf]. by eapply field_get_closed. }
      eapply msim_bind; [by apply msim_read| |done]. intros k [= <-].
      eapply msim_bind; [by apply msim_read| |done]. intros me [= <-].
      destruct (_ && _); [apply msim_ret|apply IH].
    + by intros e ->.
Qed.

Lemma msim_is_check x y :
  msim h0 (is_check self x y b) (gives_check (view h0 b) (deref h0 self) x y).
Proof.
  unfold is_check, gives_check.
  eapply msim_consume; [apply gsim__possible_moves|].
  intros ms <-. apply msim_is_check_loop.
Qed.
End GeneratorsSim.

Lemma enumerate_row_fmap {C D} (g : C → D) x y (row : list (option C)) :
  enumerate_row x y (map (fmap g) row) =
  map (λ e, (e.1, g e.2)) (enumerate_row x y row).
Proof.
  revert x. induction row as [|[c|] row IH]; intros x; simpl; [done|..].
  - by rewrite IH.
  - apply IH.
Qed.

Lemma enumerate_rows_fmap {C D} (g : C → D) y (f : list (list (option C))) :
  enumerate_rows y (map (map (fmap g)) f) =
  map (λ e, (e.1, g e.2)) (enumerate_rows y f).
Proof.
  revert y. induction f as [|row f IH]; intros y; simpl; [done|].
  by rewrite map_app, enumerate_row_fmap, IH.
Qed.

Lemma enumerate_cells_view h b :
  enumerate_cells (view h b) =
  map (λ e, (e.1, deref h e.2)) (enumerate_cells (field_of h b)).
Proof. apply enumerate_rows_fmap. Qed.

Lemma enumerate_row_valid h x y row :
  Forall (valid_cell h) row →
  Forall (λ e : Pos * pref, (e.2 < length (pieces h))%nat) (enumerate_row x y row).
Proof.
  intros Hrow. revert x.
  induction Hrow as [|[r|] row Hc Hrow IH]; intros x; simpl; auto.
Qed.

Lemma enumerate_cells_valid h f :
  closed_field h f →
  Forall (λ e : Pos * pref, (e.2 < length (pieces h))%nat) (enumerate_cells f).
Proof.
  unfold enumerate_cells. generalize 0%nat.
  intros y Hf. revert y.
  induction Hf as [|row f Hrow Hf IH]; intros y; simpl; [done|].
  apply Forall_app. split; [by apply enumerate_row_valid|apply IH].
Qed.

Lemma filter_map_comm {A B} (g : A → B) (P : B → bool) l :
  List.filter P (map g l) = map g (List.filter (λ a, P (g a)) l).
Proof.
  induction l as [|a l IH]; simpl; [done|].
  destruct (P (g a)); simpl; by rewrite IH.
Qed.

Section CheckSim.
Context (h0 : Heap) (b : bref) (Hclosed : closed h0 b).

Lemma msim_iter_pieces pl :
  msim h0 (iter_pieces b pl)
    (Ok (List.filter
           (λ e : Pos * pref,
              match pl with
              | None => true
              | Some p => bool_decide (player (deref h0 e.2) = p)
              end)
           (enumerate_cells (field_of h0 b)))).
Proof.
  intros h Hh. destruct Hclosed as [Hb Hf]. unfold iter_pieces. simpl.
  split; [|done]. f_equal.
  rewrite (extends_field_of h0 h) by done.
  pose proof (enumerate_cells_valid _ _ Hf) as Hv.
  induction Hv as [|e l He Hl IH]; simpl; [done|].
  rewrite (extends_deref h0 h) by done. by rewrite IH.
Qed.

Lemma msim_is_in_check_loop ps :
  Forall (λ e : Pos * pref, (e.2 < length (pieces h0))%nat) ps →
  msim h0 (is_in_check_loop b ps)
       (any_gives_check (view h0 b) (map (λ e, (e.1, deref h0 e.2)) ps)).
Proof.
  induction 1 as [|[pos p] ps Hp Hps IH]; simpl.
  - apply msim_ret.
  - eapply msim_bind; [by apply msim_is_check|..].
    + intros c ->. destruct c; [apply msim_ret|apply IH].
    + by intros e ->.
Qed.

Lemma msim_is_in_check pl :
  msim h0 (is_in_check b pl) (in_check (view h0 b) pl).
Proof.
  unfold is_in_check, in_check.
  eapply msim_bind; [apply msim_iter_pieces| |done].
  intros ps [= <-]. rewrite enumerate_cells_view, filter_map_comm. simpl.
  apply msim_is_in_check_loop.
  destruct Hclosed as [_ Hf].
  pose proof (enumerate_cells_valid _ _ Hf) as Hv.
  induction Hv as [|e l He Hl IH]; simpl; [done|].
  destruct (bool_decide _); auto.
Qed.
End CheckSim.

(** The outcome of [is_in_check] is determined by the position. *)
Lemma is_in_check_view h b pl :
  closed h b → (is_in_check b pl h).1 = in_check (view h b) pl.
Proof.
  intros Hc. by destruct (msim_is_in_check h b Hc pl h).
Qed.

(** ** What executing a move does to a board *)

Lemma setitem_put ps bs b f pos c :
  (b < length bs)%nat →
  setitem b pos c (mkHeap ps (<[b := f]> bs)) =
  match field_set f pos c with
  | Ok f' => (Ok tt, mkHeap ps (<[b := f']> bs))
  | Raise e => (Raise e, mkHeap ps (<[b := f]> bs))
  end.
Proof.
  intros Hb. unfold setitem, bind, get_field, field_of. simpl.
  rewrite list_lookup_total_insert_eq by done.
  destruct (field_set f pos c); simpl; [|done].
  unfold set_field. simpl. by rewrite list_insert_insert_eq.
Qed.

Lemma execute_put ps bs b f m :
  (b < length bs)%nat →
  match exec_cells id m f with
  | Ok f' =>
      execute m b (mkHeap ps (<[b := f]> bs)) =
      (Ok tt, mkHeap (mark_written m ps) (<[b := f']> bs))
  | Raise e => (execute m b (mkHeap ps (<[b := f]> bs))).1 = Raise e
  end.
Proof.
  intros Hb. unfold exec_cells, rbind.
  destruct m as [p s d|p s d q|p s d rk rs rd]; simpl;
    unfold Move_execute, bind; simpl;
    rewrite setitem_put by done;
    (destruct (field_set f d _) as [f1|e]; [|done]);
    rewrite setitem_put by done;
    (destruct (field_set f1 s _) as [f2|e]; [|done]); simpl.
  - done.
  - unfold mark, deref; simpl. rewrite setitem_put by done.
    by destruct (field_set f2 d _) as [f3|e].
  - unfold mark, deref; simpl. rewrite setitem_put by done.
    destruct (field_set f2 rd _) as [f3|e]; [|done].
    rewrite setitem_put by done.
    by destruct (field_set f3 rs _) as [f4|e].
Qed.

Lemma execute_spec h b m :
  (b < length (boards h))%nat →
  match exec_cells id m (field_of h b) with
  | Ok f' =>
      execute m b h =
      (Ok tt, mkHeap (mark_written m (pieces h)) (<[b := f']> (boards h)))
  | Raise e => (execute m b h).1 = Raise e
  end.
Proof.
  intros Hb. destruct h as [ps bs]. simpl in *.
  pose proof (execute_put ps bs b (bs !!! b) m Hb) as H.
  rewrite (list_insert_id bs b) in H; [done|].
  by apply list_lookup_lookup_total_lt.
Qed.

Lemma field_set_fmap {C D} (G : C → D) (f : list (list C)) pos c :
  field_set (map (map G) f) pos (G c) =
  match field_set f pos c with
  | Ok f' => Ok (map (map G) f')
  | Raise e => Raise e
  end.
Proof.
  unfold field_set. rewrite length_map.
  destruct (py_index (length f) pos.2) as [j|]; [|done].
  change (map (map G) f) with (fmap (M := list) (map G) f).
  rewrite list_lookup_fmap. destruct (f !! j) as [row|]; simpl; [|done].
  rewrite length_map.
  destruct (py_index (length row) pos.1) as [i|]; [|done].
  f_equal. rewrite list_fmap_insert. f_equal.
  change (map G row) with (fmap (M := list) G row).
  by rewrite list_fmap_insert.
Qed.

Lemma exec_cells_fmap {C} (g : pref → C) m (f : Field) :
  exec_cells g m (map (map (fmap g)) f) =
  match exec_cells id m f with
  | Ok f' => Ok (map (map (fmap g)) f')
  | Raise e => Raise e
  end.
Proof.
  unfold exec_cells, rbind.
  change (Some (g (piece m))) with (fmap (M := option) g (Some (id (piece m)))).
  rewrite field_set_fmap. destruct (field_set f _ _) as [f1|e]; [|done].
  change (@None C) with (fmap (M := option) g None).
  rewrite field_set_fmap. destruct (field_set f1 _ _) as [f2|e]; [|done].
  destruct m as [p s d|p s d q|p s d rk rs rd]; [done|..].
  - change (Some (g q)) with (fmap (M := option) g (Some (id q))).
    by rewrite field_set_fmap.
  - change (Some (g rk)) with (fmap (M := option) g (Some (id rk))).
    rewrite field_set_fmap. destruct (field_set f2 _ _) as [f3|e]; [|done].
    by rewrite field_set_fmap.
Qed.

Lemma exec_cells_ext {C} (g g' : pref → C) m f :
  Forall (λ r, g r = g' r) (refs m) → exec_cells g m f = exec_cells g' m f.
Proof.
  intros Hg. unfold exec_cells.
  destruct m as [p s d|p s d q|p s d rk rs rd]; simpl in *;
    repeat match goal with
           | H : Forall _ (_ :: _) |- _ => inversion H; clear H; subst
           end;
    by repeat match goal with H : g _ = g' _ |- _ => rewrite H; clear H end.
Qed.

Lemma field_set_closed h f pos c f' :
  closed_field h f → valid_cell h c → field_set f pos c = Ok f' →
  closed_field h f'.
Proof.
  intros Hf Hc. unfold field_set. intros Hs.
  repeat case_match; simplify_eq.
  apply Forall_insert; [done|]. apply Forall_insert; [|done].
  by eapply Forall_lookup_1.
Qed.

Lemma exec_cells_closed h m f f' :
  closed_field h f → Forall (λ r, (r < length (pieces h))%nat) (refs m) →
  exec_cells id m f = Ok f' → closed_field h f'.
Proof.
  intros Hf Hr. unfold exec_cells, rbind. intros He.
  destruct (field_set f _ _) as [f1|] eqn:E1; [|done].
  destruct (field_set f1 _ _) as [f2|] eqn:E2; [|done].
  assert (closed_field h f2) as Hf2.
  { apply (field_set_closed h f1 (start_position m) None); [|done|exact E2].
    apply (field_set_closed h f (destination m) (Some (piece m)));
      [done| |exact E1].
    destruct m; by inversion Hr. }
  destruct m as [p s d|p s d q|p s d rk rs rd]; simpl in *.
  - by simplify_eq.
  - apply (field_set_closed h f2 d (Some q)); [done| |exact He].
    inversion Hr as [|? ? ? Hr']; by inversion Hr'.
  - destruct (field_set f2 _ _) as [f3|] eqn:E3; [|done].
    apply (field_set_closed h f3 rs None); [|done|exact He].
    apply (field_set_closed h f2 rd (Some rk)); [done| |exact E3].
    inversion Hr as [|? ? ? Hr']; by inversion Hr'.
Qed.

Lemma mark_length r ps : length (mark r ps) = length ps.
Proof. apply length_insert. Qed.

Lemma mark_written_length m ps : length (mark_written m ps) = length ps.
Proof. destruct m; simpl; by rewrite ?mark_length. Qed.

Lemma mark_other r r' ps : r ≠ r' → mark r ps !!! r' = ps !!! r'.
Proof. intros. unfold mark. by rewrite list_lookup_total_insert_ne. Qed.

Lemma mark_written_other m ps r :
  r ∉ written m → mark_written m ps !!! r = ps !!! r.
Proof.
  destruct m as [p s d|p s d q|p s d rk rs rd]; simpl; intros Hr;
    rewrite ?mark_other; set_solver.
Qed.

Lemma mark_id r ps :
  (r < length ps)%nat → is_moved (ps !!! r) = true → mark r ps = ps.
Proof.
  intros Hr Hm. unfold mark. apply list_insert_id.
  rewrite list_lookup_lookup_total_lt by done. f_equal.
  destruct (ps !!! r); simpl in *. by subst.
Qed.

Lemma mark_written_id m ps :
  Forall (λ r, (r < length ps)%nat ∧ is_moved (ps !!! r) = true) (written m) →
  mark_written m ps = ps.
Proof.
  destruct m as [p s d|p s d q|p s d rk rs rd]; simpl; intros Hw;
    repeat match goal with
           | H : Forall _ (_ :: _) |- _ => inversion H; clear H; subst
           | H : _ ∧ _ |- _ => destruct H
           end;
    by repeat match goal with
              | |- context [mark ?r ps] => rewrite (mark_id r ps) by done
              end.
Qed.

Lemma mark_moved r r' ps :
  (r' < length ps)%nat →
  r = r' ∨ is_moved (ps !!! r') = true → is_moved (mark r ps !!! r') = true.
Proof.
  intros Hr H. unfold mark. destruct (decide (r = r')) as [->|Hne].
  - by rewrite list_lookup_total_insert_eq.
  - rewrite list_lookup_total_insert_ne by done. by destruct H.
Qed.

Lemma mark_written_moved m ps :
  Forall (λ r, (r < length ps)%nat) (written m) →
  Forall (λ r, is_moved (mark_written m ps !!! r) = true) (written m).
Proof.
  destruct m as [p s d|p s d q|p s d rk rs rd]; simpl; intros Hw;
    repeat match goal with
           | H : Forall _ (_ :: _) |- _ => inversion H; clear H; subst
           end;
    repeat constructor;
    repeat (apply mark_moved; rewrite ?mark_length; [done|]); auto.
  - destruct (decide (rk = p)); [by left|right].
    apply mark_moved; auto.
Qed.

(** ** Deep copies *)

Lemma deref_snoc h p :
  deref (mkHeap (pieces h ++ [p]) (boards h)) (length (pieces h)) = p.
Proof.
  unfold deref. simpl. apply list_lookup_total_correct.
  rewrite lookup_app_r by done. by rewrite Nat.sub_diag.
Qed.

Lemma extends_snoc h p : h ⊑ mkHeap (pieces h ++ [p]) (boards h).
Proof. split; simpl; [by apply prefix_app_r|done]. Qed.

Lemma copy_row_spec h row :
  Forall (valid_cell h) row →
  ∃ row' h',
    copy_row row h = (Ok row', h') ∧ h ⊑ h' ∧ boards h' = boards h ∧
    Forall (valid_cell h') row' ∧
    map (fmap (deref h')) row' = map (fmap (deref h)) row.
Proof.
  intros Hrow. revert h Hrow.
  induction row as [|[p|] row IH]; intros h Hrow; simpl.
  - by exists [], h.
  - inversion Hrow as [|? ? Hp Hrow']; subst. simpl in Hp.
    unfold bind, read, new_piece. simpl.
    set (h1 := mkHeap _ _).
    assert (h ⊑ h1) as H1 by apply extends_snoc.
    destruct (IH h1) as (row' & h2 & E & H2 & Hb & Hv & Hm).
    { eapply Forall_impl; [exact Hrow'|]. intros [r|]; simpl; [|done].
      rewrite length_app. lia. }
    rewrite E. simpl. exists (Some (length (pieces h)) :: row'), h2.
    pose proof (extends_pieces_length _ _ H2) as Hl. simpl in Hl.
    rewrite length_app in Hl. simpl in Hl.
    split; [done|]. split; [by etrans|]. split; [done|].
    split; [constructor; [simpl; lia|done]|].
    simpl. f_equal.
    + f_equal. rewrite (extends_deref h1 h2 _ H2) by (simpl; rewrite ?length_app; simpl; lia).
      unfold h1. rewrite deref_snoc. by destruct (deref h p).
    + rewrite Hm. apply map_ext_Forall.
      eapply Forall_impl; [exact Hrow'|]. intros [r|] Hr; simpl; [|done].
      f_equal. by eapply extends_deref.
  - inversion Hrow as [|? ? Hp Hrow']; subst.
    unfold bind. destruct (IH h Hrow') as (row' & h2 & E & H2 & Hb & Hv & Hm).
    rewrite E. simpl. exists (None :: row'), h2.
    split; [done|]. split; [done|]. split; [done|].
    split; [by constructor|]. simpl. by rewrite Hm.
Qed.

Lemma copy_rows_spec h f :
  closed_field h f →
  ∃ f' h',
    copy_rows f h = (Ok f', h') ∧ h ⊑ h' ∧ boards h' = boards h ∧
    closed_field h' f' ∧
    map (map (fmap (deref h'))) f' = map (map (fmap (deref h))) f.
Proof.
  intros Hf. revert h Hf.
  induction f as [|row f IH]; intros h Hf; simpl.
  - by exists [], h.
  - inversion Hf as [|? ? Hrow Hf']; subst.
    destruct (copy_row_spec h row Hrow) as (row' & h1 & E1 & H1 & Hb1 & Hv1 & Hm1).
    destruct (IH h1) as (f' & h2 & E2 & H2 & Hb2 & Hv2 & Hm2).
    { by eapply closed_field_extends. }
    unfold bind. rewrite E1, E2. simpl. exists (row' :: f'), h2.
    split; [done|]. split; [by etrans|]. split; [congruence|].
    split.
    + constructor; [|done].
      pose proof (extends_pieces_length _ _ H2).
      eapply Forall_impl; [exact Hv1|]. intros [r|]; simpl; [lia|done].
    + simpl. f_equal.
      * rewrite <- Hm1. apply map_ext_Forall.
        eapply Forall_impl; [exact Hv1|]. intros [r|] Hr; simpl; [|done].
        f_equal. by eapply extends_deref.
      * rewrite Hm2. apply map_ext_Forall.
        eapply Forall_impl; [exact Hf'|]. intros r Hr.
        apply map_ext_Forall.
        eapply Forall_impl; [exact Hr|]. intros [c|] Hc; simpl; [|done].
        f_equal. by eapply extends_deref.
Qed.

(** The copy of a board is a new board that looks the same. *)
Lemma deepcopy_board_spec h b :
  closed h b →
  ∃ h', deepcopy_board b h = (Ok (length (boards h)), h') ∧ h ⊑ h' ∧
        closed h' (length (boards h)) ∧
        view h' (length (boards h)) = view h b.
Proof.
  intros [Hb Hf]. unfold deepcopy_board, bind, new_board, get_field. simpl.
  set (h1 := mkHeap _ _).
  assert (h ⊑ h1) as H1 by (split; simpl; [done|by apply prefix_app_r]).
  rewrite (extends_field_of h h1) by done.
  destruct (copy_rows_spec h1 (field_of h b)) as (f' & h2 & E & H2 & Hb2 & Hv & Hm).
  { by eapply closed_field_extends. }
  rewrite E. simpl. unfold set_field. simpl.
  eexists. split; [done|].
  match goal with
  | |- context [mkHeap _ ?bs] =>
      assert (bs = boards h ++ [f']) as ->
  end.
  { rewrite Hb2. simpl.
    rewrite insert_app_r_alt by done. by rewrite Nat.sub_diag. }
  assert (field_of (mkHeap (pieces h2) (boards h ++ [f'])) (length (boards h)) = f')
    as Hfo.
  { unfold field_of. simpl. apply list_lookup_total_correct.
    rewrite lookup_app_r by done. by rewrite Nat.sub_diag. }
  split; [|split].
  - split; simpl; [|by apply prefix_app_r].
    destruct H1 as [? _], H2 as [? _]. by etrans.
  - split; simpl; [rewrite length_app; simpl; lia|]. by rewrite Hfo.
  - unfold view. rewrite Hfo. exact Hm.
Qed.

(** The copy of a move refers only to pieces allocated by the copy. *)
Lemma deepcopy_move_spec h m :
  ∃ m' h', deepcopy_move m h = (Ok m', h') ∧ h ⊑ h' ∧
           boards h' = boards h ∧
           Forall (λ r, (length (pieces h) ≤ r < length (pieces h'))%nat) (refs m').
Proof.
  destruct m as [p s d|p s d q|p s d rk rs rd];
    unfold deepcopy_move, deepcopy_piece, bind, read, new_piece, ret; simpl.
  - eexists _, _. split; [done|]. split; [apply extends_snoc|]. split; [done|].
    repeat constructor; simpl; rewrite ?length_app; simpl; lia.
  - destruct (decide (q = p)); simpl; eexists _, _; (split; [done|]).
    + split; [apply extends_snoc|]. split; [done|].
      repeat constructor; simpl; rewrite ?length_app; simpl; lia.
    + split; [etrans; [apply extends_snoc|apply (extends_snoc (mkHeap _ _))]|].
      split; [done|].
      repeat constructor; simpl; rewrite ?length_app; simpl; lia.
  - destruct (decide (rk = p)); simpl; eexists _, _; (split; [done|]).
    + split; [apply extends_snoc|]. split; [done|].
      repeat constructor; simpl; rewrite ?length_app; simpl; lia.
    + split; [etrans; [apply extends_snoc|apply (extends_snoc (mkHeap _ _))]|].
      split; [done|].
      repeat constructor; simpl; rewrite ?length_app; simpl; lia.
Qed.

(** ** Soundness of the legality filter *)

Lemma written_refs m r : r ∈ written m → r ∈ refs m.
Proof. destruct m; simpl; rewrite !elem_of_cons; tauto. Qed.

Section Soundness.
Context (h : Heap) (b : bref) (Hclosed : closed h b).
Context (self : pref) (Hself : (self < length (pieces h))%nat).

Lemma tested_extends m h1 h2 : h1 ⊑ h2 → tested h b self m h1 → tested h b self m h2.
Proof.
  intros H12 (Hr & Hw & v' & Hv & Hc).
  pose proof (extends_pieces_length _ _ H12) as Hl.
  assert (Forall (λ r, deref h2 r = deref h1 r) (refs m)) as Hd.
  { eapply Forall_impl; [exact Hr|]. intros r [_ ?]. by apply extends_deref. }
  split; [|split].
  - eapply Forall_impl; [exact Hr|]. intros r ?. simpl in *. lia.
  - apply Forall_forall. intros r Hin.
    rewrite (proj1 (Forall_forall _ _) Hd r) by by apply written_refs.
    by apply (proj1 (Forall_forall _ _) Hw).
  - exists v'. split; [|done]. rewrite <- Hv. by apply exec_cells_ext.
Qed.

(** Such a move can be executed on [b] itself, and leaves the mover
    out of check there too. *)
Lemma tested_execute m h' :
  h ⊑ h' → tested h b self m h' →
  ∃ h2 h3, execute m b h' = (Ok tt, h2) ∧
           is_in_check b (player (deref h self)) h2 = (Ok false, h3).
Proof.
  intros Hh (Hr & Hw & v' & Hv & Hc).
  pose proof (closed_extends _ _ _ Hh Hclosed) as [Hb' Hf'].
  rewrite <- (view_extends h h' b Hh Hclosed) in Hv.
  unfold view in Hv. rewrite exec_cells_fmap in Hv.
  pose proof (execute_spec h' b m Hb') as He.
  destruct (exec_cells id m (field_of h' b)) as [f'|e] eqn:Ef; [|done].
  injection Hv as <-.
  rewrite mark_written_id in He.
  2:{ apply Forall_forall. intros r Hin. split.
      - apply written_refs in Hin.
        by destruct (proj1 (Forall_forall _ _) Hr r Hin).
      - by apply (proj1 (Forall_forall _ _) Hw). }
  set (h2 := mkHeap (pieces h') (<[b := f']> (boards h'))) in *.
  assert (field_of h2 b = f') as Hfo.
  { unfold field_of, h2. simpl. by apply list_lookup_total_insert_eq. }
  assert (closed h2 b) as Hc2.
  { split; [unfold h2; simpl; by rewrite length_insert|].
    rewrite Hfo. apply (exec_cells_closed h' m (field_of h' b)); [done| |done].
    eapply Forall_impl; [exact Hr|]. intros r [_ ?]. done. }
  pose proof (is_in_check_view h2 b (player (deref h self)) Hc2) as Hv2.
  unfold view in Hv2. rewrite Hfo in Hv2.
  change (deref h2) with (deref h') in Hv2. rewrite Hc in Hv2.
  destruct (is_in_check b _ h2) as [r h3] eqn:E. simpl in Hv2. subst r.
  by exists h2, h3.
Qed.

Lemma try_move_tested m hi :
  h ⊑ hi →
  hi ⊑ (try_move self b m hi).2 ∧
  Forall (λ m', tested h b self m' (try_move self b m hi).2) (try_move self b m hi).1.1.
Proof.
  intros Hi. split; [by apply gsafe_try_move|].
  unfold try_move, gbind.
  destruct (deepcopy_board_spec hi b) as (hb & Eb & Hib & Hcb & Hvb).
  { by eapply closed_extends. }
  rewrite Eb. set (nb := length (boards hi)) in *.
  destruct (deepcopy_move_spec hb m) as (m' & hc & Ec & Hbc & Hbds & Hrefs).
  rewrite Ec.
  assert (nb < length (boards hc))%nat as Hnb.
  { rewrite Hbds. by destruct Hcb. }
  pose proof (execute_spec hc nb m' Hnb) as He.
  destruct (exec_cells id m' (field_of hc nb)) as [f'|e] eqn:Ef.
  2:{ destruct (execute m' nb hc) as [[[]|e'] he]; simpl in *; [done|].
      constructor. }
  rewrite He. clear He.
  set (he := mkHeap (mark_written m' (pieces hc)) (<[nb := f']> (boards hc))).
  assert (h ⊑ hb) as Hhb by by etrans.
  pose proof (extends_pieces_length _ _ Hhb) as Hl1.
  pose proof (extends_pieces_length _ _ Hbc) as Hl2.
  assert (∀ r, (r < length (pieces hb))%nat → deref he r = deref hc r) as Hold.
  { intros r Hr. unfold deref, he. simpl. apply mark_written_other.
    intros Hin%written_refs.
    destruct (proj1 (Forall_forall _ _) Hrefs r Hin). lia. }
  unfold read. simpl.
  assert (deref he self = deref h self) as ->.
  { rewrite Hold by lia. apply extends_deref; [by etrans|done]. }
  assert (field_of he nb = f') as Hfo.
  { unfold field_of, he. simpl. by apply list_lookup_total_insert_eq. }
  assert (closed hc nb) as Hcc by by eapply closed_extends.
  assert (closed he nb) as Hce.
  { split; [unfold he; simpl; by rewrite length_insert|].
    rewrite Hfo. destruct Hcc as [_ Hcc].
    assert (closed_field hc f') as Hf'.
    { apply (exec_cells_closed hc m' (field_of hc nb)); [done| |done].
      eapply Forall_impl; [exact Hrefs|]. intros r [_ ?]. done. }
    eapply Forall_impl; [exact Hf'|]. intros row Hrow.
    eapply Forall_impl; [exact Hrow|]. intros [r|]; simpl; [|done].
    by rewrite mark_written_length. }
  pose proof (is_in_check_view he nb (player (deref h self)) Hce) as Hv.
  pose proof (safe_is_in_check nb (player (deref h self)) he he) as [Hs _];
    [done|].
  destruct (is_in_check nb _ he) as [[c|e] h1]; simpl in *; [|constructor].
  destruct c; simpl; [constructor|]. constructor; [|constructor].
  apply (tested_extends m' he h1); [done|]. split; [|split].
  - eapply Forall_impl; [exact Hrefs|]. intros r [? ?].
    unfold he. simpl. rewrite mark_written_length. lia.
  - apply mark_written_moved.
    apply Forall_forall. intros r Hin%written_refs.
    by destruct (proj1 (Forall_forall _ _) Hrefs r Hin).
  - exists (view he nb). split; [|done].
    unfold view at 2. rewrite Hfo.
    assert (view h b = map (map (fmap (deref he))) (field_of hc nb)) as ->.
    { rewrite <- (view_extends h hi b) by done. rewrite <- Hvb.
      rewrite <- (view_extends hb hc nb) by done. unfold view.
      destruct Hcb as [Hcb1 Hcb2].
      rewrite (extends_field_of hb hc) by done.
      apply map_ext_Forall. eapply Forall_impl; [exact Hcb2|]. intros row Hrow.
      apply map_ext_Forall. eapply Forall_impl; [exact Hrow|].
      intros [r|] Hr; simpl; [|done]. f_equal. symmetry. by apply Hold. }
    rewrite exec_cells_fmap. by rewrite Ef.
Qed.

Lemma gfor_try_move_tested ms hi :
  h ⊑ hi →
  hi ⊑ (gfor ms (try_move self b) hi).2 ∧
  Forall (λ m', tested h b self m' (gfor ms (try_move self b) hi).2)
         (gfor ms (try_move self b) hi).1.1.
Proof.
  revert hi. induction ms as [|m ms IH]; intros hi Hi; simpl.
  - done.
  - unfold gseq. destruct (try_move_tested m hi Hi) as [H1 H2].
    destruct (try_move self b m hi) as [[ys [[]|e]] h1]; simpl in *; [|done].
    destruct (IH h1) as [H3 H4]; [by etrans|].
    destruct (gfor ms (try_move self b) h1) as [[ys' r'] h2]; simpl in *.
    split; [by etrans|]. apply Forall_app. split; [|done].
    eapply Forall_impl; [exact H2|]. intros m'. by apply tested_extends.
Qed.
End Soundness.

(** C1. Every move that the legality filter [possible_moves] yields for the
    piece at square (x, y) of a board can be executed on that board, and
    in the position it produces the mover is not in check. *)
Theorem possible_moves_sound h b self x y moves rest h1 move :
  closed h b →
  field_get (field_of h b) (x, y) = Ok (Some self) →
  possible_moves self x y b h = (moves, rest, h1) →
  move ∈ moves →
  ∃ h2 h3,
    execute move b h1 = (Ok tt, h2) ∧
    is_in_check b (player (deref h self)) h2 = (Ok false, h3).
Proof.
  intros Hc Hself Hp Hin.
  assert (self < length (pieces h))%nat as Hs.
  { destruct Hc as [_ Hf]. by eapply field_get_closed. }
  unfold possible_moves in Hp.
  pose proof (gsafe__possible_moves self x y b h h) as [H1 _]; [done|].
  destruct (_possible_moves self x y b h) as [[ms r] hp]; simpl in *.
  unfold gseq in Hp.
  destruct (gfor_try_move_tested h b Hc self Hs ms hp H1) as [H2 H3].
  destruct (gfor ms (try_move self b) hp) as [[ys [[]|e]] hf]; simpl in *;
    simplify_eq.
  - rewrite app_nil_r in Hin.
    apply (tested_execute h b Hc self); [by etrans|].
    by apply (proj1 (Forall_forall _ _) H3).
  - apply (tested_execute h b Hc self); [by etrans|].
    by apply (proj1 (Forall_forall _ _) H3).
Qed.

(** ** The legality filter leaves its input alone *)

(** C9. Enumerating [possible_moves] to its end leaves every object of
    the store as it was; on the input board every square holds the same
    piece object as before, with the same attributes. *)
Theorem possible_moves_leaves_board h b self x y :
  closed h b →
  h ⊑ (possible_moves self x y b h).2 ∧
  field_of (possible_moves self x y b h).2 b = field_of h b ∧
  view (possible_moves self x y b h).2 b = view h b.
Proof.
  intros Hc.
  destruct (gsafe_possible_moves self x y b h h) as [Hh _]; [done|].
  split; [done|]. split.
  - apply extends_field_of; [done|by destruct Hc].
  - by apply view_extends.
Qed.

(** ** Exceptions other than IndexError *)

Lemma roi_safe {A} (m : M A) : safe m → raises_only_index m.
Proof. intros Hm h. by destruct (Hm h h). Qed.

Lemma roi_bind {A B} (m : M A) (f : A → M B) :
  raises_only_index m → (∀ a, raises_only_index (f a)) →
  raises_only_index (bind m f).
Proof.
  intros Hm Hf h. unfold bind. specialize (Hm h).
  destruct (m h) as [[a|e] h1]; simpl in *.
  - apply Hf.
  - intros e' [= <-]. by apply Hm.
Qed.

Lemma roi_setitem b pos c : raises_only_index (setitem b pos c).
Proof.
  intros h. unfold setitem, bind, get_field. simpl.
  destruct (field_set _ _ _) eqn:E; simpl; [by intros ?|].
  intros e' [= <-]. by eapply field_set_only_index.
Qed.

Lemma roi_set_is_moved r : raises_only_index (set_is_moved r).
Proof. by intros h e. Qed.

Lemma roi_execute m b : raises_only_index (execute m b).
Proof.
  assert (raises_only_index (Move_execute m b)) as Hm.
  { unfold Move_execute.
    repeat (apply roi_bind; [|intros _]);
      auto using roi_setitem, roi_set_is_moved. }
  destruct m; simpl; [done|..];
    repeat (apply roi_bind; [|intros _]);
    auto using roi_setitem, roi_set_is_moved.
Qed.

Lemma safe_sort_moves b ms acc : safe (sort_moves b ms acc).
Proof.
  intros h0. revert acc. induction ms as [|m ms IH]; intros acc; simpl; frame.
Qed.
#[global] Hint Resolve safe_sort_moves : frame.

Lemma safe__order_moves_loop b ps acc : safe (_order_moves_loop b ps acc).
Proof.
  intros h0. revert acc.
  induction ps as [|[pos p] ps IH]; intros acc; simpl; frame.
Qed.
#[global] Hint Resolve safe__order_moves_loop : frame.

Lemma safe__order_moves b pl : safe (_order_moves b pl).
Proof. intros h0. unfold _order_moves. frame. Qed.
#[global] Hint Resolve safe__order_moves : frame.

Lemma safe__evaluate_board gb sp b : safe (_evaluate_board gb sp b).
Proof. intros h0. unfold _evaluate_board. frame. Qed.
#[global] Hint Resolve safe__evaluate_board : frame.

Lemma roi__search gb sp depth b pl alpha beta :
  raises_only_index (_search gb sp depth b pl alpha beta).
Proof.
  revert b pl alpha beta.
  induction depth as [|d IH]; intros b pl alpha beta; simpl.
  - apply roi_safe, safe__evaluate_board.
  - apply roi_bind; [apply roi_safe, safe__order_moves|]. intros ms.
    revert alpha. induction ms as [|m ms IHms]; intros alpha.
    + by intros h e.
    + apply roi_bind; [apply roi_safe, safe_deepcopy_board|]. intros bc.
      apply roi_bind; [apply roi_execute|]. intros _.
      apply roi_bind; [apply IH|]. intros s. simpl.
      destruct (score_ge _ _); [by intros h e|apply IHms].
Qed.

Lemma iter_loop_only_index gb sp py_id py_hash d b pl ms alpha beta table h :
  only_index (iter_loop gb sp py_id py_hash d b pl ms alpha beta table h).1.1.2.
Proof.
  revert alpha table h. induction ms as [|m ms IH]; intros alpha table h; simpl.
  - done.
  - unfold bind, _hash_board, ret.
    pose proof (roi_safe _ (safe_deepcopy_board b) h) as H1.
    destruct (deepcopy_board b h) as [[bc|e] h1]; simpl in *;
      [|intros e' [= <-]; by apply H1].
    pose proof (roi_execute m bc h1) as H2.
    destruct (execute m bc h1) as [[[]|e] h2]; simpl in *;
      [|intros e' [= <-]; by apply H2].
    destruct (table !! _) as [score|].
    + destruct (score_ge _ _); simpl; [done|].
      specialize (IH (score_max alpha score) table h2).
      by destruct (iter_loop _ _ _ _ _ _ _ _ _ _ _ _) as [[[ys r] t] h3].
    + pose proof (roi__search gb sp d bc (opponent pl)
                    (score_neg beta) (score_neg alpha) h2) as H3.
      destruct (_search _ _ _ _ _ _ _ _) as [[s|e] h3]; simpl in *;
        [|intros e' [= <-]; by apply H3].
      destruct (score_ge _ _); simpl; [done|].
      match goal with
      | |- context [iter_loop ?a ?b ?c ?d ?e ?f ?g ?h ?i ?j ?k ?l] =>
          specialize (IH i k l);
          by destruct (iter_loop a b c d e f g h i j k l) as [[[ys r] t] h4]
      end.
Qed.

Lemma get_best_move_only_index gb sp py_id py_hash depth table h :
  only_index (get_best_move gb sp py_id py_hash depth table h).1.1.
Proof.
  unfold get_best_move, _iter_possible_moves_in_depth.
  destruct depth as [|d].
  - pose proof (roi_safe _ (safe__evaluate_board gb sp gb) h) as H1.
    destruct (_evaluate_board gb sp gb h) as [[s|e] h1]; simpl in *; [done|].
    intros e' [= <-]. by apply H1.
  - pose proof (roi_safe _ (safe__order_moves gb sp) h) as H1.
    destruct (_order_moves gb sp h) as [[ms|e] h1]; simpl in *;
      [|intros e' [= <-]; by apply H1].
    pose proof (iter_loop_only_index gb sp py_id py_hash d gb sp ms
                  NegInf PosInf table h1) as H2.
    destruct (iter_loop _ _ _ _ _ _ _ _ _ _ _ _) as [[[ys [[]|e]] t] h2];
      simpl in *; [done|].
    intros e' [= <-]. by apply H2.
Qed.

(** ** The game orchestrator *)

Section MovePiece.
Context (py_id : bref → N) (py_hash : string → Z).

(** C10. When [move_piece] raises one of its three errors (they are the
    [ValueError]s of the sources), the game object is unchanged, so
    [current_player] is, and every object of the store is unchanged: the
    board holds the same pieces with the same attributes. *)
Theorem move_piece_error_atomic start_pos end_pos g h msg g' h' :
  closed h (board g) →
  move_piece py_id py_hash start_pos end_pos g h = (Raise (ValueError msg), g', h') →
  g' = g ∧ h ⊑ h' ∧
  field_of h' (board g) = field_of h (board g) ∧
  view h' (board g) = view h (board g).
Proof.
  intros Hc Hm.
  assert (g' = g ∧ h ⊑ h') as [-> Hh].
  2:{ split; [done|]. split; [done|]. split.
      - apply extends_field_of; [done|by destruct Hc].
      - by apply view_extends. }
  unfold move_piece, gm_bind, gm_self, gm_lift, gm_raise, gm_ret in Hm.
  simpl in Hm.
  pose proof (framed_getitem h (board g) start_pos h) as [_ Hg]; [done|].
  assert ((getitem (board g) start_pos h).2 = h) as Hh1.
  { unfold getitem, bind, get_field. simpl. by destruct (field_get _ _). }
  destruct (getitem (board g) start_pos h) as [[[piece|]|e] h1];
    simpl in *; subst h1.
  3:{ injection Hm as Hm _ _. specialize (Hg _ eq_refl). congruence. }
  2:{ by simplify_eq. }
  destruct (decide (player (deref h piece) ≠ current_player g)) as [Hp|Hp].
  { by simplify_eq. }
  unfold consume in Hm.
  pose proof (gsafe_possible_moves piece start_pos.1 start_pos.2 (board g) h h)
    as [Hh Hr]; [done|].
  destruct (possible_moves piece start_pos.1 start_pos.2 (board g) h)
    as [[ms rest] h1]; simpl in *.
  destruct (List.find _ ms) as [move|].
  2:{ destruct rest as [[]|e]; simpl in Hm.
      - by simplify_eq.
      - injection Hm as Hm _ _. specialize (Hr _ eq_refl). congruence. }
  simpl in Hm.
  pose proof (roi_execute move (board g) h1) as He.
  destruct (execute move (board g) h1) as [[[]|e] h2]; simpl in *.
  2:{ injection Hm as Hm _ _. specialize (He _ eq_refl). congruence. }
  pose proof (roi_safe _ (safe_check_winner (board g)) h2) as Hw.
  destruct (check_winner (board g) h2) as [[[r|]|e] h3]; simpl in *.
  3:{ injection Hm as Hm _ _. specialize (Hw _ eq_refl). congruence. }
  1:{ done. }
  destruct (ai g) as [a|]; [|done].
  unfold ai_get_best_move in Hm. simpl in Hm.
  pose proof (get_best_move_only_index (board g) (ai_player a) py_id py_hash 2
                (transposition_table a) h3) as Hb.
  destruct (get_best_move _ _ _ _ _ _ _) as [[[[bm|]|e] t] h4]; simpl in *.
  3:{ injection Hm as Hm _ _. specialize (Hb _ eq_refl). congruence. }
  2:{ done. }
  pose proof (roi_execute bm (board g) h4) as He2.
  destruct (execute bm (board g) h4) as [[[]|e] h5]; simpl in *.
  2:{ injection Hm as Hm _ _. specialize (He2 _ eq_refl). congruence. }
  pose proof (roi_safe _ (safe_check_winner (board g)) h5) as Hw2.
  destruct (check_winner (board g) h5) as [[[r|]|e] h6]; simpl in *.
  3:{ injection Hm as Hm _ _. specialize (Hw2 _ eq_refl). congruence. }
  all: done.
Qed.

(** C7. When the move matched for the current player is executed and
    [check_winner] is then non-empty, [move_piece] returns that result
    with the game object as it was ([current_player] not advanced, the
    transposition table untouched) and the store as [check_winner] left
    it: the AI has not been run. *)
Theorem move_piece_terminal start_pos end_pos g h piece moves rest h1 move h2 r h3 :
  getitem (board g) start_pos h = (Ok (Some piece), h) →
  player (deref h piece) = current_player g →
  possible_moves piece start_pos.1 start_pos.2 (board g) h = (moves, rest, h1) →
  List.find (λ m, bool_decide (destination m = end_pos)) moves = Some move →
  execute move (board g) h1 = (Ok tt, h2) →
  check_winner (board g) h2 = (Ok (Some r), h3) →
  move_piece py_id py_hash start_pos end_pos g h = (Ok (Some r), g, h3).
Proof.
  intros Hg Hp Hm Hf He Hw.
  unfold move_piece, gm_bind, gm_self, gm_lift, gm_raise, gm_ret, consume.
  simpl. rewrite Hg. simpl.
  destruct (decide _) as [Hne|_]; [done|].
  rewrite Hm, Hf. simpl. rewrite He. simpl. by rewrite Hw.
Qed.
End MovePiece.

(** ** The search *)

(** C5, as the code has it: at a depth above 0, when the move list of the
    player is empty, [_search] returns [alpha] as it received it. *)
Theorem search_no_moves gb sp d b pl alpha beta h h1 :
  _order_moves b pl h = (Ok [], h1) →
  _search gb sp (S d) b pl alpha beta h = (Ok alpha, h1).
Proof. intros Ho. simpl. unfold bind. by rewrite Ho. Qed.

(** ** The sliding loop ends on its own *)

Lemma is_inside_true x y :
  is_inside (x, y) = true ↔ 0 ≤ x < 8 ∧ 0 ≤ y < 8.
Proof.
  unfold is_inside. simpl.
  by rewrite andb_true_iff, !bool_decide_eq_true.
Qed.

Lemma enough_step fuel x y dx dy :
  is_inside (x, y) = true →
  enough (S fuel) x y dx dy → enough fuel (x + dx) (y + dy) dx dy.
Proof.
  intros Hi He Hi'. specialize (He Hi).
  apply is_inside_true in Hi as [Hx Hy].
  apply is_inside_true in Hi' as [Hx' Hy'].
  unfold room in *.
  destruct He as [[Hd Hr]|[Hd Hr]]; [left|right]; (split; [done|]);
    repeat case_bool_decide; lia.
Qed.

Lemma slide_more_fuel fuel k self start x y dx dy b h :
  enough fuel x y dx dy →
  slide (fuel + k) self start x y dx dy b h = slide fuel self start x y dx dy b h.
Proof.
  revert x y h. induction fuel as [|fuel IH]; intros x y h He.
  - destruct k as [|k]; [done|]. simpl.
    destruct (is_inside (x, y)) eqn:Hi; [|done].
    exfalso. specialize (He Hi).
    apply is_inside_true in Hi as [Hx Hy].
    unfold room in He. destruct He as [[Hd Hr]|[Hd Hr]];
      repeat case_bool_decide; lia.
  - simpl. destruct (is_inside (x, y)) eqn:Hi; [|done].
    unfold gbind. destruct (getitem b (x, y) h) as [[[r|]|e] h1]; [done| |done].
    unfold gseq. simpl. rewrite IH; [done|]. by apply enough_step.
Qed.

(** Eight rounds are as good as any larger number, whatever the start
    square, for every direction that is not (0, 0). *)
Lemma slide_fuel k self start x y dx dy b h :
  (dx, dy) ≠ (0, 0) →
  slide (8 + k) self start x y dx dy b h = slide 8 self start x y dx dy b h.
Proof.
  intros Hd. apply slide_more_fuel. intros Hi.
  apply is_inside_true in Hi as [Hx Hy].
  unfold room. destruct (decide (dx = 0)) as [->|Hdx].
  - right. split; [congruence|]. repeat case_bool_decide; lia.
  - left. split; [done|]. repeat case_bool_decide; lia.
Qed.

(** ** Examples *)

(** Closedness of a store given in full. *)
Ltac closed_by_computation :=
  split; [vm_compute; lia | vm_compute; repeat constructor].

Lemma possible_moves_sound_witness :
  closed pin_heap 0%nat ∧
  field_get (field_of pin_heap 0%nat) (4, 6) = Ok (Some 2%nat) ∧
  possible_moves 2%nat 4 6 0%nat pin_heap = pin_run ∧
  MovePlain 43%nat (4, 6) (4, 5) ∈ pin_run.1.1 ∧
  ∃ h2 h3,
    execute (MovePlain 43%nat (4, 6) (4, 5)) 0%nat pin_run.2 = (Ok tt, h2) ∧
    is_in_check 0%nat white h2 = (Ok false, h3).
Proof.
  assert (closed pin_heap 0%nat) as H1 by closed_by_computation.
  assert (field_get (field_of pin_heap 0%nat) (4, 6) = Ok (Some 2%nat)) as H2
    by reflexivity.
  assert (possible_moves 2%nat 4 6 0%nat pin_heap = pin_run) as H3
    by (vm_compute; reflexivity).
  assert (MovePlain 43%nat (4, 6) (4, 5) ∈ pin_run.1.1) as H4 by left.
  split; [exact H1|]. split; [exact H2|]. split; [exact H3|].
  split; [exact H4|].
  exact (possible_moves_sound pin_heap 0%nat 2%nat 4 6
           pin_run.1.1 pin_run.1.2 pin_run.2 _ H1 H2 H3 H4).
Defined.

Lemma possible_moves_leaves_board_witness :
  closed pin_heap 0%nat ∧
  pin_heap ⊑ (possible_moves 2%nat 4 6 0%nat pin_heap).2 ∧
  field_of (possible_moves 2%nat 4 6 0%nat pin_heap).2 0%nat = field_of pin_heap 0%nat ∧
  view (possible_moves 2%nat 4 6 0%nat pin_heap).2 0%nat = view pin_heap 0%nat.
Proof.
  assert (closed pin_heap 0%nat) as H1 by closed_by_computation.
  split; [exact H1|].
  exact (possible_moves_leaves_board pin_heap 0%nat 2%nat 4 6 H1).
Defined.

Lemma move_piece_error_atomic_witness :
  closed pin_heap (board pin_game) ∧
  move_piece addr zero_hash (4, 6) (5, 6) pin_game pin_heap =
    (Raise (ValueError "Invalid move"), pin_illegal.1.2, pin_illegal.2) ∧
  pin_illegal.1.2 = pin_game ∧ pin_heap ⊑ pin_illegal.2 ∧
  field_of pin_illegal.2 (board pin_game) = field_of pin_heap (board pin_game) ∧
  view pin_illegal.2 (board pin_game) = view pin_heap (board pin_game).
Proof.
  assert (closed pin_heap (board pin_game)) as H1 by closed_by_computation.
  assert (move_piece addr zero_hash (4, 6) (5, 6) pin_game pin_heap =
          (Raise (ValueError "Invalid move"), pin_illegal.1.2, pin_illegal.2))
    as H2 by (vm_compute; reflexivity).
  split; [exact H1|]. split; [exact H2|].
  exact (move_piece_error_atomic addr zero_hash (4, 6) (5, 6)
           pin_game pin_heap "Invalid move" _ _ H1 H2).
Defined.

Lemma move_piece_terminal_witness :
  getitem (board lone_game) (4, 7) lone_heap = (Ok (Some 0%nat), lone_heap) ∧
  player (deref lone_heap 0%nat) = current_player lone_game ∧
  List.find (λ m, bool_decide (destination m = (4, 6)))
    (possible_moves 0%nat 4 7 (board lone_game) lone_heap).1.1 =
    Some (MovePlain 10%nat (4, 7) (4, 6)) ∧
  move_piece addr zero_hash (4, 7) (4, 6) lone_game lone_heap =
  (Ok (Some (mkResult None stalemate)), lone_game, lone_final).
Proof.
  split; [reflexivity|]. split; [reflexivity|].
  split; [vm_compute; reflexivity|].
  eapply (move_piece_terminal addr zero_hash (4, 7) (4, 6) lone_game lone_heap).
  - vm_compute. reflexivity.
  - reflexivity.
  - vm_compute. reflexivity.
  - vm_compute. reflexivity.
  - vm_compute. reflexivity.
  - vm_compute. reflexivity.
Defined.

Lemma search_no_moves_witness :
  _order_moves 1%nat white search_heap = (Ok [], search_after) ∧
  _search 0%nat black 1 1%nat white NegInf PosInf search_heap =
  (Ok NegInf, search_after).
Proof.
  assert (_order_moves 1%nat white search_heap = (Ok [], search_after)) as H1
    by (vm_compute; reflexivity).
  split; [exact H1|].
  exact (search_no_moves 0%nat black 0 1%nat white NegInf PosInf
           search_heap search_after H1).
Defined.

(** C5, as the specification words it, fails: white has no legal move on board 1,
    the search at depth 1 returns the lower bound [-inf] it was called
    with, and the static evaluation of that board is 9. *)
Lemma search_no_moves_not_static :
  (_order_moves 1%nat white search_heap).1 = Ok [] ∧
  (_search 0%nat black 1 1%nat white NegInf PosInf search_heap).1 = Ok NegInf ∧
  (_search 0%nat black 0 1%nat white NegInf PosInf search_heap).1 = Ok (Fin 9) ∧
  (_search 0%nat black 1 1%nat white NegInf PosInf search_heap).1 ≠
  (_evaluate_board 0%nat black 1%nat search_heap).1.
Proof. by vm_compute. Qed.

(** C3: the evaluated board 1 is a stalemate, so that [check_winner] of
    it is non-empty, and yet [_evaluate_board] returns the material sum 9:
    the board whose winner it checks is the board of the game. *)
Theorem evaluate_board_checks_game_board :
  (check_winner 1%nat search_heap).1 = Ok (Some (mkResult None stalemate)) ∧
  (check_winner 0%nat search_heap).1 = Ok None ∧
  (_evaluate_board 0%nat black 1%nat search_heap).1 = Ok (Fin 9).
Proof. by vm_compute. Qed.

(** C4: the rook on a1 has moved, and the king's pseudo-legal moves
    still include castling towards it. *)
Theorem castling_with_moved_rook :
  is_moved (deref castle_heap 1%nat) = true ∧
  (_possible_moves 0%nat 4 7 0%nat castle_heap).1 =
  ([ MovePlain 0%nat (4, 7) (5, 6); MovePlain 0%nat (4, 7) (3, 6);
     MovePlain 0%nat (4, 7) (5, 7); MovePlain 0%nat (4, 7) (3, 7);
     MovePlain 0%nat (4, 7) (4, 6);
     MoveCastling 0%nat (4, 7) (2, 7) 1%nat (0, 7) (3, 7) ], Ok tt).
Proof. by vm_compute. Qed.

(** C6: the pawn on a2 is white's, white is to move, a3 is among the
    destinations of its legal moves, and [move_piece] fails all the same,
    with an IndexError, after it has moved the pawn. *)
Theorem move_piece_index_error :
  (getitem (board corner_game) (0, 6) corner_heap).1 = Ok (Some 1%nat) ∧
  player (deref corner_heap 1%nat) = current_player corner_game ∧
  destination <$> (possible_moves 1%nat 0 6 0%nat corner_heap).1.1 = [(0, 5); (0, 4)] ∧
  (possible_moves 1%nat 0 6 0%nat corner_heap).1.2 = Ok tt ∧
  (move_piece addr zero_hash (0, 6) (0, 5) corner_game corner_heap).1.1 =
    Raise IndexError ∧
  field_get
    (view (move_piece addr zero_hash (0, 6) (0, 5) corner_game corner_heap).2 0%nat)
    (0, 5) = Ok (Some (mkPiece Pawn white true)).
Proof. by vm_compute. Qed.

(** C2: the key of a board is the hash of a string that names the board
    object and says nothing of the squares.  Boards 0 and 1 hold the same
    position and get the hashes of two different strings; board 0 keeps
    its key whatever the store holds, also after a move on it.
    [Board.hash] does not depend on the board either. *)
Theorem hash_board_by_identity (py_hash : string → Z) :
  view twin_heap 0%nat = view twin_heap 1%nat ∧
  (_hash_board addr py_hash 0%nat twin_heap).1 =
    Ok (py_hash "<logic.board.Board object at 0x0>") ∧
  (_hash_board addr py_hash 1%nat twin_heap).1 =
    Ok (py_hash "<logic.board.Board object at 0x1>") ∧
  (∀ h', (_hash_board addr py_hash 0%nat h').1 =
         (_hash_board addr py_hash 0%nat twin_heap).1) ∧
  (∀ py_hash_obj genexpr_id b b' h h',
     (Board_hash py_hash_obj genexpr_id b h).1 =
     (Board_hash py_hash_obj genexpr_id b' h').1).
Proof. repeat split. Qed.

(** C8. On the board built by [Board.initial], white has exactly 20 legal
    moves: 16 pawn moves, the advance of one square and the advance of two
    squares of each pawn, and 4 knight moves. *)
Theorem initial_position_moves :
  ∃ l, ((board <- initial ;; legal_moves board white) empty_store).1 = Ok l ∧
       l = [ (Pawn, (0, 6), (0, 5)); (Pawn, (0, 6), (0, 4));
             (Pawn, (1, 6), (1, 5)); (Pawn, (1, 6), (1, 4));
             (Pawn, (2, 6), (2, 5)); (Pawn, (2, 6), (2, 4));
             (Pawn, (3, 6), (3, 5)); (Pawn, (3, 6), (3, 4));
             (Pawn, (4, 6), (4, 5)); (Pawn, (4, 6), (4, 4));
             (Pawn, (5, 6), (5, 5)); (Pawn, (5, 6), (5, 4));
             (Pawn, (6, 6), (6, 5)); (Pawn, (6, 6), (6, 4));
             (Pawn, (7, 6), (7, 5)); (Pawn, (7, 6), (7, 4));
             (Knight, (1, 7), (2, 5)); (Knight, (1, 7), (0, 5));
             (Knight, (6, 7), (7, 5)); (Knight, (6, 7), (5, 5)) ] ∧
       length l = 20%nat ∧
       count_class Pawn l = 16%nat ∧
       count_class Knight l = 4%nat ∧
       forallb is_advance (List.filter (fun e => bool_decide (e.1.1 = Pawn)) l) = true.
Proof.
  eexists. split; [vm_compute; reflexivity|]. by vm_compute.
Qed.

(* ================================================================== *)
(** * Further properties *)

(** ** Check, checkmate and stalemate *)

(** X1. Whether a player is in check depends only on the position: two
    boards that look the same, in whatever stores, give the same answer
    (or the same exception). *)
Theorem is_in_check_by_position h1 b1 h2 b2 pl :
  closed h1 b1 → closed h2 b2 → view h1 b1 = view h2 b2 →
  (is_in_check b1 pl h1).1 = (is_in_check b2 pl h2).1.
Proof.
  intros H1 H2 Hv. by rewrite !is_in_check_view, Hv.
Qed.

Lemma is_in_checkmate_true h b pl :
  (is_in_checkmate b pl h).1 = Ok true → (is_in_check b pl h).1 = Ok true.
Proof.
  unfold is_in_checkmate, bind.
  destruct (is_in_check b pl h) as [[[|]|e] h1]; simpl; [done|done|done].
Qed.

Lemma is_in_stalemate_true h b pl :
  (is_in_stalemate b pl h).1 = Ok true → (is_in_check b pl h).1 = Ok false.
Proof.
  unfold is_in_stalemate, bind.
  destruct (is_in_check b pl h) as [[[|]|e] h1]; simpl; [done|done|done].
Qed.

Lemma is_in_check_later h b pl h' :
  closed h b → h ⊑ h' → (is_in_check b pl h').1 = (is_in_check b pl h).1.
Proof.
  intros Hc Hh. rewrite !is_in_check_view; [|done|by eapply closed_extends].
  by rewrite (view_extends h h').
Qed.

(** X2. Checkmate and stalemate exclude each other: when one of
    [is_in_checkmate] and [is_in_stalemate] answers True for a player, the
    other answers False, also when it is asked later, in a store where
    more has been allocated. *)
Theorem checkmate_stalemate_exclusive h b pl h' :
  closed h b → h ⊑ h' →
  ((is_in_checkmate b pl h).1 = Ok true → (is_in_stalemate b pl h').1 = Ok false) ∧
  ((is_in_stalemate b pl h).1 = Ok true → (is_in_checkmate b pl h').1 = Ok false).
Proof.
  intros Hc Hh. pose proof (is_in_check_later h b pl h' Hc Hh) as Hl.
  split.
  - intros Hm%is_in_checkmate_true. rewrite Hm in Hl.
    unfold is_in_stalemate, bind.
    destruct (is_in_check b pl h') as [r h1]. simpl in Hl. by subst r.
  - intros Hs%is_in_stalemate_true. rewrite Hs in Hl.
    unfold is_in_checkmate, bind.
    destruct (is_in_check b pl h') as [r h1]. simpl in Hl. by subst r.
Qed.

(** X3. [check_winner] only looks: every object of the store is as it was
    afterwards, the board and its pieces included. *)
Theorem check_winner_leaves_board h b :
  closed h b →
  h ⊑ (check_winner b h).2 ∧
  field_of (check_winner b h).2 b = field_of h b ∧
  view (check_winner b h).2 b = view h b.
Proof.
  intros Hc. destruct (safe_check_winner b h h) as [Hh _]; [done|].
  split; [done|]. split.
  - apply extends_field_of; [done|by destruct Hc].
  - by apply view_extends.
Qed.

Lemma check_winner_loop_result h b pls h0 r h' :
  closed h0 b → h0 ⊑ h →
  check_winner_loop b pls h = (Ok (Some r), h') →
  r = mkResult None stalemate ∨
  ∃ pl, pl ∈ pls ∧ r = mkResult (Some (opponent pl)) checkmate ∧
        (is_in_check b pl h0).1 = Ok true.
Proof.
  intros Hc. revert h. induction pls as [|pl pls IH]; intros h Hh; simpl.
  - done.
  - unfold bind.
    pose proof (safe_is_in_checkmate b pl h0 h Hh) as [H1 _].
    pose proof (is_in_checkmate_true h b pl) as Hm.
    destruct (is_in_checkmate b pl h) as [[[|]|e] h1]; simpl in *; [| |done].
    + intros [= <- <-]. right. exists pl. split; [left|]. split; [done|].
      rewrite <- (is_in_check_later h0 b pl h) by done. by apply Hm.
    + pose proof (safe_is_in_stalemate b pl h0 h1 H1) as [H2 _].
      destruct (is_in_stalemate b pl h1) as [[[|]|e] h2]; simpl in *; [| |done].
      * intros [= <- <-]. by left.
      * intros Hw. destruct (IH h2 H2 Hw) as [?|(pl' & ? & ? & ?)]; [by left|].
        right. exists pl'. split; [by right|done].
Qed.

(** X4. A result of [check_winner] is either a stalemate without winner,
    or a checkmate won by the opponent of a player who is in check on that
    board; it is never [insufficient_material]. *)
Theorem check_winner_result h b r h' :
  closed h b →
  check_winner b h = (Ok (Some r), h') →
  r = mkResult None stalemate ∨
  ∃ pl, r = mkResult (Some (opponent pl)) checkmate ∧
        (is_in_check b pl h).1 = Ok true.
Proof.
  intros Hc Hw.
  destruct (check_winner_loop_result h b all_players h r h' Hc) as
    [?|(pl & _ & ? & ?)]; [done|done|by left|right; by exists pl].
Qed.

(** ** The deep copy of a board *)

Lemma copy_row_new h0 row h :
  h0 ⊑ h → ∀ row', (copy_row row h).1 = Ok row' → Forall (new_cell h0) row'.
Proof.
  revert h. induction row as [|[p|] row IH]; intros h Hh row'; simpl.
  - by intros [= <-].
  - unfold bind, read, new_piece. simpl.
    set (h1 := mkHeap _ _).
    assert (h0 ⊑ h1) as H1.
    { etrans; [exact Hh|]. split; simpl; [by apply prefix_app_r|done]. }
    specialize (IH h1 H1).
    destruct (copy_row row h1) as [[r|e] h2]; simpl in *; [|done].
    intros [= <-]. constructor; [|by apply IH].
    simpl. by apply extends_pieces_length.
  - unfold bind. specialize (IH h Hh).
    destruct (copy_row row h) as [[r|e] h2]; simpl in *; [|done].
    intros [= <-]. constructor; [done|by apply IH].
Qed.

Lemma copy_rows_new h0 f h :
  h0 ⊑ h → ∀ f', (copy_rows f h).1 = Ok f' → Forall (Forall (new_cell h0)) f'.
Proof.
  revert h. induction f as [|row f IH]; intros h Hh f'; simpl.
  - by intros [= <-].
  - unfold bind.
    pose proof (copy_row_new h0 row h Hh) as Hr.
    pose proof (safe_copy_row row h0 h Hh) as [H1 _].
    destruct (copy_row row h) as [[r|e] h1]; simpl in *; [|done].
    specialize (IH h1 H1).
    destruct (copy_rows f h1) as [[rs|e] h2]; simpl in *; [|done].
    intros [= <-]. constructor; [by apply Hr|by apply IH].
Qed.

Lemma field_get_Forall {C} (P : C → Prop) (f : list (list C)) pos c :
  Forall (Forall P) f → field_get f pos = Ok c → P c.
Proof.
  intros Hf Hg. unfold field_get in Hg.
  repeat case_match; simplify_eq.
  match goal with
  | H1 : f !! _ = Some ?row, H2 : ?row !! _ = Some _ |- _ =>
      exact (Forall_lookup_1 _ _ _ _ (Forall_lookup_1 _ _ _ _ Hf H1) H2)
  end.
Qed.

(** X5. The deep copy of a board is a new board object that looks the
    same as the original and shares no piece with it: every piece on the
    copy is an object allocated by the copy.  Nothing that existed is
    written. *)
Theorem deepcopy_board_independent h b :
  closed h b →
  ∃ nb h',
    deepcopy_board b h = (Ok nb, h') ∧ nb ≠ b ∧ h ⊑ h' ∧
    closed h' nb ∧ view h' nb = view h b ∧
    ∀ pos r, field_get (field_of h' nb) pos = Ok (Some r) →
             (length (pieces h) ≤ r)%nat.
Proof.
  intros Hc.
  destruct (deepcopy_board_spec h b Hc) as (h' & E & Hh & Hc' & Hv).
  exists (length (boards h)), h'. split; [done|].
  split; [destruct Hc; lia|]. split; [done|]. split; [done|]. split; [done|].
  intros pos r Hg.
  unfold deepcopy_board, bind, new_board, get_field in E. simpl in E.
  set (h1 := mkHeap _ _) in E.
  assert (h ⊑ h1) as H1 by (split; simpl; [done|by apply prefix_app_r]).
  pose proof (copy_rows_new h (field_of h1 b) h1 H1) as Hn.
  destruct (copy_rows (field_of h1 b) h1) as [[f'|e] h2]; simpl in *; [|done].
  injection E as <-.
  unfold field_of in Hg. simpl in Hg.
  rewrite list_lookup_total_insert_eq in Hg.
  2:{ destruct Hc' as [Hb _]. simpl in Hb. by rewrite length_insert in Hb. }
  exact (field_get_Forall (new_cell h) f' pos (Some r) (Hn f' eq_refl) Hg).
Qed.

(** ** The shape of the pseudo-legal moves *)

Section Post.
Context (h0 : Heap) (b : bref) (Hclosed : closed h0 b).
Context (P : Heap → Move → Prop) (HP : stable P).

Lemma gpost_skip : gpost h0 P gskip.
Proof. intros h Hh. simpl. split; [done|constructor]. Qed.

Lemma gpost_yield m : (∀ h, h0 ⊑ h → P h m) → gpost h0 P (yield m).
Proof. intros Hm h Hh. simpl. split; [done|]. constructor; auto. Qed.

Lemma gpost_seq g1 g2 :
  gpost h0 P g1 → gpost h0 P g2 → gpost h0 P (g1 ;;; g2).
Proof.
  intros H1 H2 h Hh. unfold gseq.
  destruct (H1 h Hh) as [Ha Hb].
  destruct (g1 h) as [[ys [[]|e]] h1]; simpl in *; [|done].
  destruct (H2 h1) as [Hc Hd]; [by etrans|].
  destruct (g2 h1) as [[ys' r'] h2]; simpl in *.
  split; [by etrans|]. apply Forall_app. split; [|done].
  eapply Forall_impl; [exact Hb|]. intros m. by apply HP.
Qed.

Lemma gpost_for {A} (l : list A) body :
  (∀ a, a ∈ l → gpost h0 P (body a)) → gpost h0 P (gfor l body).
Proof.
  induction l as [|a l IH]; intros Hb; simpl.
  - apply gpost_skip.
  - apply gpost_seq; [apply Hb; left|]. apply IH. intros a' Ha. apply Hb. by right.
Qed.

Lemma gpost_read r k :
  (r < length (pieces h0))%nat → gpost h0 P (k (deref h0 r)) →
  gpost h0 P (gbind (read r) k).
Proof.
  intros Hr Hk h Hh. unfold gbind, read.
  rewrite (extends_deref h0 h) by done. by apply Hk.
Qed.

Lemma gpost_getitem pos k :
  (∀ c, field_get (field_of h0 b) pos = Ok c → valid_cell h0 c →
        gpost h0 P (k c)) →
  gpost h0 P (gbind (getitem b pos) k).
Proof.
  intros Hk h Hh. destruct Hclosed as [Hb Hf].
  unfold gbind, getitem, bind, get_field.
  rewrite (extends_field_of h0 h) by done.
  destruct (field_get (field_of h0 b) pos) as [c|e] eqn:E; simpl.
  - apply Hk; [done| |done]. destruct c as [r|]; [|done].
    by eapply field_get_closed.
  - split; [done|constructor].
Qed.

(** A statement that only allocates, with what is known of its result. *)
Lemma gpost_bind {A} (Q : A → Prop) (m : M A) k :
  (∀ h, h0 ⊑ h → h ⊑ (m h).2 ∧ ∀ a, (m h).1 = Ok a → Q a) →
  (∀ a, Q a → gpost h0 P (k a)) →
  gpost h0 P (gbind m k).
Proof.
  intros Hm Hk h Hh. unfold gbind.
  destruct (Hm h Hh) as [H1 H2].
  destruct (m h) as [[a|e] h1]; simpl in *.
  - destruct (Hk a (H2 a eq_refl) h1) as [H3 H4]; [by etrans|].
    split; [by etrans|done].
  - split; [done|constructor].
Qed.
End Post.

Lemma view_get h b pos c :
  field_get (field_of h b) pos = Ok c →
  field_get (view h b) pos = Ok (deref h <$> c).
Proof. intros H. by rewrite field_get_view, H. Qed.

Lemma stable_pseudo_ok h0 b self x y : stable (pseudo_ok h0 b self x y).
Proof.
  intros h h' m Hh (H1 & H2 & H3). split; [done|]. split; [done|].
  destruct m as [p s d|p s d q|p s d rk rs rd]; [done| |done].
  destruct H3 as (?&?&?&?&Hq). repeat (split; [done|]).
  destruct Hh as [Hp _]. by eapply prefix_lookup_Some.
Qed.

Section PseudoOk.
Context (h0 : Heap) (b : bref) (Hclosed : closed h0 b).
Context (self : pref) (Hself : (self < length (pieces h0))%nat).
Context (x y : Z).

Local Abbreviation P := (pseudo_ok h0 b self x y).

Lemma lands_empty d :
  field_get (field_of h0 b) d = Ok None → lands_ok (view h0 b) (deref h0 self) d.
Proof. intros H. unfold lands_ok. by rewrite (view_get _ _ _ _ H). Qed.

Lemma lands_enemy d r :
  field_get (field_of h0 b) d = Ok (Some r) →
  player (deref h0 r) ≠ player (deref h0 self) →
  lands_ok (view h0 b) (deref h0 self) d.
Proof. intros H Hp. unfold lands_ok. by rewrite (view_get _ _ _ _ H). Qed.

Lemma gpost_promote pl s d :
  (∀ h q, h0 ⊑ h → pieces h !! q = Some (mkPiece Queen pl false) →
          P h (MoveWithPromotion self s d q)) →
  gpost h0 P (gbind (new_piece (mkPiece Queen pl false))
                    (λ q, yield (MoveWithPromotion self s d q))).
Proof.
  intros Hk h Hh. unfold gbind, new_piece, yield. simpl.
  set (h1 := mkHeap _ _).
  assert (h ⊑ h1) as H1 by (split; simpl; [by apply prefix_app_r|done]).
  split; [done|]. constructor; [|constructor].
  apply Hk; [by etrans|].
  unfold h1. simpl. rewrite lookup_app_r by done.
  by rewrite Nat.sub_diag.
Qed.

Lemma all_none_post xs yy h :
  h0 ⊑ h →
  (all_none b xs yy h).2 = h ∧
  ((all_none b xs yy h).1 = Ok true →
   ∀ xx, xx ∈ xs → field_get (field_of h0 b) (xx, yy) = Ok None).
Proof.
  intros Hh. destruct Hclosed as [Hb Hf].
  induction xs as [|x0 xs IH]; simpl.
  - split; [done|]. intros _ xx Hx. by apply elem_of_nil in Hx.
  - unfold bind, getitem, get_field, bind. simpl.
    rewrite (extends_field_of h0 h) by done.
    destruct (field_get (field_of h0 b) (x0, yy)) as [[r|]|e] eqn:E; simpl;
      [done| |done].
    destruct IH as [IH1 IH2]. split; [done|].
    intros Ht xx Hx. apply elem_of_cons in Hx as [->|Hx]; [done|]. by apply IH2.
Qed.

Lemma castling_guard_post fig xs yy h :
  h0 ⊑ h → valid_cell h0 fig →
  h ⊑ (castling_guard self fig b xs yy h).2 ∧
  ∀ ok, (castling_guard self fig b xs yy h).1 = Ok ok → ok = true →
    is_moved (deref h0 self) = false ∧
    (∀ xx, xx ∈ xs → field_get (field_of h0 b) (xx, yy) = Ok None) ∧
    ∃ rk, fig = Some rk ∧ cls (deref h0 rk) = Rook ∧
          player (deref h0 rk) = player (deref h0 self).
Proof.
  intros Hh Hfig. unfold castling_guard, bind, read. simpl.
  rewrite (extends_deref h0 h self) by done.
  destruct (is_moved (deref h0 self)) eqn:Em; simpl.
  { split; [done|]. by intros ok [= <-]. }
  destruct fig as [rk|]; simpl.
  2:{ split; [done|]. by intros ok [= <-]. }
  simpl in Hfig. rewrite (extends_deref h0 h rk) by done.
  case_bool_decide as Ec; simpl.
  2:{ split; [done|]. by intros ok [= <-]. }
  case_bool_decide as Ep; simpl.
  2:{ split; [done|]. by intros ok [= <-]. }
  destruct (all_none_post xs yy h Hh) as [H1 H2].
  split; [by rewrite H1|].
  intros ok Hok ->. split; [done|]. split; [by apply H2|]. by exists rk.
Qed.


Ltac post_step :=
  lazymatch goal with
  | |- gpost _ _ gskip => apply gpost_skip
  | |- gpost _ _ (_ ;;; _) => apply gpost_seq; [apply stable_pseudo_ok| |]
  | |- gpost _ _ (gfor _ _) =>
      apply gpost_for; [apply stable_pseudo_ok|]; intros ? ?
  | |- gpost _ _ (gbind (read _) _) =>
      apply gpost_read; [first [exact Hself | assumption]|]
  | |- gpost _ _ (gbind (getitem _ _) _) =>
      apply gpost_getitem; [exact Hclosed|];
      let c := fresh "c" in let Hc := fresh "Hc" in let Hv := fresh "Hv" in
      intros c Hc Hv; destruct c; simpl in Hv
  | |- gpost _ _ (gbind (new_piece _) _) =>
      apply gpost_promote; intros ? ? ? ?
  | |- gpost _ _ (if ?c then _ else _) => destruct c eqn:?
  | |- gpost _ _ (match ?c with _ => _ end) => destruct c eqn:?
  | |- gpost _ _ (yield _) => apply gpost_yield; intros ? ?
  end.

Ltac land :=
  first [ by eapply lands_empty
        | eapply lands_enemy; [eassumption|];
          match goal with H : bool_decide (player _ ≠ player _) = true |- _ =>
            by apply bool_decide_eq_true in H end ].

Ltac promo :=
  simpl;
  match goal with
  | H : bool_decide (_ ≠ promotion_row _) = true |- _ =>
      by apply bool_decide_eq_true in H
  | H : bool_decide (_ ≠ promotion_row _) = false |- _ =>
      apply bool_decide_eq_false in H; lia
  end.

Lemma gpost_Pawn :
  cls (deref h0 self) = Pawn → gpost h0 P (Pawn_possible_moves self x y b).
Proof.
  intros Hcls. unfold Pawn_possible_moves.
  post_step. cbv zeta.
  repeat post_step.
  - repeat (split; [done|]). split; [land|]. split; [intros _; promo|congruence].
  - repeat (split; [done|]). split; [land|]. split; [promo|done].
  - match goal with H : negb _ && bool_decide _ = true |- _ =>
      apply andb_true_iff in H as [_ Hy%bool_decide_eq_true] end.
    match goal with H : is_inside _ = true |- _ =>
      apply is_inside_true in H; simpl in H end.
    split; [done|]. split; [done|]. split; [|split; [land|split; [|congruence]]].
    + apply is_inside_true. simpl.
      destruct (player (deref h0 self)); simpl in *; lia.
    + intros _. simpl. destruct (player (deref h0 self)); simpl in *; lia.
  - repeat (split; [done|]). split; [land|]. split; [intros _; promo|congruence].
  - repeat (split; [done|]). split; [land|]. split; [promo|done].
Qed.

Lemma gpost_in_direction dx dy :
  cls (deref h0 self) ≠ Pawn →
  (cls (deref h0 self) = King → Z.abs dx ≤ 1) →
  gpost h0 P (_possible_moves_in_direction self x y dx dy b).
Proof.
  intros Hcls Hking. unfold _possible_moves_in_direction. cbv zeta.
  replace (x + dx - dx, y + dy - dy) with (x, y) by (f_equal; lia).
  repeat post_step;
    (repeat (split; [done|]); split; [land|]; split; [done|]);
    intros Hk; specialize (Hking Hk); simpl; lia.
Qed.

Lemma gpost_discrete vs :
  cls (deref h0 self) ≠ Pawn →
  (cls (deref h0 self) = King → Forall (λ v : Z * Z, Z.abs v.1 ≤ 1) vs) →
  gpost h0 P (PieceWithDiscreteMoves_possible_moves vs self x y b).
Proof.
  intros Hcls Hking. unfold PieceWithDiscreteMoves_possible_moves.
  post_step. apply gpost_in_direction; [done|]. intros Hk.
  by apply (proj1 (Forall_forall _ _) (Hking Hk)).
Qed.

Lemma gpost_slide fuel x1 y1 dx dy :
  cls (deref h0 self) ≠ Pawn → cls (deref h0 self) ≠ King →
  gpost h0 P (slide fuel self (x, y) x1 y1 dx dy b).
Proof.
  intros Hcls Hking. revert x1 y1.
  induction fuel as [|fuel IH]; intros x1 y1; cbn [slide]; [apply gpost_skip|].
  cbv zeta.
  repeat post_step; try apply IH;
    by (repeat (split; [done|]); split; [land|]).
Qed.

Lemma gpost_straight ds :
  cls (deref h0 self) ≠ Pawn → cls (deref h0 self) ≠ King →
  gpost h0 P (PieceWithStraightMoves_possible_moves ds self x y b).
Proof.
  intros Hcls Hking. unfold PieceWithStraightMoves_possible_moves. cbv zeta.
  post_step. by apply gpost_slide.
Qed.

Lemma gpost_castling corner xs d rd :
  cls (deref h0 self) = King →
  ((d = (x - 2, y) ∧ corner = 0 ∧ rd = (x - 1, y) ∧
    ∀ xx, 1 ≤ xx < x → xx ∈ xs) ∨
   (d = (x + 2, y) ∧ corner = 7 ∧ rd = (x + 1, y) ∧
    ∀ xx, x + 1 ≤ xx < 7 → xx ∈ xs)) →
  gpost h0 P
    (fig <~ getitem b (corner, y) ;;
     ok <~ castling_guard self fig b xs y ;;
     match ok, fig with
     | true, Some rk => yield (MoveCastling self (x, y) d rk (corner, y) rd)
     | _, _ => gskip
     end).
Proof.
  intros Hcls Hside.
  apply gpost_getitem; [exact Hclosed|]. intros fig Hfig Hv.
  eapply gpost_bind.
  - intros h Hh. apply (castling_guard_post fig xs y h Hh Hv).
  - intros ok Hok. cbv beta in Hok.
    destruct ok; [|apply gpost_skip].
    destruct (Hok eq_refl) as (Hm & Hbetween & rk & -> & Hr & Hp).
    apply gpost_yield. intros h Hh.
    split; [done|]. split; [done|]. split; [done|]. split; [done|].
    split; [exact Hv|].
    split; [by apply view_get in Hfig|]. split; [done|]. split; [done|].
    destruct Hside as [(-> & -> & -> & Hx)|(-> & -> & -> & Hx)]; [left|right];
      repeat (split; [done|]); intros xx Hxx;
      by rewrite (view_get _ _ _ _ (Hbetween xx (Hx xx Hxx))).
Qed.

Lemma gpost_King :
  cls (deref h0 self) = King → gpost h0 P (King_possible_moves self x y b).
Proof.
  intros Hcls. unfold King_possible_moves.
  apply gpost_seq; [apply stable_pseudo_ok| |apply gpost_seq;
                                              [apply stable_pseudo_ok| |]].
  - apply gpost_discrete; [by rewrite Hcls|]. intros _.
    unfold King_vectors. repeat constructor; simpl; lia.
  - apply gpost_castling; [done|]. left. repeat (split; [done|]).
    intros xx Hxx. unfold range. apply elem_of_seqZ. lia.
  - apply gpost_castling; [done|]. right. repeat (split; [done|]).
    intros xx Hxx. unfold range. apply elem_of_seqZ. lia.
Qed.

Lemma gpost__possible_moves : gpost h0 P (_possible_moves self x y b).
Proof.
  unfold _possible_moves. post_step.
  destruct (cls (deref h0 self)) eqn:Hcls.
  - by apply gpost_Pawn.
  - apply gpost_discrete; by rewrite Hcls.
  - apply gpost_straight; by rewrite Hcls.
  - apply gpost_straight; by rewrite Hcls.
  - apply gpost_straight; by rewrite Hcls.
  - by apply gpost_King.
Qed.
End PseudoOk.

(** X6. Every pseudo-legal move of a piece moves that piece from the
    square asked about.  A plain or promoting move lands inside the board,
    on an empty square or on a piece of the other player; a plain move
    of a king changes its column by at most one; a pawn promotes exactly
    on its promotion row, to a new unmoved queen of its own player; a
    castling is only yielded for an unmoved king with a rook of
    its own player in the corner of its row and nothing between them. *)
Theorem pseudo_moves_shape h b self x y :
  closed h b → (self < length (pieces h))%nat →
  Forall (pseudo_ok h b self x y (_possible_moves self x y b h).2)
         (_possible_moves self x y b h).1.1.
Proof.
  intros Hc Hs. by apply (gpost__possible_moves h b Hc self Hs x y h).
Qed.

(** ** Generation on a regular board raises nothing *)

Lemma regular_fmap {C D} (g : C → D) (f : list (list C)) :
  regular f → regular (map (map g) f).
Proof.
  intros [H1 H2]. split; [by rewrite length_map|].
  apply Forall_fmap. eapply Forall_impl; [exact H2|].
  intros row Hr. simpl. by rewrite length_map.
Qed.

Lemma py_index_inside (i : Z) : 0 ≤ i < 8 → py_index 8 i = Some (Z.to_nat i).
Proof. intros Hi. unfold py_index. by rewrite bool_decide_eq_true_2 by lia. Qed.

Lemma field_get_regular {C} (f : list (list C)) pos :
  regular f → is_inside pos = true → ∃ c, field_get f pos = Ok c.
Proof.
  intros [H1 H2] Hi. destruct pos as [x y].
  apply is_inside_true in Hi as [Hx Hy].
  unfold field_get. simpl. rewrite H1, py_index_inside by done.
  destruct (lookup_lt_is_Some_2 f (Z.to_nat y)) as [row Hrow]; [lia|].
  rewrite Hrow.
  assert (length row = 8%nat) as Hl.
  { by eapply (Forall_lookup_1 _ _ _ _ H2). }
  rewrite Hl, py_index_inside by done.
  destruct (lookup_lt_is_Some_2 row (Z.to_nat x)) as [c Hc]; [lia|].
  rewrite Hc. by exists c.
Qed.

Lemma dseq_ok s1 s2 : s1.2 = Ok tt → s2.2 = Ok tt → (dseq s1 s2).2 = Ok tt.
Proof. destruct s1 as [ds [[]|e]]; simpl; [done|done]. Qed.

Lemma dfor_ok {A} (l : list A) body :
  (∀ a, a ∈ l → (body a).2 = Ok tt) → (dfor l body).2 = Ok tt.
Proof.
  induction l as [|a l IH]; intros Hb; simpl; [done|].
  apply dseq_ok; [apply Hb; left|]. apply IH. intros a' Ha. apply Hb. by right.
Qed.

Section NoRaise.
Context (me : Piece) (v : View) (Hreg : regular v).

Lemma dbind_get_ok pos k :
  is_inside pos = true → (∀ c, (k c).2 = Ok tt) →
  (dbind (field_get v pos) k).2 = Ok tt.
Proof.
  intros Hi Hk. destruct (field_get_regular v pos Hreg Hi) as [c ->]. apply Hk.
Qed.

Ltac ok_step :=
  lazymatch goal with
  | |- (dseq _ _).2 = Ok tt => apply dseq_ok
  | |- (dfor _ _).2 = Ok tt => apply dfor_ok; intros ? ?
  | |- (dbind (field_get v _) _).2 = Ok tt =>
      apply dbind_get_ok; [try done|intros ?]
  | |- (if ?c then _ else _).2 = Ok tt => destruct c eqn:?
  | |- (match ?c with _ => _ end).2 = Ok tt => destruct c eqn:?
  | |- dskip.2 = Ok tt => reflexivity
  | |- (done_at _).2 = Ok tt => reflexivity
  end.

Lemma Pawn_dests_ok x y : (Pawn_dests me v x y).2 = Ok tt.
Proof.
  unfold Pawn_dests. cbv zeta. repeat ok_step.
  match goal with H : negb _ && bool_decide _ = true |- _ =>
    apply andb_true_iff in H as [_ Hy%bool_decide_eq_true] end.
  match goal with H : is_inside _ = true |- _ =>
    apply is_inside_true in H; simpl in H end.
  apply is_inside_true. destruct (player me); simpl in *; lia.
Qed.

Lemma discrete_dests_ok vs x y : (discrete_dests me v vs x y).2 = Ok tt.
Proof. unfold discrete_dests, step_dests. repeat ok_step. Qed.

Lemma slide_dests_ok fuel x y dx dy : (slide_dests me v fuel x y dx dy).2 = Ok tt.
Proof.
  revert x y. induction fuel as [|fuel IH]; intros x y; cbn [slide_dests];
    repeat ok_step. apply IH.
Qed.

Lemma straight_dests_ok ds x y : (straight_dests me v ds x y).2 = Ok tt.
Proof. unfold straight_dests. ok_step. apply slide_dests_ok. Qed.

Lemma all_none_v_ok xs y :
  (∀ xx, xx ∈ xs → is_inside (xx, y) = true) → ∃ r, all_none_v v xs y = Ok r.
Proof.
  induction xs as [|x0 xs IH]; intros Hx; simpl; [by eexists|].
  destruct (field_get_regular v (x0, y) Hreg) as [c ->]; [apply Hx; left|].
  destruct c; [by eexists|]. apply IH. intros xx Hxx. apply Hx. by right.
Qed.

Lemma castling_dests_ok corner xs d y :
  is_inside (corner, y) = true →
  (∀ xx, xx ∈ xs → is_inside (xx, y) = true) →
  (castling_dests me v corner xs d y).2 = Ok tt.
Proof.
  intros Hc Hx. unfold castling_dests.
  apply dbind_get_ok; [done|]. intros fig.
  assert (∃ r, castling_guard_v me v fig xs y = Ok r) as [r ->].
  { unfold castling_guard_v. destruct (negb _); [|by eexists].
    destruct fig; [|by eexists].
    repeat case_bool_decide; try by eexists. by apply all_none_v_ok. }
  simpl. by destruct r, fig.
Qed.

Lemma King_dests_ok x y :
  is_inside (x, y) = true → (King_dests me v x y).2 = Ok tt.
Proof.
  intros [Hx Hy]%is_inside_true. unfold King_dests.
  apply dseq_ok; [apply discrete_dests_ok|].
  apply dseq_ok; apply castling_dests_ok.
  - apply is_inside_true. lia.
  - intros xx Hxx%elem_of_seqZ. apply is_inside_true. lia.
  - apply is_inside_true. lia.
  - intros xx Hxx%elem_of_seqZ. apply is_inside_true. lia.
Qed.

Lemma pseudo_dests_ok x y :
  is_inside (x, y) = true → (pseudo_dests me v x y).2 = Ok tt.
Proof.
  intros Hi. unfold pseudo_dests.
  destruct (cls me);
    auto using Pawn_dests_ok, discrete_dests_ok, straight_dests_ok, King_dests_ok.
Qed.
End NoRaise.

(** X7. On a board of eight rows of eight squares, listing the
    pseudo-legal moves of a piece from a square of the board raises no
    exception. *)
Theorem pseudo_moves_never_raise h b self x y :
  closed h b → regular (field_of h b) → (self < length (pieces h))%nat →
  is_inside (x, y) = true →
  (_possible_moves self x y b h).1.2 = Ok tt.
Proof.
  intros Hc Hr Hs Hi.
  destruct (gsim__possible_moves h b Hc self Hs x y h) as (_ & -> & _); [done|].
  apply pseudo_dests_ok; [|done]. by apply regular_fmap.
Qed.

(** ** How the pieces move *)

Lemma dseq_elem s1 s2 d :
  s1.2 = Ok tt → d ∈ (dseq s1 s2).1 ↔ d ∈ s1.1 ∨ d ∈ s2.1.
Proof.
  destruct s1 as [ds [[]|e]]; simpl; [|done]. intros _. apply elem_of_app.
Qed.

Lemma dfor_elem {A} (l : list A) body d :
  (∀ a, a ∈ l → (body a).2 = Ok tt) →
  d ∈ (dfor l body).1 ↔ ∃ a, a ∈ l ∧ d ∈ (body a).1.
Proof.
  induction l as [|a l IH]; intros Hb; simpl.
  - split; [by intros ?%elem_of_nil|]. by intros (a & ?%elem_of_nil & _).
  - rewrite dseq_elem by (apply Hb; left).
    rewrite IH by (intros a' Ha'; apply Hb; by right).
    split.
    + intros [H|(a' & Ha' & H)]; [exists a; split; [left|done]|].
      exists a'. split; [by right|done].
    + intros (a' & [->|Ha']%elem_of_cons & H); [by left|].
      right. by exists a'.
Qed.

Lemma elem_of_done_at (d d' : Pos) : d ∈ (done_at d').1 ↔ d = d'.
Proof. simpl. apply list_elem_of_singleton. Qed.

Lemma elem_of_dskip (d : Pos) : d ∈ dskip.1 ↔ False.
Proof. simpl. split; [by intros ?%elem_of_nil|done]. Qed.

Section Rules.
Context (me : Piece) (v : View) (Hreg : regular v).

Lemma step_dests_ok x y dx dy : (step_dests me v x y dx dy).2 = Ok tt.
Proof.
  unfold step_dests. destruct (is_inside _) eqn:Hi; [|done].
  destruct (field_get_regular v _ Hreg Hi) as [c ->]. simpl.
  destruct c; [|done]. by case_bool_decide.
Qed.

Lemma step_dests_elem x y dx dy d :
  d ∈ (step_dests me v x y dx dy).1 ↔
  d = (x + dx, y + dy) ∧ is_inside d = true ∧ lands_ok v me d.
Proof.
  unfold step_dests, lands_ok. destruct (is_inside (x + dx, y + dy)) eqn:Hi.
  - destruct (field_get_regular v _ Hreg Hi) as [c Hc]. rewrite Hc. simpl.
    destruct c as [o|].
    + case_bool_decide as Hp.
      * rewrite elem_of_done_at. split; [intros ->; by rewrite Hc|by intros [? _]].
      * rewrite elem_of_dskip. split; [done|]. intros (-> & _ & H).
        by rewrite Hc in H.
    + rewrite elem_of_done_at. split; [intros ->; by rewrite Hc|by intros [? _]].
  - rewrite elem_of_dskip. split; [done|]. intros (-> & H & _). congruence.
Qed.

Lemma discrete_dests_elem vs x y d :
  d ∈ (discrete_dests me v vs x y).1 ↔
  ∃ vec, vec ∈ vs ∧ d = (x + vec.1, y + vec.2) ∧
         is_inside d = true ∧ lands_ok v me d.
Proof.
  unfold discrete_dests. rewrite dfor_elem by (intros; apply step_dests_ok).
  by setoid_rewrite step_dests_elem.
Qed.

Lemma slide_dests_elem fuel x1 y1 dx dy d :
  d ∈ (slide_dests me v fuel x1 y1 dx dy).1 ↔
  ∃ n : nat, (n < fuel)%nat ∧
    d = (x1 + Z.of_nat n * dx, y1 + Z.of_nat n * dy) ∧
    (∀ k : nat, (k < n)%nat →
       is_inside (x1 + Z.of_nat k * dx, y1 + Z.of_nat k * dy) = true ∧
       field_get v (x1 + Z.of_nat k * dx, y1 + Z.of_nat k * dy) = Ok None) ∧
    is_inside d = true ∧ lands_ok v me d.
Proof.
  revert x1 y1. induction fuel as [|fuel IH]; intros x1 y1; cbn [slide_dests].
  { rewrite elem_of_dskip. split; [done|]. intros (n & ? & _). lia. }
  assert (∀ a c : Z, a + Z.of_nat 0 * c = a) as Z0 by (intros; lia).
  assert (∀ (a c : Z) (k : nat),
            a + Z.of_nat (S k) * c = a + c + Z.of_nat k * c) as ZS
    by (intros; lia).
  destruct (is_inside (x1, y1)) eqn:Hi.
  - destruct (field_get_regular v _ Hreg Hi) as [c Hc]. rewrite Hc. cbn [dbind].
    destruct c as [o|].
    + (* an occupied square ends the slide *)
      assert (d ∈ (if bool_decide (player o ≠ player me)
                   then done_at (x1, y1) else dskip).1 ↔
              d = (x1, y1) ∧ lands_ok v me (x1, y1)) as ->.
      { unfold lands_ok. rewrite Hc. case_bool_decide.
        - rewrite elem_of_done_at. tauto.
        - rewrite elem_of_dskip. tauto. }
      split.
      * intros [-> Hl]. exists 0%nat. rewrite !Z0.
        split; [lia|]. split; [done|]. split; [intros; lia|done].
      * intros (n & Hn & -> & Hk & Hin & Hl). destruct n as [|n].
        { by rewrite !Z0 in *. }
        destruct (Hk 0%nat) as [_ H0]; [lia|].
        rewrite !Z0 in H0. congruence.
    + (* an empty square: yield it and go on *)
      rewrite dseq_elem by done. rewrite elem_of_done_at, IH. split.
      * intros [->|(n & Hn & -> & Hk & Hin & Hl)].
        { exists 0%nat. rewrite !Z0.
          split; [lia|]. split; [done|]. split; [intros; lia|].
          split; [done|]. unfold lands_ok. by rewrite Hc. }
        exists (S n). rewrite !ZS. split; [lia|].
        split; [done|]. split; [|done].
        intros [|k] Hlt; [by rewrite !Z0|].
        rewrite !ZS. apply Hk. lia.
      * intros (n & Hn & -> & Hk & Hin & Hl). destruct n as [|n].
        { left. by rewrite !Z0. }
        right. exists n. rewrite !ZS in *. split; [lia|].
        split; [done|]. split; [|done].
        intros k Hlt. rewrite <- !ZS. apply Hk. lia.
  - rewrite elem_of_dskip. split; [done|].
    intros (n & Hn & -> & Hk & Hin & Hl). destruct n as [|n].
    + rewrite !Z0 in Hin. congruence.
    + destruct (Hk 0%nat) as [H0 _]; [lia|].
      rewrite !Z0 in H0. congruence.
Qed.

Lemma straight_dests_elem ds x y d :
  Forall (λ dir : Z * Z, dir ≠ (0, 0)) ds →
  d ∈ (straight_dests me v ds x y).1 ↔
  ∃ dir m, dir ∈ ds ∧ 1 ≤ m ∧ d = (x + m * dir.1, y + m * dir.2) ∧
    (∀ k, 1 ≤ k < m →
       is_inside (x + k * dir.1, y + k * dir.2) = true ∧
       field_get v (x + k * dir.1, y + k * dir.2) = Ok None) ∧
    is_inside d = true ∧ lands_ok v me d.
Proof.
  intros Hds. unfold straight_dests.
  rewrite dfor_elem by (intros; apply slide_dests_ok; exact Hreg).
  split.
  - intros (dir & Hdir & (n & Hn & -> & Hk & Hin & Hl)%slide_dests_elem).
    exists dir, (Z.of_nat n + 1). split; [done|]. split; [lia|].
    assert (∀ a c : Z, a + c + Z.of_nat n * c = a + (Z.of_nat n + 1) * c) as E
      by (intros; lia).
    rewrite !E in *. split; [done|]. split; [|done].
    intros k Hk'. destruct (Hk (Z.to_nat (k - 1))) as [A B]; [lia|].
    rewrite Z2Nat.id in A, B by lia.
    replace (x + dir.1 + (k - 1) * dir.1) with (x + k * dir.1) in * by lia.
    by replace (y + dir.2 + (k - 1) * dir.2) with (y + k * dir.2) in * by lia.
  - intros (dir & m & Hdir & Hm & -> & Hk & Hin & Hl).
    exists dir. split; [done|]. apply slide_dests_elem.
    exists (Z.to_nat (m - 1)). rewrite Z2Nat.id by lia.
    replace (x + dir.1 + (m - 1) * dir.1) with (x + m * dir.1) by lia.
    replace (y + dir.2 + (m - 1) * dir.2) with (y + m * dir.2) by lia.
    split; [|split; [done|split; [|done]]].
    + (* the slide has left the board after eight steps *)
      pose proof (proj1 (Forall_forall _ _) Hds dir Hdir) as Hnz.
      destruct (decide (m = 1)) as [->|Hm1]; [simpl; lia|].
      destruct (Hk 1) as [H1 _]; [lia|].
      apply is_inside_true in H1 as [Hx1 Hy1].
      apply is_inside_true in Hin as [Hxm Hym].
      destruct dir as [dx dy]. simpl in *.
      assert (dx ≠ 0 ∨ dy ≠ 0) as [Hd|Hd].
      { destruct (decide (dx = 0)) as [->|]; [|by left].
        right. intros ->. done. }
      * assert (m - 1 ≤ 7); [nia|lia].
      * assert (m - 1 ≤ 7); [nia|lia].
    + intros k Hlt. destruct (Hk (Z.of_nat k + 1)) as [A B]; [lia|].
      replace (x + dir.1 + Z.of_nat k * dir.1)
        with (x + (Z.of_nat k + 1) * dir.1) by lia.
      by replace (y + dir.2 + Z.of_nat k * dir.2)
        with (y + (Z.of_nat k + 1) * dir.2) by lia.
Qed.

Lemma all_none_v_true xs y :
  (∀ xx, xx ∈ xs → is_inside (xx, y) = true) →
  all_none_v v xs y = Ok true ↔ ∀ xx, xx ∈ xs → field_get v (xx, y) = Ok None.
Proof.
  induction xs as [|x0 xs IH]; intros Hx; simpl.
  - split; [|done]. by intros _ xx ?%elem_of_nil.
  - destruct (field_get_regular v (x0, y) Hreg) as [c Hc]; [apply Hx; left|].
    rewrite Hc. destruct c as [o|].
    + split; [done|]. intros H. specialize (H x0). rewrite Hc in H.
      by discriminate H; left.
    + rewrite IH by (intros xx Hxx; apply Hx; by right). split.
      * intros H xx [->|Hxx]%elem_of_cons; [done|by apply H].
      * intros H xx Hxx. apply H. by right.
Qed.

Lemma castling_dests_elem corner xs dd y d :
  is_inside (corner, y) = true →
  (∀ xx, xx ∈ xs → is_inside (xx, y) = true) →
  d ∈ (castling_dests me v corner xs dd y).1 ↔
  d = dd ∧ is_moved me = false ∧
  (∃ rk, field_get v (corner, y) = Ok (Some rk) ∧
         cls rk = Rook ∧ player rk = player me) ∧
  ∀ xx, xx ∈ xs → field_get v (xx, y) = Ok None.
Proof.
  intros Hc Hx. unfold castling_dests.
  destruct (field_get_regular v (corner, y) Hreg Hc) as [fig Hfig].
  rewrite Hfig. cbn [dbind]. unfold castling_guard_v.
  destruct (is_moved me) eqn:Em; simpl.
  { destruct fig; rewrite elem_of_dskip; split; try done; by intros (_ & ? & _). }
  destruct fig as [rk|]; simpl.
  2:{ rewrite elem_of_dskip. split; [done|]. by intros (_ & _ & (? & ? & _) & _). }
  case_bool_decide as Hr; simpl.
  2:{ rewrite elem_of_dskip. split; [done|].
      intros (_ & _ & (? & [= <-] & ? & _) & _). done. }
  case_bool_decide as Hp; simpl.
  2:{ rewrite elem_of_dskip. split; [done|].
      intros (_ & _ & (? & [= <-] & _ & ?) & _). done. }
  pose proof (all_none_v_true xs y Hx) as Hall.
  destruct (all_none_v_ok v Hreg xs y Hx) as [r Hr'].
  rewrite Hr'. simpl. destruct r.
  - rewrite elem_of_done_at. split.
    + intros ->. split; [done|]. split; [done|].
      split; [by exists rk|]. by apply Hall.
    + by intros [-> _].
  - rewrite elem_of_dskip. split; [done|].
    intros (_ & _ & _ & H%Hall). congruence.
Qed.

Lemma King_dests_elem x y d :
  is_inside (x, y) = true →
  d ∈ (King_dests me v x y).1 ↔
  (∃ vec, vec ∈ King_vectors ∧ d = (x + vec.1, y + vec.2) ∧
          is_inside d = true ∧ lands_ok v me d) ∨
  (d = (x - 2, y) ∧ can_castle v me 0 1 x y) ∨
  (d = (x + 2, y) ∧ can_castle v me 7 (x + 1) 7 y).
Proof.
  intros [Hx Hy]%is_inside_true. unfold King_dests.
  assert (is_inside (0, y) = true) as H0 by (apply is_inside_true; lia).
  assert (is_inside (7, y) = true) as H7 by (apply is_inside_true; lia).
  assert (∀ xx, xx ∈ range 1 x → is_inside (xx, y) = true) as Hl.
  { intros xx Hxx%elem_of_seqZ. apply is_inside_true. lia. }
  assert (∀ xx, xx ∈ range (x + 1) 7 → is_inside (xx, y) = true) as Hr.
  { intros xx Hxx%elem_of_seqZ. apply is_inside_true. lia. }
  rewrite dseq_elem by (apply discrete_dests_ok; exact Hreg).
  rewrite dseq_elem by (by apply castling_dests_ok).
  rewrite discrete_dests_elem, !castling_dests_elem by done.
  unfold can_castle, range. setoid_rewrite elem_of_seqZ.
  assert (∀ xx, 1 ≤ xx < 1 + (x - 1) ↔ 1 ≤ xx < x) as E1 by (intros; lia).
  assert (∀ xx, x + 1 ≤ xx < x + 1 + (7 - (x + 1)) ↔ x + 1 ≤ xx < 7) as E2
    by (intros; lia).
  setoid_rewrite E1. by setoid_rewrite E2.
Qed.

Lemma Pawn_dests_elem x y d :
  d ∈ (Pawn_dests me v x y).1 ↔
  (d = (x, y + direction (player me)) ∧ is_inside d = true ∧
   field_get v d = Ok None) ∨
  (d = (x, y + 2 * direction (player me)) ∧
   is_moved me = false ∧ y = pawn_start_row (player me) ∧
   is_inside (x, y + direction (player me)) = true ∧
   field_get v (x, y + direction (player me)) = Ok None ∧
   field_get v d = Ok None) ∨
  (∃ dx, (dx = -1 ∨ dx = 1) ∧ d = (x + dx, y + direction (player me)) ∧
         is_inside d = true ∧ enemy_at v me d).
Proof.
  unfold Pawn_dests. cbv zeta.
  set (dir := direction (player me)).
  rewrite dseq_elem.
  2:{ pose proof (Pawn_dests_ok me v Hreg x y) as Hok. unfold Pawn_dests in Hok.
      cbv zeta in Hok. fold dir in Hok.
      match type of Hok with
      | (dseq ?a _).2 = _ => destruct a as [ds [[]|e]]; [done|done]
      end. }
  assert (∀ A R P' Q' R' : Prop,
            (A ↔ P' ∨ Q') → (R ↔ R') → A ∨ R ↔ P' ∨ Q' ∨ R') as Hor
    by (intros; tauto).
  apply Hor.
  - (* the advances *)
    destruct (is_inside (x, y + dir)) eqn:Hi.
    2:{ rewrite elem_of_dskip. split; [done|].
        intros [(-> & ? & _)|(_ & _ & _ & ? & _)]; congruence. }
    destruct (field_get_regular v _ Hreg Hi) as [c Hc]. rewrite Hc. cbn [dbind].
    destruct c as [o|].
    { rewrite elem_of_dskip. split; [done|].
      intros [(-> & _ & ?)|(_ & _ & _ & _ & ? & _)]; congruence. }
    rewrite dseq_elem by done. rewrite elem_of_done_at.
    assert (∀ P Q P' Q' : Prop, (P ↔ P') → (Q ↔ Q') → P ∨ Q ↔ P' ∨ Q') as Hor2
      by (intros; tauto).
    apply Hor2.
    + split; [by intros ->|by intros [-> _]].
    + destruct (is_moved me) eqn:Em; simpl.
      { rewrite elem_of_dskip. split; [done|]. by intros (_ & ? & _). }
      case_bool_decide as Hy; simpl.
      2:{ rewrite elem_of_dskip. split; [done|]. by intros (_ & _ & ? & _). }
      assert (is_inside (x, y + 2 * dir) = true) as Hi2.
      { apply is_inside_true in Hi. apply is_inside_true. unfold dir in *.
        destruct (player me); simpl in *; lia. }
      destruct (field_get_regular v _ Hreg Hi2) as [c2 Hc2]. rewrite Hc2.
      cbn [dbind]. destruct c2 as [o2|].
      * rewrite elem_of_dskip. split; [done|].
        intros (-> & _ & _ & _ & _ & ?). congruence.
      * rewrite elem_of_done_at. split; [by intros ->|by intros [-> _]].
  - (* the captures *)
    rewrite dfor_elem.
    2:{ intros dx _. destruct (is_inside _) eqn:Hi; [|done].
        destruct (field_get_regular v _ Hreg Hi) as [c ->]. cbn [dbind].
        destruct c; [|done]. by case_bool_decide. }
    assert (∀ dx, d ∈ (if is_inside (x + dx, y + dir)
                       then dbind (field_get v (x + dx, y + dir))
                              (λ c, match c with
                                    | Some o =>
                                        if bool_decide (player o ≠ player me)
                                        then done_at (x + dx, y + dir)
                                        else dskip
                                    | None => dskip
                                    end)
                       else dskip).1 ↔
                  d = (x + dx, y + dir) ∧ is_inside d = true ∧ enemy_at v me d)
      as Hcap.
    { intros dx. unfold enemy_at. destruct (is_inside (x + dx, y + dir)) eqn:Hi.
      2:{ rewrite elem_of_dskip. split; [done|]. intros (-> & ? & _). congruence. }
      destruct (field_get_regular v _ Hreg Hi) as [c Hc]. rewrite Hc. cbn [dbind].
      destruct c as [o|].
      2:{ rewrite elem_of_dskip. split; [done|].
          intros (-> & _ & o & ? & _). congruence. }
      case_bool_decide as Hp.
      - rewrite elem_of_done_at. split; [|by intros [-> _]].
        intros ->. split; [done|]. split; [done|]. by exists o.
      - rewrite elem_of_dskip. split; [done|].
        intros (-> & _ & o' & ? & ?). congruence. }
    split.
    + intros (dx & Hdx & H%Hcap). exists dx. split; [|done].
      apply elem_of_cons in Hdx as [->|Hdx]; [by left|].
      apply list_elem_of_singleton in Hdx as ->. by right.
    + intros (dx & Hdx & H). exists dx. split; [|by apply Hcap].
      destruct Hdx as [-> | ->]; [left|right; left].
Qed.
End Rules.

Lemma Knight_vectors_step vec :
  vec ∈ Knight_vectors ↔ step_of Knight vec.1 vec.2.
Proof.
  destruct vec as [dx dy]. unfold Knight_vectors. simpl. split.
  - rewrite !elem_of_cons, elem_of_nil.
    intros H; repeat destruct H as [H|H]; try done; injection H as -> ->; lia.
  - intros H.
    assert (dx = -2 ∨ dx = -1 ∨ dx = 1 ∨ dx = 2) as Hx by lia.
    assert (dy = -2 ∨ dy = -1 ∨ dy = 1 ∨ dy = 2) as Hy by lia.
    destruct Hx as [-> | [-> | [-> | ->]]]; destruct Hy as [-> | [-> | [-> | ->]]];
      first [ exfalso; simpl in H; lia
            | rewrite !elem_of_cons; tauto ].
Qed.

Lemma King_vectors_step vec :
  vec ∈ King_vectors ↔ step_of King vec.1 vec.2.
Proof.
  destruct vec as [dx dy]. unfold King_vectors. simpl. split.
  - rewrite !elem_of_cons, elem_of_nil.
    intros H; repeat destruct H as [H|H]; try done; injection H as -> ->;
      (split; [simpl; lia|split; [simpl; lia|done]]).
  - intros (Hx & Hy & Hn).
    assert (dx = -1 ∨ dx = 0 ∨ dx = 1) as Hx' by lia.
    assert (dy = -1 ∨ dy = 0 ∨ dy = 1) as Hy' by lia.
    destruct Hx' as [-> | [-> | ->]]; destruct Hy' as [-> | [-> | ->]];
      first [ done | rewrite !elem_of_cons; tauto ].
Qed.

Lemma directions_step c dir :
  c = Bishop ∨ c = Rook ∨ c = Queen →
  dir ∈ match c with
        | Bishop => Bishop_directions
        | Rook => Rook_directions
        | _ => Queen_directions
        end ↔ step_of c dir.1 dir.2.
Proof.
  destruct dir as [dx dy]. simpl.
  intros [-> | [-> | ->]]; simpl; split.
  - unfold Bishop_directions. rewrite !elem_of_cons, elem_of_nil.
    intros H; repeat destruct H as [H|H]; try done; injection H as -> ->; lia.
  - intros [Hx Hy].
    assert (dx = -1 ∨ dx = 1) as Hx' by lia. assert (dy = -1 ∨ dy = 1) as Hy' by lia.
    unfold Bishop_directions.
    destruct Hx' as [-> | ->]; destruct Hy' as [-> | ->];
      rewrite !elem_of_cons; tauto.
  - unfold Rook_directions. rewrite !elem_of_cons, elem_of_nil.
    intros H; repeat destruct H as [H|H]; try done; injection H as -> ->; lia.
  - intros H.
    assert (dx = -1 ∨ dx = 0 ∨ dx = 1) as Hx' by lia.
    assert (dy = -1 ∨ dy = 0 ∨ dy = 1) as Hy' by lia.
    unfold Rook_directions.
    destruct Hx' as [-> | [-> | ->]]; destruct Hy' as [-> | [-> | ->]];
      first [ exfalso; simpl in H; lia | rewrite !elem_of_cons; tauto ].
  - unfold Queen_directions. rewrite !elem_of_cons, elem_of_nil.
    intros H; repeat destruct H as [H|H]; try done; injection H as -> ->;
      (split; [simpl; lia|split; [simpl; lia|done]]).
  - intros (Hx & Hy & Hn).
    assert (dx = -1 ∨ dx = 0 ∨ dx = 1) as Hx' by lia.
    assert (dy = -1 ∨ dy = 0 ∨ dy = 1) as Hy' by lia.
    unfold Queen_directions.
    destruct Hx' as [-> | [-> | ->]]; destruct Hy' as [-> | [-> | ->]];
      first [ done | rewrite !elem_of_cons; tauto ].
Qed.

Lemma step_of_nonzero c dx dy : step_of c dx dy → (dx, dy) ≠ (0, 0).
Proof. destruct c; simpl; intros H [= -> ->]; simpl in *; try lia; tauto. Qed.

Section MovementRules.
Context (h : Heap) (b : bref) (Hclosed : closed h b).
Context (Hreg : regular (field_of h b)).
Context (self : pref) (Hself : (self < length (pieces h))%nat).

Lemma destinations_pseudo x y :
  destination <$> (_possible_moves self x y b h).1.1 =
  (pseudo_dests (deref h self) (view h b) x y).1.
Proof.
  by destruct (gsim__possible_moves h b Hclosed self Hself x y h) as (-> & _).
Qed.

Lemma regular_view : regular (view h b).
Proof. by apply regular_fmap. Qed.
End MovementRules.

(** X8. The moves of a knight: on a regular board, [_possible_moves]
    yields a destination for a knight on (x, y) exactly when it is a
    knight's jump away, inside the board, and empty or held by the other
    player. *)
Theorem knight_moves h b self x y d :
  closed h b → regular (field_of h b) → (self < length (pieces h))%nat →
  cls (deref h self) = Knight →
  d ∈ destination <$> (_possible_moves self x y b h).1.1 ↔
  ∃ dx dy, step_of Knight dx dy ∧ d = (x + dx, y + dy) ∧
           is_inside d = true ∧ lands_ok (view h b) (deref h self) d.
Proof.
  intros Hc Hr Hs Hk. rewrite destinations_pseudo by done.
  unfold pseudo_dests. rewrite Hk.
  rewrite discrete_dests_elem by by apply regular_view.
  split.
  - intros ([dx dy] & Hv%Knight_vectors_step & H). by exists dx, dy.
  - intros (dx & dy & Hv & H). exists (dx, dy).
    split; [by apply Knight_vectors_step|done].
Qed.

(** X9. The moves of a bishop, a rook or a queen: on a regular board a
    destination is yielded exactly when it lies a number of steps of the
    piece away from (x, y), every square passed on the way is inside the
    board and empty, and the destination is inside the board and empty
    or held by the other player. *)
Theorem sliding_moves h b self x y d :
  closed h b → regular (field_of h b) → (self < length (pieces h))%nat →
  cls (deref h self) = Bishop ∨ cls (deref h self) = Rook ∨
  cls (deref h self) = Queen →
  d ∈ destination <$> (_possible_moves self x y b h).1.1 ↔
  ∃ dx dy m, step_of (cls (deref h self)) dx dy ∧ 1 ≤ m ∧
    d = (x + m * dx, y + m * dy) ∧
    (∀ k, 1 ≤ k < m →
       is_inside (x + k * dx, y + k * dy) = true ∧
       field_get (view h b) (x + k * dx, y + k * dy) = Ok None) ∧
    is_inside d = true ∧ lands_ok (view h b) (deref h self) d.
Proof.
  intros Hc Hr Hs Hk. rewrite destinations_pseudo by done.
  pose proof (regular_view h b Hr) as Hrv.
  assert (pseudo_dests (deref h self) (view h b) x y =
          straight_dests (deref h self) (view h b)
            match cls (deref h self) with
            | Bishop => Bishop_directions
            | Rook => Rook_directions
            | _ => Queen_directions
            end x y) as ->.
  { unfold pseudo_dests. by destruct Hk as [-> | [-> | ->]]. }
  rewrite straight_dests_elem; [|done|].
  2:{ apply Forall_forall. intros dir Hdir%directions_step; [|done].
      destruct dir. by eapply step_of_nonzero. }
  split.
  - intros ([dx dy] & m & Hdir%directions_step & H); [|done].
    by exists dx, dy, m.
  - intros (dx & dy & m & Hdir & H). exists (dx, dy), m.
    split; [by apply directions_step|done].
Qed.

(** X10. The moves of a king: on a regular board, from a square inside it, a
    destination is yielded exactly when it is one step away, inside the
    board, and empty or held by the other player; or when it is two
    columns to the left, respectively to the right, the king has not
    moved, a rook of its player stands in the left, respectively right,
    corner of the row and the squares between the king and that corner
    are empty. *)
Theorem king_moves h b self x y d :
  closed h b → regular (field_of h b) → (self < length (pieces h))%nat →
  cls (deref h self) = King → is_inside (x, y) = true →
  d ∈ destination <$> (_possible_moves self x y b h).1.1 ↔
  (∃ dx dy, step_of King dx dy ∧ d = (x + dx, y + dy) ∧
            is_inside d = true ∧ lands_ok (view h b) (deref h self) d) ∨
  (d = (x - 2, y) ∧ can_castle (view h b) (deref h self) 0 1 x y) ∨
  (d = (x + 2, y) ∧ can_castle (view h b) (deref h self) 7 (x + 1) 7 y).
Proof.
  intros Hc Hr Hs Hk Hi. rewrite destinations_pseudo by done.
  unfold pseudo_dests. rewrite Hk.
  rewrite King_dests_elem; [|by apply regular_view|done].
  assert (∀ A A' B : Prop, (A ↔ A') → A ∨ B ↔ A' ∨ B) as Hor by (intros; tauto).
  apply Hor. split.
  - intros ([dx dy] & Hv%King_vectors_step & H). by exists dx, dy.
  - intros (dx & dy & Hv & H). exists (dx, dy).
    split; [by apply King_vectors_step|done].
Qed.

(** X11. The moves of a pawn: on a regular board a destination is
    yielded exactly when it is the square in front of the pawn and empty;
    or the second square in front, both squares in front being empty, the
    pawn being on its start row and not having moved; or a square
    diagonally in front that holds a piece of the other player. *)
Theorem pawn_moves h b self x y d :
  closed h b → regular (field_of h b) → (self < length (pieces h))%nat →
  cls (deref h self) = Pawn →
  let me := deref h self in
  let dir := direction (player me) in
  d ∈ destination <$> (_possible_moves self x y b h).1.1 ↔
  (d = (x, y + dir) ∧ is_inside d = true ∧ field_get (view h b) d = Ok None) ∨
  (d = (x, y + 2 * dir) ∧ is_moved me = false ∧ y = pawn_start_row (player me) ∧
   is_inside (x, y + dir) = true ∧
   field_get (view h b) (x, y + dir) = Ok None ∧
   field_get (view h b) d = Ok None) ∨
  (∃ dx, (dx = -1 ∨ dx = 1) ∧ d = (x + dx, y + dir) ∧
         is_inside d = true ∧ enemy_at (view h b) me d).
Proof.
  intros Hc Hr Hs Hk me dir. subst me dir.
  rewrite destinations_pseudo by done.
  unfold pseudo_dests. rewrite Hk.
  apply Pawn_dests_elem. by apply regular_view.
Qed.

(** ** Reading and writing squares *)

Lemma py_index_lt n i k : py_index n i = Some k → (k < n)%nat.
Proof. unfold py_index. repeat case_bool_decide; intros [= <-]; lia. Qed.

Lemma py_index_nonneg n i k : 0 ≤ i → py_index n i = Some k → k = Z.to_nat i.
Proof. unfold py_index. repeat case_bool_decide; intros ? [= <-]; lia. Qed.

Lemma field_set_lookup {C} (f : list (list C)) pos c f' :
  field_set f pos c = Ok f' →
  ∃ j i row, py_index (length f) pos.2 = Some j ∧ f !! j = Some row ∧
             py_index (length row) pos.1 = Some i ∧
             f' = <[j := <[i := c]> row]> f.
Proof.
  unfold field_set. intros H.
  destruct (py_index (length f) pos.2) as [j|]; [|done].
  destruct (f !! j) as [row|] eqn:Er; [|done].
  destruct (py_index (length row) pos.1) as [i|] eqn:Ei; [|done].
  injection H as <-. by exists j, i, row.
Qed.

(** Reading the square that was written gives what was written. *)
Lemma field_set_get {C} (f : list (list C)) pos c f' :
  field_set f pos c = Ok f' → field_get f' pos = Ok c.
Proof.
  intros (j & i & row & Hj & Hr & Hi & ->)%field_set_lookup.
  unfold field_get. rewrite length_insert, Hj.
  rewrite list_lookup_insert_eq by by eapply lookup_lt_Some.
  rewrite length_insert, Hi.
  by rewrite list_lookup_insert_eq by by eapply py_index_lt.
Qed.

(** Reading another square gives what was there before. *)
Lemma field_set_get_other {C} (f : list (list C)) pos c f' pos' :
  0 ≤ pos.1 → 0 ≤ pos.2 → 0 ≤ pos'.1 → 0 ≤ pos'.2 → pos' ≠ pos →
  field_set f pos c = Ok f' → field_get f' pos' = field_get f pos'.
Proof.
  intros H1 H2 H1' H2' Hne (j & i & row & Hj & Hr & Hi & ->)%field_set_lookup.
  apply py_index_nonneg in Hj as ->; [|done].
  apply py_index_nonneg in Hi as ->; [|done].
  unfold field_get. rewrite length_insert.
  destruct (py_index (length f) pos'.2) as [j'|] eqn:Hj'; [|done].
  apply py_index_nonneg in Hj' as ->; [|done].
  destruct (decide (Z.to_nat pos'.2 = Z.to_nat pos.2)) as [E|E].
  - rewrite E, list_lookup_insert_eq by by eapply lookup_lt_Some.
    rewrite Hr, length_insert.
    destruct (py_index (length row) pos'.1) as [i'|] eqn:Hi'; [|done].
    apply py_index_nonneg in Hi' as ->; [|done].
    rewrite list_lookup_insert_ne; [done|].
    intros E'. apply Hne. destruct pos, pos'; simpl in *. f_equal; lia.
  - by rewrite list_lookup_insert_ne.
Qed.

Lemma field_of_default h b :
  (length (boards h) ≤ b)%nat → field_of h b = [].
Proof.
  intros Hb. unfold field_of. by rewrite list_lookup_total_alt, lookup_ge_None_2.
Qed.

(** X12. [board[pos] = c] followed by [board[pos]] gives [c]; on squares
    with coordinates from 0 upwards, every other square reads as before;
    no piece and no other board is written. *)
Theorem setitem_getitem h b pos c h' :
  setitem b pos c h = (Ok tt, h') →
  getitem b pos h' = (Ok c, h') ∧
  (∀ pos', 0 ≤ pos.1 → 0 ≤ pos.2 → 0 ≤ pos'.1 → 0 ≤ pos'.2 → pos' ≠ pos →
           (getitem b pos' h').1 = (getitem b pos' h).1) ∧
  pieces h' = pieces h ∧
  (∀ b', b' ≠ b → field_of h' b' = field_of h b').
Proof.
  unfold setitem, getitem, bind, get_field, set_field. simpl.
  destruct (field_set (field_of h b) pos c) as [f'|e] eqn:E; simpl; [|done].
  intros [= <-].
  assert (b < length (boards h))%nat as Hb.
  { destruct (decide (b < length (boards h))%nat) as [|Hn]; [done|].
    rewrite field_of_default in E by lia.
    unfold field_set, py_index in E. simpl in E.
    repeat case_bool_decide; (done || lia). }
  pose proof (field_set_get _ _ _ _ E) as Hget.
  unfold field_of in *. simpl.
  rewrite list_lookup_total_insert_eq by done.
  split; [by rewrite Hget|].
  split; [|split; [done|]].
  - intros pos' H1 H2 H1' H2' Hne.
    rewrite (field_set_get_other _ _ _ _ pos' H1 H2 H1' H2' Hne E).
    by case_match.
  - intros b' Hb'. by rewrite list_lookup_total_insert_ne.
Qed.

Lemma field_get_nonneg {C} (f : list (list C)) pos c :
  0 ≤ pos.1 → 0 ≤ pos.2 →
  field_get f pos = Ok c ↔
  ∃ row, f !! Z.to_nat pos.2 = Some row ∧ row !! Z.to_nat pos.1 = Some c.
Proof.
  intros H1 H2. unfold field_get, py_index. split.
  - repeat case_bool_decide; try done; try lia.
    destruct (f !! Z.to_nat pos.2) as [row|] eqn:Er; [|done].
    repeat case_bool_decide; try done; try lia.
    destruct (row !! Z.to_nat pos.1) as [c'|] eqn:Ec; [|done].
    intros [= <-]. by exists row.
  - intros (row & Hr & Hc).
    pose proof (lookup_lt_Some _ _ _ Hr). pose proof (lookup_lt_Some _ _ _ Hc).
    rewrite bool_decide_eq_true_2 by lia. rewrite Hr.
    rewrite bool_decide_eq_true_2 by lia. by rewrite Hc.
Qed.

Lemma elem_of_enumerate_row {C} (x y : nat) (row : list (option C)) pos c :
  (pos, c) ∈ enumerate_row x y row ↔
  pos.2 = Z.of_nat y ∧ ∃ i : nat, pos.1 = Z.of_nat (x + i) ∧ row !! i = Some (Some c).
Proof.
  revert x. induction row as [|[c'|] row IH]; intros x; simpl.
  - split; [by intros ?%elem_of_nil|]. by intros (_ & i & _ & ?).
  - rewrite elem_of_cons, IH. split.
    + intros [[= -> ->]|(Hy & i & Hx & Hi)].
      * split; [done|]. exists 0%nat. split; [simpl; lia|done].
      * split; [done|]. exists (S i). split; [lia|done].
    + intros (Hy & [|i] & Hx & Hi).
      * left. simpl in Hi. injection Hi as ->.
        destruct pos as [px py]; simpl in *. subst. repeat f_equal; lia.
      * right. split; [done|]. exists i. split; [lia|done].
  - rewrite IH. split.
    + intros (Hy & i & Hx & Hi). split; [done|]. exists (S i). split; [lia|done].
    + intros (Hy & [|i] & Hx & Hi); [done|].
      split; [done|]. exists i. split; [lia|done].
Qed.

Lemma elem_of_enumerate_rows {C} (y : nat) (f : list (list (option C))) pos c :
  (pos, c) ∈ enumerate_rows y f ↔
  ∃ (j i : nat) row, pos = (Z.of_nat i, Z.of_nat (y + j)) ∧
                     f !! j = Some row ∧ row !! i = Some (Some c).
Proof.
  revert y. induction f as [|row f IH]; intros y; simpl.
  - split; [by intros ?%elem_of_nil|]. by intros (j & i & row & _ & ? & _).
  - rewrite elem_of_app, elem_of_enumerate_row, IH. split.
    + intros [(Hy & i & Hx & Hi)|(j & i & row' & -> & Hj & Hi)].
      * exists 0%nat, i, row. split; [|done].
        destruct pos; simpl in *. f_equal; lia.
      * exists (S j), i, row'. split; [f_equal; lia|done].
    + intros ([|j] & i & row' & -> & Hj & Hi).
      * left. simpl in Hj. injection Hj as ->. simpl.
        split; [lia|]. by exists i.
      * right. exists j, i, row'. split; [f_equal; lia|done].
Qed.

(** X13. [iter_pieces] lists a square with a piece exactly when the
    square, named by coordinates from 0 upwards, holds that piece and the
    piece is the asked player's (any piece when no player is asked for). *)
Theorem iter_pieces_getitem h b pl :
  ∃ ps, iter_pieces b pl h = (Ok ps, h) ∧
    ∀ pos r, (pos, r) ∈ ps ↔
      0 ≤ pos.1 ∧ 0 ≤ pos.2 ∧ getitem b pos h = (Ok (Some r), h) ∧
      match pl with Some p => player (deref h r) = p | None => True end.
Proof.
  eexists. split; [reflexivity|]. intros pos r.
  rewrite list_elem_of_In, filter_In, <- list_elem_of_In. simpl.
  unfold enumerate_cells. rewrite elem_of_enumerate_rows.
  unfold getitem, bind, get_field. simpl.
  assert ((∃ (j i : nat) row, pos = (Z.of_nat i, Z.of_nat (0 + j)) ∧
             field_of h b !! j = Some row ∧ row !! i = Some (Some r)) ↔
          0 ≤ pos.1 ∧ 0 ≤ pos.2 ∧ field_get (field_of h b) pos = Ok (Some r))
    as ->.
  { split.
    - intros (j & i & row & -> & Hj & Hi). simpl.
      split; [lia|]. split; [lia|].
      apply field_get_nonneg; simpl; [lia|lia|].
      exists row. by rewrite !Nat2Z.id.
    - intros (H1 & H2 & (row & Hr & Hc)%field_get_nonneg); [|done|done].
      exists (Z.to_nat pos.2), (Z.to_nat pos.1), row.
      split; [|done]. destruct pos; simpl in *. f_equal; lia. }
  assert (match pl with Some p => bool_decide (player (deref h r) = p)
                      | None => true end = true ↔
          match pl with Some p => player (deref h r) = p | None => True end)
    as Hpl.
  { destruct pl; [apply bool_decide_eq_true|done]. }
  rewrite Hpl. split.
  - intros ((H1 & H2 & Hg) & Hp). by rewrite Hg.
  - intros (H1 & H2 & Hg & Hp). split; [|done].
    split; [done|]. split; [done|].
    unfold ret, raise in Hg. by repeat case_match; simplify_eq.
Qed.

(** ** The bounds of a board *)

Lemma py_index_8 i :
  py_index 8 i =
  if bool_decide (-8 ≤ i < 8) then Some (Z.to_nat (i `mod` 8)) else None.
Proof.
  unfold py_index. change (Z.of_nat 8) with 8.
  repeat case_bool_decide; try lia; try done; f_equal;
    Z.div_mod_to_equations; lia.
Qed.

Lemma field_get_regular_8 {C} (f : list (list C)) pos :
  regular f →
  if bool_decide (-8 ≤ pos.1 < 8) && bool_decide (-8 ≤ pos.2 < 8)
  then ∃ c, field_get f pos = Ok c ∧
            field_get f (pos.1 `mod` 8, pos.2 `mod` 8) = Ok c
  else field_get f pos = Raise IndexError.
Proof.
  intros [H1 H2]. unfold field_get. simpl. rewrite H1, !py_index_8.
  pose proof (Z.mod_pos_bound pos.1 8) as Hx.
  pose proof (Z.mod_pos_bound pos.2 8) as Hy.
  rewrite (bool_decide_eq_true_2 (-8 ≤ pos.2 `mod` 8 < 8)) by lia.
  rewrite Z.mod_mod by lia.
  destruct (bool_decide (-8 ≤ pos.2 < 8)) eqn:Ey; simpl;
    [|by rewrite andb_false_r].
  rewrite andb_true_r.
  destruct (lookup_lt_is_Some_2 f (Z.to_nat (pos.2 `mod` 8))) as [row Hrow];
    [lia|].
  rewrite Hrow, (Forall_lookup_1 _ _ _ _ H2 Hrow), !py_index_8.
  rewrite (bool_decide_eq_true_2 (-8 ≤ pos.1 `mod` 8 < 8)) by lia.
  rewrite Z.mod_mod by lia.
  destruct (bool_decide (-8 ≤ pos.1 < 8)) eqn:Ex; simpl; [|done].
  destruct (lookup_lt_is_Some_2 row (Z.to_nat (pos.1 `mod` 8))) as [c Hc].
  { rewrite (Forall_lookup_1 _ _ _ _ H2 Hrow). lia. }
  rewrite Hc. by exists c.
Qed.

(** X14. On a board of eight rows of eight squares, [board[pos]] raises
    IndexError exactly when a coordinate is outside -8..7; a coordinate
    from -8 to -1 names the square that the coordinate plus 8 names. *)
Theorem getitem_bounds h b pos :
  regular (field_of h b) →
  (-8 ≤ pos.1 < 8 → -8 ≤ pos.2 < 8 →
   ∃ c, getitem b pos h = (Ok c, h) ∧
        getitem b (pos.1 `mod` 8, pos.2 `mod` 8) h = (Ok c, h)) ∧
  (¬ (-8 ≤ pos.1 < 8 ∧ -8 ≤ pos.2 < 8) →
   getitem b pos h = (Raise IndexError, h)).
Proof.
  intros Hr. pose proof (field_get_regular_8 (field_of h b) pos Hr) as H.
  unfold getitem, bind, get_field. simpl. split.
  - intros Hx Hy. rewrite !bool_decide_eq_true_2 in H by done. simpl in H.
    destruct H as (c & -> & ->). by exists c.
  - intros Hn.
    destruct (bool_decide (-8 ≤ pos.1 < 8)) eqn:Ex;
      destruct (bool_decide (-8 ≤ pos.2 < 8)) eqn:Ey; simpl in H;
      try by rewrite H.
    apply bool_decide_eq_true in Ex, Ey. tauto.
Qed.

(** ** What executing a move leaves on the board *)

Lemma regular_insert {C} (f : list (list C)) j i c row :
  regular f → f !! j = Some row → regular (<[j := <[i := c]> row]> f).
Proof.
  intros [H1 H2] Hr. split; [by rewrite length_insert|].
  apply Forall_insert; [done|]. rewrite length_insert.
  by eapply (Forall_lookup_1 _ _ _ _ H2).
Qed.

Lemma regular_bound h b : regular (field_of h b) → (b < length (boards h))%nat.
Proof.
  intros [Hl _]. destruct (decide (b < length (boards h))%nat); [done|].
  rewrite field_of_default in Hl by lia. done.
Qed.

Lemma is_inside_nonneg pos : is_inside pos = true → 0 ≤ pos.1 ∧ 0 ≤ pos.2.
Proof. destruct pos. intros ?%is_inside_true. simpl. lia. Qed.

(** Writing a square of a regular field. *)
Lemma field_set_regular {C} (f : list (list C)) pos c :
  regular f → is_inside pos = true →
  ∃ f', field_set f pos c = Ok f' ∧ regular f' ∧
        field_get f' pos = Ok c ∧
        ∀ pos', is_inside pos' = true → pos' ≠ pos →
                field_get f' pos' = field_get f pos'.
Proof.
  intros Hr Hi.
  assert (∃ f', field_set f pos c = Ok f') as [f' E].
  { destruct Hr as [H1 H2]. destruct pos as [x y].
    apply is_inside_true in Hi as [Hx Hy].
    unfold field_set. simpl. rewrite H1, py_index_inside by done.
    destruct (lookup_lt_is_Some_2 f (Z.to_nat y)) as [row Hrow]; [lia|].
    rewrite Hrow, (Forall_lookup_1 _ _ _ _ H2 Hrow), py_index_inside by done.
    by eexists. }
  exists f'. split; [done|]. split; [|split].
  - apply field_set_lookup in E as (j & i & row & _ & Hrow & _ & ->).
    by apply regular_insert.
  - by eapply field_set_get.
  - intros pos' Hi' Hne.
    apply is_inside_nonneg in Hi as [A1 A2].
    apply is_inside_nonneg in Hi' as [B1 B2].
    exact (field_set_get_other f pos c f' pos' A1 A2 B1 B2 Hne E).
Qed.

Lemma deref_mark_eq ps bs r :
  (r < length ps)%nat → deref (mkHeap (mark r ps) bs) r = moved (ps !!! r).
Proof.
  intros Hr. unfold deref, mark. simpl.
  by rewrite list_lookup_total_insert_eq.
Qed.

Lemma deref_mark_ne ps bs r r' :
  r ≠ r' → deref (mkHeap (mark r ps) bs) r' = ps !!! r'.
Proof. intros Hr. unfold deref. simpl. by apply mark_other. Qed.

Lemma field_of_insert_eq ps (bs : list Field) b f :
  (b < length bs)%nat → field_of (mkHeap ps (<[b := f]> bs)) b = f.
Proof. intros Hb. unfold field_of. simpl. by rewrite list_lookup_total_insert_eq. Qed.

Lemma field_of_insert_ne ps (bs : list Field) b b' f :
  b' ≠ b → field_of (mkHeap ps (<[b := f]> bs)) b' = bs !!! b'.
Proof. intros Hb. unfold field_of. simpl. by rewrite list_lookup_total_insert_ne. Qed.

(** X15. Executing a plain move between two different squares of a
    regular board succeeds; afterwards the piece stands on the
    destination, the start square is empty, every other square is as
    before, the piece is marked as moved and nothing else has changed. *)
Theorem execute_plain h b (p : pref) s d :
  regular (field_of h b) → (p < length (pieces h))%nat →
  is_inside s = true → is_inside d = true → s ≠ d →
  ∃ h', execute (MovePlain p s d) b h = (Ok tt, h') ∧
    field_get (field_of h' b) d = Ok (Some p) ∧
    field_get (field_of h' b) s = Ok None ∧
    (∀ pos, is_inside pos = true → pos ≠ s → pos ≠ d →
            field_get (field_of h' b) pos = field_get (field_of h b) pos) ∧
    deref h' p = moved (deref h p) ∧
    (∀ r, r ≠ p → deref h' r = deref h r) ∧
    (∀ b', b' ≠ b → field_of h' b' = field_of h b') ∧
    regular (field_of h' b).
Proof.
  intros Hr Hp Hs Hd Hne.
  pose proof (regular_bound h b Hr) as Hb.
  pose proof (execute_spec h b (MovePlain p s d) Hb) as He.
  unfold exec_cells, rbind, id in He. simpl in He.
  destruct (field_set_regular (field_of h b) d (Some p) Hr Hd)
    as (f1 & E1 & Hr1 & G1 & O1).
  destruct (field_set_regular f1 s None Hr1 Hs) as (f2 & E2 & Hr2 & G2 & O2).
  rewrite E1, E2 in He. eexists. split; [exact He|].
  rewrite field_of_insert_eq by done.
  split; [by rewrite O2|]. split; [done|]. split.
  { intros pos Hi H1 H2. by rewrite O2, O1. }
  split; [by apply deref_mark_eq|]. split.
  { intros r Hn. by apply deref_mark_ne. }
  split; [|done]. intros b' Hb'. by apply field_of_insert_ne.
Qed.

(** X16. Executing a promotion between two different squares of a
    regular board succeeds; afterwards the promoted piece, not the pawn,
    stands on the destination, the start square is empty and every other
    square is as before; the pawn is marked as moved and no other piece
    has changed. *)
Theorem execute_promotion h b (p : pref) s d (q : pref) :
  regular (field_of h b) → (p < length (pieces h))%nat →
  is_inside s = true → is_inside d = true → s ≠ d →
  ∃ h', execute (MoveWithPromotion p s d q) b h = (Ok tt, h') ∧
    field_get (field_of h' b) d = Ok (Some q) ∧
    field_get (field_of h' b) s = Ok None ∧
    (∀ pos, is_inside pos = true → pos ≠ s → pos ≠ d →
            field_get (field_of h' b) pos = field_get (field_of h b) pos) ∧
    deref h' p = moved (deref h p) ∧
    (∀ r, r ≠ p → deref h' r = deref h r) ∧
    (∀ b', b' ≠ b → field_of h' b' = field_of h b') ∧
    regular (field_of h' b).
Proof.
  intros Hr Hp Hs Hd Hne.
  pose proof (regular_bound h b Hr) as Hb.
  pose proof (execute_spec h b (MoveWithPromotion p s d q) Hb) as He.
  unfold exec_cells, rbind, id in He. simpl in He.
  destruct (field_set_regular (field_of h b) d (Some p) Hr Hd)
    as (f1 & E1 & Hr1 & G1 & O1).
  destruct (field_set_regular f1 s None Hr1 Hs) as (f2 & E2 & Hr2 & G2 & O2).
  destruct (field_set_regular f2 d (Some q) Hr2 Hd) as (f3 & E3 & Hr3 & G3 & O3).
  rewrite E1, E2, E3 in He. eexists. split; [exact He|].
  rewrite field_of_insert_eq by done.
  split; [done|]. split; [by rewrite O3|]. split.
  { intros pos Hi H1 H2. by rewrite O3, O2, O1. }
  split; [by apply deref_mark_eq|]. split.
  { intros r Hn. by apply deref_mark_ne. }
  split; [|done]. intros b' Hb'. by apply field_of_insert_ne.
Qed.

(** X17. Executing a castling whose four squares are different squares
    of a regular board succeeds; afterwards the king and the rook stand
    on their destinations, their start squares are empty and every other
    square is as before; both pieces are marked as moved and no other
    piece has changed. *)
Theorem execute_castling h b (p : pref) s d (rk : pref) rs rd :
  regular (field_of h b) →
  (p < length (pieces h))%nat → (rk < length (pieces h))%nat → rk ≠ p →
  is_inside s = true → is_inside d = true →
  is_inside rs = true → is_inside rd = true →
  s ≠ d → rs ≠ rd → s ≠ rd → d ≠ rd → d ≠ rs →
  ∃ h', execute (MoveCastling p s d rk rs rd) b h = (Ok tt, h') ∧
    field_get (field_of h' b) d = Ok (Some p) ∧
    field_get (field_of h' b) rd = Ok (Some rk) ∧
    field_get (field_of h' b) s = Ok None ∧
    field_get (field_of h' b) rs = Ok None ∧
    (∀ pos, is_inside pos = true → pos ≠ s → pos ≠ d → pos ≠ rs → pos ≠ rd →
            field_get (field_of h' b) pos = field_get (field_of h b) pos) ∧
    deref h' p = moved (deref h p) ∧
    deref h' rk = moved (deref h rk) ∧
    (∀ r, r ≠ p → r ≠ rk → deref h' r = deref h r) ∧
    (∀ b', b' ≠ b → field_of h' b' = field_of h b') ∧
    regular (field_of h' b).
Proof.
  intros Hr Hp Hrk Hpk Hs Hd Hrs Hrd N1 N2 N3 N4 N5.
  pose proof (regular_bound h b Hr) as Hb.
  pose proof (execute_spec h b (MoveCastling p s d rk rs rd) Hb) as He.
  unfold exec_cells, rbind, id in He. simpl in He.
  destruct (field_set_regular (field_of h b) d (Some p) Hr Hd)
    as (f1 & E1 & Hr1 & G1 & O1).
  destruct (field_set_regular f1 s None Hr1 Hs) as (f2 & E2 & Hr2 & G2 & O2).
  destruct (field_set_regular f2 rd (Some rk) Hr2 Hrd) as (f3 & E3 & Hr3 & G3 & O3).
  destruct (field_set_regular f3 rs None Hr3 Hrs) as (f4 & E4 & Hr4 & G4 & O4).
  rewrite E1, E2, E3, E4 in He. eexists. split; [exact He|].
  rewrite field_of_insert_eq by done.
  split; [by rewrite O4, O3, O2|].
  split; [by rewrite O4|].
  split.
  { destruct (decide (s = rs)) as [->|]; [done|]. by rewrite O4, O3. }
  split; [done|]. split.
  { intros pos Hi H1 H2 H3 H4. by rewrite O4, O3, O2, O1. }
  split.
  { unfold deref. simpl. rewrite mark_other by done.
    unfold mark. by rewrite list_lookup_total_insert_eq. }
  split.
  { unfold deref. simpl. unfold mark at 1.
    rewrite list_lookup_total_insert_eq by by rewrite mark_length.
    by rewrite mark_other. }
  split.
  { intros r H1 H2. unfold deref. simpl. by rewrite !mark_other. }
  split; [|done]. intros b' Hb'. by apply field_of_insert_ne.
Qed.

(** ** Legal moves, read off the position *)

Lemma piece_eta p : mkPiece (cls p) (player p) (is_moved p) = p.
Proof. by destruct p. Qed.

Lemma lookup_total_snoc_last (l : list Piece) x : (l ++ [x]) !!! length l = x.
Proof.
  apply list_lookup_total_correct. rewrite lookup_app_r by done.
  by rewrite Nat.sub_diag.
Qed.

Lemma lookup_total_snoc_old (l : list Piece) x i :
  (i < length l)%nat → (l ++ [x]) !!! i = l !!! i.
Proof. intros Hi. by rewrite lookup_total_app_l. Qed.

Lemma deepcopy_move_copy h m :
  Forall (λ r, (r < length (pieces h))%nat) (refs m) →
  ∃ m' h', deepcopy_move m h = (Ok m', h') ∧ h ⊑ h' ∧
           boards h' = boards h ∧
           Forall (λ r, (length (pieces h) ≤ r < length (pieces h'))%nat)
                  (refs m') ∧
           copy_of h h' m m'.
Proof.
  intros Hv.
  assert (∀ p x, deref (mkHeap (pieces h ++ [x]) (boards h)) p =
                 (pieces h ++ [x]) !!! p) as Hd1 by done.
  destruct m as [p s d|p s d q|p s d rk rs rd];
    unfold deepcopy_move, deepcopy_piece, bind, read, new_piece, ret; simpl.
  - eexists _, _. split; [done|]. split; [apply extends_snoc|]. split; [done|].
    split; [repeat constructor; simpl; rewrite ?length_app; simpl; lia|].
    split; [done|]. split; [done|]. split; [|done].
    simpl. by rewrite deref_snoc, piece_eta.
  - inversion Hv as [|? ? Hp Hv']; inversion Hv' as [|? ? Hq _]; subst.
    destruct (decide (q = p)) as [->|Hne]; simpl; eexists _, _; (split; [done|]).
    + split; [apply extends_snoc|]. split; [done|].
      split; [repeat constructor; simpl; rewrite ?length_app; simpl; lia|].
      split; [done|]. split; [done|]. simpl. rewrite deref_snoc, piece_eta.
      done.
    + split; [etrans; [apply extends_snoc|apply (extends_snoc (mkHeap _ _))]|].
      split; [done|].
      split; [repeat constructor; simpl; rewrite ?length_app; simpl; lia|].
      split; [done|]. split; [done|]. unfold deref. simpl.
      rewrite lookup_total_snoc_old by (rewrite length_app; simpl; lia).
      rewrite !lookup_total_snoc_last, !piece_eta.
      rewrite lookup_total_snoc_old by done.
      split; [done|]. split; [done|]. intros _.
      rewrite length_app. simpl. lia.
  - inversion Hv as [|? ? Hp Hv']; inversion Hv' as [|? ? Hq _]; subst.
    destruct (decide (rk = p)) as [->|Hne]; simpl; eexists _, _; (split; [done|]).
    + split; [apply extends_snoc|]. split; [done|].
      split; [repeat constructor; simpl; rewrite ?length_app; simpl; lia|].
      split; [done|]. split; [done|]. simpl. rewrite deref_snoc, piece_eta.
      done.
    + split; [etrans; [apply extends_snoc|apply (extends_snoc (mkHeap _ _))]|].
      split; [done|].
      split; [repeat constructor; simpl; rewrite ?length_app; simpl; lia|].
      split; [done|]. split; [done|]. unfold deref. simpl.
      rewrite lookup_total_snoc_old by (rewrite length_app; simpl; lia).
      rewrite !lookup_total_snoc_last, !piece_eta.
      rewrite lookup_total_snoc_old by done.
      split; [done|]. split; [done|]. split; [done|]. split; [done|].
      intros _. rewrite length_app. simpl. lia.
Qed.

(** Executing a move of the shape that [_possible_moves] yields, with
    [g] telling what its pieces look like once it is executed, is
    [after_move]. *)
Lemma exec_cells_after (g : pref → Piece) h0 b self x y hi m m' hc :
  pseudo_ok h0 b self x y hi m →
  copy_of hi hc m m' →
  h0 ⊑ hi → (self < length (pieces h0))%nat →
  g (piece m') = moved (deref h0 self) →
  (∀ p s d q, m' = MoveWithPromotion p s d q →
              g q = mkPiece Queen (player (deref h0 self)) false) →
  (∀ p s d rk rs rd rk0 p0 s0 d0 rs0 rd0,
     m' = MoveCastling p s d rk rs rd → m = MoveCastling p0 s0 d0 rk0 rs0 rd0 →
     g rk = moved (deref h0 rk0)) →
  exec_cells g m' (view h0 b) =
  after_move (deref h0 self) (view h0 b) x y (destination m).
Proof.
  intros (Hp & Hs & Hshape) (Cs & Cd & Cp & Ck) Hh Hself Gp Gq Grk.
  unfold exec_cells, after_move. rewrite Cs, Cd, Hs, Gp.
  destruct (field_set (view h0 b) (destination m) _) as [v1|e]; [|done].
  cbn [rbind]. destruct (field_set v1 (x, y) None) as [v2|e]; [|done].
  cbn [rbind].
  destruct m as [p s d|p s d q|p s d rk rs rd];
    destruct m' as [p' s' d'|p' s' d' q'|p' s' d' rk' rs' rd']; try done;
    simpl in *.
  - destruct Hshape as (_ & _ & Hpawn & Hking).
    destruct (cls (deref h0 self)) eqn:Ec; try done.
    + rewrite bool_decide_eq_false_2; [done|]. by apply Hpawn.
    + specialize (Hking eq_refl).
      rewrite !bool_decide_eq_false_2; [done|lia|lia].
  - destruct Hshape as (Ec & _ & _ & Hrow & _). rewrite Ec.
    rewrite bool_decide_eq_true_2 by done. subst d'.
    by rewrite (Gq p' s' d q' eq_refl).
  - destruct Hshape as (Ec & _ & _ & Hrook & _ & _ & Hside). rewrite Ec.
    destruct Ck as (_ & -> & -> & _).
    rewrite (Grk p' s' d' rk' rs rd rk p s d rs rd eq_refl eq_refl).
    destruct Hside as [(-> & -> & -> & _)|(-> & -> & -> & _)]; simpl.
    + rewrite bool_decide_eq_true_2 by done.
      unfold castle_cells. by rewrite Hrook.
    + rewrite bool_decide_eq_false_2 by lia.
      rewrite bool_decide_eq_true_2 by done.
      unfold castle_cells. by rewrite Hrook.
Qed.

Section TryMove.
Context (h : Heap) (b : bref) (Hclosed : closed h b).
Context (self : pref) (Hself : (self < length (pieces h))%nat).
Context (x y : Z).

Local Abbreviation me := (deref h self).
Local Abbreviation v := (view h b).

(** [try_move] yields the copy of the move exactly when the position
    says that the move keeps the mover's player out of check; it raises
    exactly when the position says so. *)
Lemma try_move_view m hi :
  h ⊑ hi → pseudo_ok h b self x y hi m →
  hi ⊑ (try_move self b m hi).2 ∧
  destination <$> (try_move self b m hi).1.1 =
    (dbind (keeps_safe me v x y (destination m))
       (λ c, if negb c then done_at (destination m) else dskip)).1 ∧
  (try_move self b m hi).1.2 =
    (dbind (keeps_safe me v x y (destination m))
       (λ c, if negb c then done_at (destination m) else dskip)).2 ∧
  Forall (λ m', exec_cells (deref (try_move self b m hi).2) m' v =
                after_move me v x y (destination m'))
         (try_move self b m hi).1.1.
Proof.
  intros Hi Hok. split; [by apply gsafe_try_move|].
  apply and_assoc.
  unfold try_move, gbind, keeps_safe.
  destruct (deepcopy_board_spec hi b) as (hb & Eb & Hib & Hcb & Hvb).
  { by eapply closed_extends. }
  rewrite Eb. set (nb := length (boards hi)) in *.
  assert (h ⊑ hb) as Hhb by by etrans.
  pose proof (extends_pieces_length _ _ Hhb) as Hl1.
  pose proof (extends_pieces_length _ _ Hib) as Hl0.
  pose proof (extends_pieces_length _ _ Hi) as Hl00.
  (* the pieces of the move exist *)
  assert (Forall (λ r, (r < length (pieces hb))%nat) (refs m)) as Hrefs0.
  { destruct Hok as (Hp & _ & Hshape).
    destruct m as [p s d|p s d q|p s d rk rs rd]; simpl in *; subst.
    - repeat constructor. lia.
    - destruct Hshape as (_ & _ & _ & _ & Hq%lookup_lt_Some).
      repeat constructor; lia.
    - destruct Hshape as (_ & _ & Hrk & _). repeat constructor; lia. }
  destruct (deepcopy_move_copy hb m Hrefs0)
    as (m' & hc & Ec & Hbc & Hbds & Hrefs & Hcopy).
  rewrite Ec.
  assert (nb < length (boards hc))%nat as Hnb.
  { rewrite Hbds. by destruct Hcb. }
  pose proof (extends_pieces_length _ _ Hbc) as Hl2.
  (* what the pieces look like once the move is executed *)
  set (g := λ r : pref, mark_written m' (pieces hc) !!! r).
  assert (∀ r, (r < length (pieces hb))%nat → g r = deref hb r) as Hold.
  { intros r Hr. unfold g. rewrite mark_written_other.
    - by apply (extends_deref hb hc).
    - intros Hin%written_refs.
      destruct (proj1 (Forall_forall _ _) Hrefs r Hin). lia. }
  assert (view h b = map (map (fmap (M := option) g)) (field_of hc nb)) as Hview.
  { rewrite <- (view_extends h hi b) by done. rewrite <- Hvb. unfold view.
    destruct Hcb as [Hcb1 Hcb2].
    rewrite (extends_field_of hb hc) by done.
    apply map_ext_Forall. eapply Forall_impl; [exact Hcb2|]. intros row Hrow.
    apply map_ext_Forall. eapply Forall_impl; [exact Hrow|].
    intros [r|] Hr; simpl; [|done]. f_equal. symmetry. by apply Hold. }
  assert (copy_of hi hc m m') as Hcopy'.
  { destruct Hcopy as (C1 & C2 & C3 & C4). split; [done|]. split; [done|].
    destruct Hok as (Hp & _ & Hshape).
    split.
    { rewrite C3. apply (extends_deref hi hb); [done|]. rewrite Hp. lia. }
    destruct m as [p s d|p s d q|p s d rk rs rd];
      destruct m' as [p' s' d'|p' s' d' q'|p' s' d' rk' rs' rd']; try done.
    - destruct C4 as [C4 C5]. split; [|done]. rewrite C4.
      destruct Hshape as (_ & _ & _ & _ & Hq%lookup_lt_Some).
      by apply (extends_deref hi hb).
    - destruct C4 as (C4 & C5 & C6 & C7). split; [|done]. rewrite C4.
      destruct Hshape as (_ & _ & Hrk & _).
      apply (extends_deref hi hb); [done|lia]. }
  assert (exec_cells g m' (view h b) =
          after_move me v x y (destination m)) as Hafter.
  { destruct Hcopy as (C1 & C2 & C3 & C4).
    destruct Hok as (Hp & Hs & Hshape).
    assert (deref hb self = me) as Hme by by apply extends_deref.
    eapply (exec_cells_after g h b self x y hi m m' hc);
      [by split|exact Hcopy'|done|done|..].
    - (* the mover *)
      unfold g. rewrite <- Hme, <- Hp, <- C3.
      destruct m as [p s d|p s d q|p s d rk rs rd];
        destruct m' as [p' s' d'|p' s' d' q'|p' s' d' rk' rs' rd']; try done;
        simpl in *.
      + inversion Hrefs as [|? ? [? ?] _]; subst.
        unfold mark. by rewrite list_lookup_total_insert_eq.
      + inversion Hrefs as [|? ? [? ?] _]; subst.
        unfold mark. by rewrite list_lookup_total_insert_eq.
      + inversion Hrefs as [|? ? [? ?] _]; subst.
        destruct C4 as (C4 & _ & _ & Hne).
        rewrite mark_other.
        * unfold mark. by rewrite list_lookup_total_insert_eq.
        * apply Hne. destruct Hshape as (Ek & _ & _ & _ & Er & _).
          intros ->. rewrite Ek in Er. done.
    - (* the new queen *)
      intros p' s' d' q' ->.
      destruct m as [p s d|p s d q|p s d rk rs rd]; try done. simpl in *.
      destruct C4 as [C4 Hne].
      destruct Hshape as (Ek & _ & _ & _ & Hq).
      assert (deref hi q = mkPiece Queen (player me) false) as Eq
        by by apply list_lookup_total_correct.
      unfold g. simpl. rewrite mark_other.
      + fold (deref hc q'). rewrite C4.
        rewrite (extends_deref hi hb); [done|done|].
        by apply lookup_lt_Some in Hq.
      + intros E. apply Hne; [|by symmetry]. intros ->. subst p.
        rewrite (extends_deref h hi) in Eq by done.
        rewrite Eq in Ek. done.
    - (* the rook *)
      intros p' s' d' rk' rs' rd' rk0 p0 s0 d0 rs0 rd0 -> ->. simpl in *.
      destruct C4 as (C4 & _ & _ & Hne).
      destruct Hshape as (Ek & _ & Hrk & _ & Er & _).
      inversion Hrefs as [|? ? _ Hr']; inversion Hr' as [|? ? [? ?] _]; subst.
      unfold g. simpl. unfold mark at 1.
      rewrite list_lookup_total_insert_eq by by rewrite mark_length.
      rewrite mark_other.
      + fold (deref hc rk'). rewrite C4.
        by rewrite (extends_deref h hb) by done.
      + intros E. apply Hne; [|by symmetry]. intros ->. subst.
        rewrite Ek in Er. done. }
  assert (destination m' = destination m) as Hdest
    by by destruct Hcopy as (_ & ? & _).
  assert (∀ hf bs, mkHeap (mark_written m' (pieces hc)) bs ⊑ hf →
                   exec_cells (deref hf) m' (view h b) =
                   after_move me v x y (destination m')) as Hlater.
  { intros hf bs Hbs. rewrite Hdest, <- Hafter. apply exec_cells_ext.
    eapply Forall_impl; [exact Hrefs|]. intros r [_ Hr]. simpl.
    rewrite (extends_deref _ hf r Hbs); [done|].
    simpl. by rewrite mark_written_length. }
  unfold me, v in *. rewrite <- Hafter.
  rewrite Hview, exec_cells_fmap.
  pose proof (execute_spec hc nb m' Hnb) as He.
  destruct (exec_cells id m' (field_of hc nb)) as [f'|e] eqn:Ef.
  2:{ destruct (execute m' nb hc) as [[[]|e'] he]; simpl in *; [done|].
      injection He as ->. split; [done|constructor]. }
  rewrite He. clear He. cbn [rbind].
  set (he := mkHeap (mark_written m' (pieces hc)) (<[nb := f']> (boards hc))).
  unfold read. simpl.
  assert (deref he self = deref h self) as ->.
  { change (deref he self) with (g self). rewrite Hold by lia.
    by apply extends_deref. }
  assert (field_of he nb = f') as Hfo.
  { unfold field_of, he. simpl. by apply list_lookup_total_insert_eq. }
  assert (closed hc nb) as Hcc by by eapply closed_extends.
  assert (closed he nb) as Hce.
  { split; [unfold he; simpl; by rewrite length_insert|].
    rewrite Hfo. destruct Hcc as [_ Hcc].
    assert (closed_field hc f') as Hf'.
    { apply (exec_cells_closed hc m' (field_of hc nb)); [done| |done].
      eapply Forall_impl; [exact Hrefs|]. intros r [_ ?]. done. }
    eapply Forall_impl; [exact Hf'|]. intros row Hrow.
    eapply Forall_impl; [exact Hrow|]. intros [r|]; simpl; [|done].
    by rewrite mark_written_length. }
  pose proof (is_in_check_view he nb (player (deref h self)) Hce) as Hv.
  unfold view in Hv. rewrite Hfo in Hv.
  change (deref he) with g in Hv.
  change (pieces h !!! self) with (deref h self). rewrite <- Hv.
  pose proof (safe_is_in_check nb (player (deref h self)) he he) as [Hs1 _];
    [done|].
  destruct (is_in_check nb _ he) as [[c|e] h1]; simpl in *;
    [|split; [done|constructor]].
  destruct c; simpl; [split; [done|constructor]|].
  split; [by rewrite Hdest|]. constructor; [|constructor]. rewrite <- Hview.
  exact (Hlater h1 (<[nb := f']> (boards hc)) Hs1).
Qed.

Lemma gfor_try_move_view ms hi :
  h ⊑ hi → Forall (pseudo_ok h b self x y hi) ms →
  hi ⊑ (gfor ms (try_move self b) hi).2 ∧
  destination <$> (gfor ms (try_move self b) hi).1.1 =
    (dfor (destination <$> ms) (λ d,
       dbind (keeps_safe me v x y d)
         (λ c, if negb c then done_at d else dskip))).1 ∧
  (gfor ms (try_move self b) hi).1.2 =
    (dfor (destination <$> ms) (λ d,
       dbind (keeps_safe me v x y d)
         (λ c, if negb c then done_at d else dskip))).2.
Proof.
  intros Hi Hms. revert hi Hi Hms.
  induction ms as [|m ms IH]; intros hi Hi Hms; [done|].
  inversion Hms as [|? ? Hm Hms']; subst.
  cbn [gfor fmap list_fmap dfor]. unfold gseq, dseq.
  destruct (try_move_view m hi Hi Hm) as (H1 & H2 & H3 & _).
  destruct (try_move self b m hi) as [[ys r] h1]; simpl in H1, H2, H3.
  destruct (dbind (keeps_safe me v x y (destination m)) _) as [ds r'].
  simpl in H2, H3. subst ds r'. destruct r as [[]|e]; [|done].
  destruct (IH h1) as (H4 & H5 & H6).
  - by etrans.
  - eapply Forall_impl; [exact Hms'|]. intros m'.
    by apply stable_pseudo_ok.
  - destruct (gfor ms (try_move self b) h1) as [[ys' r'] h2]; simpl in *.
    split; [by etrans|]. by rewrite fmap_app, H5.
Qed.

(** [Piece.possible_moves] computes what the position says. *)
Lemma gsim_possible_moves :
  gsim h (possible_moves self x y b) (legal_dests me v x y).
Proof.
  intros hi Hi. unfold possible_moves, legal_dests.
  destruct (gsim__possible_moves h b Hclosed self Hself x y hi Hi)
    as (Hd & Hr & Hp).
  destruct (gpost__possible_moves h b Hclosed self Hself x y hi Hi)
    as (Hip & Hok).
  destruct (_possible_moves self x y b hi) as [[ms rest] hp]; simpl in *.
  destruct (gfor_try_move_view ms hp Hp Hok) as (H1 & H2 & H3).
  rewrite <- Hd, <- Hr. unfold gseq, dseq.
  destruct (gfor ms (try_move self b) hp) as [[ys r] h1]; simpl in *.
  destruct (dfor (destination <$> ms) _) as [ds r']. simpl in *. subst ds r'.
  destruct r as [[]|e]; simpl.
  - rewrite !app_nil_r. split; [done|]. split; [done|]. by etrans.
  - split; [done|]. split; [done|]. by etrans.
Qed.

Lemma msim_has_possible_move :
  msim h (has_possible_move self x y b) (has_move v me (x, y)).
Proof.
  unfold has_possible_move, has_move.
  eapply msim_consume; [apply gsim_possible_moves|].
  simpl. destruct (legal_dests me v x y) as [ds r]. simpl.
  intros [|m ms] Hms; destruct ds as [|d ds]; try done.
  destruct r as [[]|e]; simpl.
  - eapply msim_bind; [apply msim_ret| |done]. intros _ _. apply msim_ret.
  - by intros h' Hh'.
Qed.
End TryMove.

Section WinnerSim.
Context (h : Heap) (b : bref) (Hclosed : closed h b).

Lemma msim_has_no_move_loop ps :
  Forall (λ e : Pos * pref, (e.2 < length (pieces h))%nat) ps →
  msim h (has_no_move_loop b ps)
       (none_moves (view h b) (map (λ e, (e.1, deref h e.2)) ps)).
Proof.
  induction 1 as [|[pos p] ps Hp Hps IH]; simpl.
  - apply msim_ret.
  - eapply msim_bind; [by apply msim_has_possible_move|..].
    + intros c Hc. destruct pos as [px py]. simpl in *. rewrite Hc.
      destruct c; [apply msim_ret|apply IH].
    + intros e He. destruct pos as [px py]. simpl in *. by rewrite He.
Qed.

Lemma msim_own_pieces pl (k : list (Pos * pref) → M bool) r :
  (∀ ps, Forall (λ e : Pos * pref, (e.2 < length (pieces h))%nat) ps →
         map (λ e, (e.1, deref h e.2)) ps = pieces_of (view h b) pl →
         msim h (k ps) r) →
  msim h (bind (iter_pieces b (Some pl)) k) r.
Proof.
  intros Hk. eapply msim_bind; [by apply msim_iter_pieces| |done].
  intros ps [= <-]. apply Hk.
  - destruct Hclosed as [_ Hf].
    pose proof (enumerate_cells_valid _ _ Hf) as Hv.
    induction Hv as [|e l He Hl IH]; simpl; [done|].
    destruct (bool_decide _); auto.
  - unfold pieces_of. by rewrite enumerate_cells_view, filter_map_comm.
Qed.

Lemma msim_is_in_checkmate pl :
  msim h (is_in_checkmate b pl) (checkmate_in (view h b) pl).
Proof.
  unfold is_in_checkmate, checkmate_in.
  eapply msim_bind; [by apply msim_is_in_check|..].
  - intros c ->. simpl. destruct c; simpl; [|apply msim_ret].
    apply msim_own_pieces. intros ps Hv <-. by apply msim_has_no_move_loop.
  - by intros e ->.
Qed.

Lemma msim_is_in_stalemate pl :
  msim h (is_in_stalemate b pl) (stalemate_in (view h b) pl).
Proof.
  unfold is_in_stalemate, stalemate_in.
  eapply msim_bind; [by apply msim_is_in_check|..].
  - intros c ->. simpl. destruct c; simpl; [apply msim_ret|].
    apply msim_own_pieces. intros ps Hv <-. by apply msim_has_no_move_loop.
  - by intros e ->.
Qed.

Lemma msim_check_winner_loop pls :
  msim h (check_winner_loop b pls) (winner_loop (view h b) pls).
Proof.
  induction pls as [|pl pls IH]; simpl; [apply msim_ret|].
  eapply msim_bind; [apply msim_is_in_checkmate|..].
  - intros mate ->. simpl. destruct mate; [apply msim_ret|].
    eapply msim_bind; [apply msim_is_in_stalemate|..].
    + intros stale ->. simpl. destruct stale; [apply msim_ret|apply IH].
    + by intros e ->.
  - by intros e ->.
Qed.

Lemma msim_check_winner : msim h (check_winner b) (winner_in (view h b)).
Proof. apply msim_check_winner_loop. Qed.
End WinnerSim.

Lemma possible_moves_view h b self x y :
  closed h b → (self < length (pieces h))%nat →
  destination <$> (possible_moves self x y b h).1.1 =
    (legal_dests (deref h self) (view h b) x y).1 ∧
  (possible_moves self x y b h).1.2 =
    (legal_dests (deref h self) (view h b) x y).2.
Proof.
  intros Hc Hs.
  by destruct (gsim_possible_moves h b Hc self Hs x y h) as (? & ? & _).
Qed.

(** X18. The legal moves of a piece depend only on the position: for
    two boards that look the same and two pieces that look the same, in
    whatever stores, [possible_moves] yields moves to the same
    destinations in the same order, and ends in the same way. *)
Theorem possible_moves_by_position h1 b1 p1 h2 b2 p2 x y :
  closed h1 b1 → closed h2 b2 →
  (p1 < length (pieces h1))%nat → (p2 < length (pieces h2))%nat →
  view h1 b1 = view h2 b2 → deref h1 p1 = deref h2 p2 →
  destination <$> (possible_moves p1 x y b1 h1).1.1 =
    destination <$> (possible_moves p2 x y b2 h2).1.1 ∧
  (possible_moves p1 x y b1 h1).1.2 = (possible_moves p2 x y b2 h2).1.2.
Proof.
  intros Hc1 Hc2 Hp1 Hp2 Hv Hd.
  destruct (possible_moves_view h1 b1 p1 x y Hc1 Hp1) as [-> ->].
  destruct (possible_moves_view h2 b2 p2 x y Hc2 Hp2) as [-> ->].
  by rewrite Hv, Hd.
Qed.

(** X19. Checkmate, stalemate and the result of the game depend only on
    the position: on two boards that look the same, in whatever stores,
    [is_in_checkmate] and [is_in_stalemate] answer the same for every
    player, and [check_winner] returns the same result. *)
Theorem check_winner_by_position h1 b1 h2 b2 :
  closed h1 b1 → closed h2 b2 → view h1 b1 = view h2 b2 →
  (∀ pl, (is_in_checkmate b1 pl h1).1 = (is_in_checkmate b2 pl h2).1) ∧
  (∀ pl, (is_in_stalemate b1 pl h1).1 = (is_in_stalemate b2 pl h2).1) ∧
  (check_winner b1 h1).1 = (check_winner b2 h2).1.
Proof.
  intros Hc1 Hc2 Hv. split; [|split].
  - intros pl.
    destruct (msim_is_in_checkmate h1 b1 Hc1 pl h1) as [-> _]; [done|].
    destruct (msim_is_in_checkmate h2 b2 Hc2 pl h2) as [-> _]; [done|].
    by rewrite Hv.
  - intros pl.
    destruct (msim_is_in_stalemate h1 b1 Hc1 pl h1) as [-> _]; [done|].
    destruct (msim_is_in_stalemate h2 b2 Hc2 pl h2) as [-> _]; [done|].
    by rewrite Hv.
  - destruct (msim_check_winner h1 b1 Hc1 h1) as [-> _]; [done|].
    destruct (msim_check_winner h2 b2 Hc2 h2) as [-> _]; [done|].
    by rewrite Hv.
Qed.




Lemma none_moves_true v ps :
  none_moves v ps = Ok true →
  ∀ pos p, (pos, p) ∈ ps → (legal_dests p v pos.1 pos.2).1 = [].
Proof.
  induction ps as [|[pos0 p0] ps IH]; simpl; [by intros _ ? ? ?%elem_of_nil|].
  unfold has_move at 1.
  destruct (legal_dests p0 v pos0.1 pos0.2) as [[|d ds] [[]|e]] eqn:E;
    simpl; try done.
  intros Hn pos p [[= -> ->]|Hin]%elem_of_cons; [by rewrite E|by apply IH].
Qed.

(** X21. In a checkmate or a stalemate no piece of the player has a
    legal move: when [is_in_checkmate] or [is_in_stalemate] returns True
    for a player, [possible_moves] yields nothing for every piece that
    [iter_pieces] lists for that player. *)
Theorem no_moves_when_mated h b pl ps :
  closed h b →
  (is_in_checkmate b pl h).1 = Ok true ∨ (is_in_stalemate b pl h).1 = Ok true →
  (iter_pieces b (Some pl) h).1 = Ok ps →
  ∀ pos p, (pos, p) ∈ ps → (possible_moves p pos.1 pos.2 b h).1.1 = [].
Proof.
  intros Hc Hm Hps.
  destruct (msim_is_in_checkmate h b Hc pl h) as [Em _]; [done|].
  destruct (msim_is_in_stalemate h b Hc pl h) as [Es _]; [done|].
  rewrite Em, Es in Hm.
  destruct (msim_iter_pieces h b Hc (Some pl) h) as [Ei _]; [done|].
  rewrite Ei in Hps. injection Hps as <-.
  assert (none_moves (view h b) (pieces_of (view h b) pl) = Ok true) as Hnone.
  { unfold checkmate_in, stalemate_in in *.
    destruct (in_check (view h b) pl) as [[|]|e]; simpl in *;
      by destruct Hm. }
  intros pos p Hin'.
  assert (p < length (pieces h))%nat as Hp.
  { destruct Hc as [_ Hf].
    pose proof (enumerate_cells_valid _ _ Hf) as Hv.
    apply list_elem_of_In, filter_In in Hin' as [Hin' _].
    by apply (proj1 (Forall_forall _ _) Hv (pos, p)), list_elem_of_In. }
  destruct (possible_moves_view h b p pos.1 pos.2 Hc Hp) as [Hd _].
  rewrite (none_moves_true _ _ Hnone pos (deref h p)) in Hd.
  - by destruct (possible_moves p pos.1 pos.2 b h).1.1.
  - unfold pieces_of. rewrite enumerate_cells_view, filter_map_comm.
    apply list_elem_of_fmap. by exists (pos, p).
Qed.

(** ** A move of the game is a move of the position *)

Section Applied.
Context (h : Heap) (b : bref) (Hclosed : closed h b).
Context (self : pref) (Hself : (self < length (pieces h))%nat).
Context (x y : Z).





End Applied.




(** ** The search *)

(** ** The order of scores *)

Lemma score_ge_refl a : score_ge a a = true.
Proof. destruct a; simpl; try done. unfold score_ge. simpl.
  by rewrite bool_decide_eq_false_2 by lia. Qed.

Lemma score_ge_trans a b c :
  score_ge a b = true → score_ge b c = true → score_ge a c = true.
Proof.
  unfold score_ge. destruct a, b, c; simpl; try done.
  rewrite !negb_true_iff, !bool_decide_eq_false. lia.
Qed.

Lemma score_ge_max a b : score_ge (score_max a b) a = true.
Proof.
  unfold score_max. destruct (score_gt b a) eqn:E; [|apply score_ge_refl].
  unfold score_ge. destruct a, b; simpl in *; try done.
  apply bool_decide_eq_true in E. rewrite bool_decide_eq_false_2; [done|lia].
Qed.

(** X23. At a depth above 0 the score that [_search] returns is never
    below the [alpha] it was called with. *)
Theorem search_lower_bound gb sp d b pl alpha beta h s h' :
  _search gb sp (S d) b pl alpha beta h = (Ok s, h') →
  score_ge s alpha = true.
Proof.
  simpl. unfold bind at 1.
  destruct (_order_moves b pl h) as [[ms|e] h1]; [|done].
  match goal with
  | |- ?loop ms alpha h1 = _ → _ =>
      cut (∀ a h1, score_ge a alpha = true →
                   loop ms a h1 = (Ok s, h') → score_ge s alpha = true)
  end.
  { intros Hloop. apply Hloop, score_ge_refl. }
  clear h1. intros a h1 Hge. revert a Hge h1.
  induction ms as [|m ms IH]; intros a Hge h1.
  - by intros [= <- <-].
  - unfold bind.
    destruct (deepcopy_board b h1) as [[bc|e] h2]; [|done].
    destruct (execute m bc h2) as [[[]|e] h3]; [|done].
    destruct (_search gb sp d bc (opponent pl) _ _ h3) as [[s'|e] h4]; [|done].
    simpl.
    assert (score_ge (score_max a (score_neg s')) alpha = true) as Hge'.
    { eapply score_ge_trans; [apply score_ge_max|done]. }
    destruct (score_ge (score_max a (score_neg s')) beta).
    + by intros [= <- <-].
    + by apply IH.
Qed.

(** ** The moves that [_order_moves] returns *)

Lemma try_move_fresh h0 self b m h :
  h0 ⊑ h → Forall (fresh_move h0) (try_move self b m h).1.1.
Proof.
  intros Hh. unfold try_move, gbind.
  destruct (safe_deepcopy_board b h0 h Hh) as [H1 _].
  destruct (deepcopy_board b h) as [[nb|e] h1]; simpl in *; [|constructor].
  destruct (framed_deepcopy_move h0 m h1 H1) as (H2 & _ & H3).
  destruct (deepcopy_move m h1) as [[m'|e] h2]; simpl in *; [|constructor].
  specialize (H3 m' eq_refl).
  destruct (execute m' nb h2) as [[[]|e] h3]; simpl; [|constructor].
  destruct (is_in_check nb _ h3) as [[[]|e] h4]; simpl; repeat constructor.
  done.
Qed.

Lemma possible_moves_fresh h0 self x y b h :
  h0 ⊑ h → Forall (fresh_move h0) (possible_moves self x y b h).1.1.
Proof.
  intros Hh. unfold possible_moves.
  destruct (gsafe__possible_moves self x y b h0 h Hh) as [H1 _].
  destruct (_possible_moves self x y b h) as [[ms rest] h1]; simpl in *.
  clear Hh. revert h1 H1. induction ms as [|m ms IH]; intros h1 H1.
  - simpl. constructor.
  - simpl. unfold gseq at 1 2.
    pose proof (try_move_fresh h0 self b m h1 H1) as Hf.
    destruct (gsafe_try_move self b m h0 h1 H1) as [H2 _].
    destruct (try_move self b m h1) as [[ys [[]|e]] h2]; simpl in *.
    + specialize (IH h2 H2). unfold gseq in IH.
      destruct (gfor ms (try_move self b) h2) as [[ys' [[]|e']] h3]; simpl in *.
      * rewrite <- app_assoc. by apply Forall_app.
      * by apply Forall_app.
    + done.
Qed.

(** The moves that [possible_moves] yields from a later store have
    passed the test on the board as it is in [h]. *)
Lemma possible_moves_tested h b self x y hi :
  closed h b → (self < length (pieces h))%nat → h ⊑ hi →
  Forall (λ m, tested h b self m (possible_moves self x y b hi).2)
         (possible_moves self x y b hi).1.1.
Proof.
  intros Hc Hs Hi. unfold possible_moves.
  destruct (gsafe__possible_moves self x y b h hi Hi) as [H1 _].
  destruct (_possible_moves self x y b hi) as [[ms r] hp]; simpl in *.
  unfold gseq.
  destruct (gfor_try_move_tested h b Hc self Hs ms hp H1) as [H2 H3].
  destruct (gfor ms (try_move self b) hp) as [[ys [[]|e]] hf]; simpl in *;
    [by rewrite app_nil_r|done].
Qed.

Section OrderMoves.
Context (h0 : Heap) (b : bref).
(** [R h m]: what is known, in store [h], of a move yielded for a piece
    that is [good]; [C1] holds of the captures and [C2] of the other
    moves. *)
Context (good : Pos * pref → Prop) (R : Heap → Move → Prop).
Context (C1 C2 : Move → Prop).
Context (Rstable : ∀ h h' m, h ⊑ h' → R h m → R h' m).
Context (Hyield : ∀ e h, good e → h0 ⊑ h →
           Forall (R (possible_moves e.2 e.1.1 e.1.2 b h).2)
                  (possible_moves e.2 e.1.1 e.1.2 b h).1.1).
Context (Hcls : ∀ h m, h0 ⊑ h →
           (∀ r, (getitem b (destination m) h).1 = Ok (Some r) → C1 m) ∧
           ((getitem b (destination m) h).1 = Ok None → C2 m)).

Lemma sort_moves_inv ms acc h acc' h' :
  h0 ⊑ h → Forall (R h) ms →
  Forall (λ m, R h m ∧ C1 m) acc.1 → Forall (λ m, R h m ∧ C2 m) acc.2 →
  sort_moves b ms acc h = (Ok acc', h') →
  h' = h ∧ Forall (λ m, R h m ∧ C1 m) acc'.1 ∧ Forall (λ m, R h m ∧ C2 m) acc'.2.
Proof.
  intros Hh. revert acc. induction ms as [|m ms IH]; intros acc Hms H1 H2; simpl.
  - by intros [= <- <-].
  - inversion Hms as [|? ? Hm Hms']; subst.
    destruct (Hcls h m Hh) as [Hc Hq].
    unfold bind.
    assert ((getitem b (destination m) h).2 = h) as Hsame.
    { unfold getitem, bind, get_field. simpl. by case_match. }
    destruct (getitem b (destination m) h) as [[[r|]|e] h1]; simpl in *;
      subst h1; [| |done].
    + apply IH; simpl; [done| |done].
      apply Forall_app. split; [done|].
      constructor; [split; [done|by eapply Hc]|constructor].
    + apply IH; simpl; [done|done|].
      apply Forall_app. split; [done|].
      constructor; [split; [done|by apply Hq]|constructor].
Qed.

Lemma _order_moves_loop_inv ps acc h acc' h' :
  h0 ⊑ h → Forall good ps →
  Forall (λ m, R h m ∧ C1 m) acc.1 → Forall (λ m, R h m ∧ C2 m) acc.2 →
  _order_moves_loop b ps acc h = (Ok acc', h') →
  Forall (λ m, R h' m ∧ C1 m) acc'.1 ∧ Forall (λ m, R h' m ∧ C2 m) acc'.2.
Proof.
  intros Hh Hps. revert acc h Hh.
  induction Hps as [|[pos p] ps Hp Hps IH]; intros acc h Hh H1 H2; simpl.
  - by intros [= <- <-].
  - unfold bind, consume.
    pose proof (Hyield (pos, p) h Hp Hh) as Hf. simpl in Hf.
    destruct (gsafe_possible_moves p pos.1 pos.2 b h0 h Hh) as [Hh1 _].
    destruct (gsafe_possible_moves p pos.1 pos.2 b h h) as [Hh2 _]; [done|].
    destruct (possible_moves p pos.1 pos.2 b h) as [[ms rest] h1]; simpl in *.
    assert (∀ C l, Forall (λ m, R h m ∧ C m) l → Forall (λ m, R h1 m ∧ C m) l)
      as Hup.
    { intros C l Hl. eapply Forall_impl; [exact Hl|].
      intros m [? ?]. split; [by eapply Rstable|done]. }
    destruct (sort_moves b ms acc h1) as [[a|e] h2] eqn:Es; [|done].
    destruct (sort_moves_inv ms acc h1 a h2 Hh1 Hf (Hup _ _ H1) (Hup _ _ H2) Es)
      as (-> & Ha1 & Ha2).
    destruct rest as [[]|e]; simpl; [|done].
    by apply IH.
Qed.

Lemma _order_moves_inv pl h ms h' :
  h0 ⊑ h →
  (∀ ps, (iter_pieces b (Some pl) h).1 = Ok ps → Forall good ps) →
  _order_moves b pl h = (Ok ms, h') →
  ∃ caps others, ms = caps ++ others ∧
    Forall (λ m, R h' m ∧ C1 m) caps ∧ Forall (λ m, R h' m ∧ C2 m) others.
Proof.
  intros Hh Hgood. unfold _order_moves, bind.
  specialize (Hgood _ eq_refl). simpl in *.
  destruct (_order_moves_loop b _ ([], []) h) as [[acc|e] h1] eqn:E; [|done].
  simpl. intros [= <- <-].
  destruct (_order_moves_loop_inv _ ([], []) _ _ _ Hh Hgood
              (Forall_nil_2 _) (Forall_nil_2 _) E).
  by exists acc.1, acc.2.
Qed.
End OrderMoves.

Lemma _order_moves_fresh h0 b pl h ms h' :
  h0 ⊑ h → _order_moves b pl h = (Ok ms, h') → Forall (fresh_move h0) ms.
Proof.
  intros Hh E.
  destruct (_order_moves_inv h0 b (λ _, True) (λ _, fresh_move h0)
              (λ _, True) (λ _, True)) with
    (pl := pl) (h := h) (ms := ms) (h' := h') as (c & o & -> & H1 & H2).
  - done.
  - intros e hi _ Hi. by apply possible_moves_fresh.
  - done.
  - done.
  - intros ps _. by apply Forall_forall.
  - done.
  - apply Forall_app. split; (eapply Forall_impl; [eassumption|]); by intros ? [? _].
Qed.

Lemma legal_for_extends h0 b pl h h' m :
  closed h0 b → h ⊑ h' → legal_for h0 b pl h m → legal_for h0 b pl h' m.
Proof.
  intros Hc Hh (self & Hs & Hp & Ht). exists self.
  split; [done|]. split; [done|]. by eapply tested_extends.
Qed.

(** Every move of [_order_moves] is a legal move of the player. *)
Lemma _order_moves_legal h b pl ms h' :
  closed h b → _order_moves b pl h = (Ok ms, h') →
  Forall (legal_for h b pl h') ms.
Proof.
  intros Hc E.
  destruct (_order_moves_inv h b
              (λ e, (e.2 < length (pieces h))%nat ∧ player (deref h e.2) = pl)
              (legal_for h b pl) (λ _, True) (λ _, True)) with
    (pl := pl) (h := h) (ms := ms) (h' := h') as (c & o & -> & H1 & H2).
  - intros h1 h2 m. by apply legal_for_extends.
  - intros [pos p] hi [Hp Hpl] Hi. simpl in *.
    eapply Forall_impl; [by apply (possible_moves_tested h b p)|].
    intros m Hm. by exists p.
  - done.
  - done.
  - intros ps [= <-]. destruct Hc as [_ Hf].
    pose proof (enumerate_cells_valid _ _ Hf) as Hv.
    apply Forall_forall. intros e He.
    apply list_elem_of_In, filter_In in He as [He Hpl].
    apply bool_decide_eq_true in Hpl. split; [|done].
    by apply (proj1 (Forall_forall _ _) Hv), list_elem_of_In.
  - done.
  - apply Forall_app. split; (eapply Forall_impl; [eassumption|]); by intros ? [? _].
Qed.

(** X24. [_order_moves] returns the moves onto occupied squares of the
    board before the moves onto empty squares. *)
Theorem order_moves_captures_first h b pl ms h' :
  (b < length (boards h))%nat →
  _order_moves b pl h = (Ok ms, h') →
  ∃ captures others, ms = captures ++ others ∧
    Forall (λ m, ∃ r, field_get (field_of h b) (destination m) = Ok (Some r))
           captures ∧
    Forall (λ m, field_get (field_of h b) (destination m) = Ok None) others.
Proof.
  intros Hb E.
  destruct (_order_moves_inv h b (λ _, True) (λ _ _, True)
    (λ m, ∃ r, field_get (field_of h b) (destination m) = Ok (Some r))
    (λ m, field_get (field_of h b) (destination m) = Ok None)) with
    (pl := pl) (h := h) (ms := ms) (h' := h') as (c & o & -> & H1 & H2).
  - done.
  - intros. by apply Forall_forall.
  - intros h1 m Hh. unfold getitem, bind, get_field. simpl.
    rewrite (extends_field_of h h1) by done.
    destruct (field_get (field_of h b) (destination m)) as [[r|]|e]; simpl;
      split; try done; intros; simplify_eq; eauto.
  - done.
  - intros ps _. by apply Forall_forall.
  - done.
  - exists c, o. split; [done|].
    split; (eapply Forall_impl; [eassumption|]); by intros ? [_ ?].
Qed.

(** ** The search allocates, and writes what it has allocated *)

Lemma framed_set_is_moved_harmless h0 r :
  (length (pieces h0) ≤ r)%nat ∨ is_moved (deref h0 r) = true →
  framed h0 (set_is_moved r).
Proof.
  intros [Hr|Hm]; [by apply framed_set_is_moved|].
  destruct (decide (length (pieces h0) ≤ r)%nat) as [|Hlt];
    [by apply framed_set_is_moved|].
  intros h Hh. unfold set_is_moved. simpl. split; [|by intros ?].
  rewrite (extends_deref h0 h r Hh) by lia.
  pose proof (extends_pieces_length _ _ Hh).
  rewrite list_insert_id; [by destruct h|].
  rewrite list_lookup_lookup_total_lt by lia.
  f_equal. change (pieces h !!! r) with (deref h r).
  rewrite (extends_deref h0 h r Hh) by lia.
  destruct (deref h0 r). simpl in *. by subst.
Qed.

Lemma framed_execute_harmless h0 m b :
  (length (boards h0) ≤ b)%nat → harmless h0 m → framed h0 (execute m b).
Proof.
  intros Hb Hw.
  assert (framed h0 (set_is_moved (piece m))) as Hp.
  { apply framed_set_is_moved_harmless. destruct m; by inversion Hw. }
  assert (framed h0 (Move_execute m b)) as Hm.
  { unfold Move_execute.
    repeat (apply framed_bind; [|intros _]); auto using framed_setitem. }
  destruct m as [p s d|p s d q|p s d rk rs rd]; simpl; [done|..].
  - apply framed_bind; [done|intros _]. by apply framed_setitem.
  - repeat (apply framed_bind; [|intros _]); auto using framed_setitem.
    apply framed_set_is_moved_harmless.
    inversion Hw as [|? ? ? Hw']; by inversion Hw'.
Qed.


Lemma safe__search gb sp d b pl alpha beta :
  safe (_search gb sp d b pl alpha beta).
Proof.
  intros h0. revert b pl alpha beta.
  induction d as [|d IH]; intros b pl alpha beta; simpl.
  - apply safe__evaluate_board.
  - apply (framed_bind_post h0 (Forall (fresh_move h0))).
    { intros h Hh. destruct (safe__order_moves b pl h0 h Hh) as [H1 H2].
      split; [done|]. split; [done|]. intros ms Hms.
      destruct (_order_moves b pl h) as [r h1] eqn:E. simpl in Hms. subst r.
      exact (_order_moves_fresh h0 b pl h ms h1 Hh E). }
    intros ms Hms. revert alpha. induction Hms as [|m ms Hm Hms IHms]; intros alpha.
    + apply framed_ret.
    + apply (framed_bind_post h0 (λ nb, (length (boards h0) ≤ nb)%nat)).
      { intros h Hh. by apply framed_deepcopy_board. }
      intros bc Hbc.
      apply framed_bind; [by apply framed_execute_fresh|]. intros _.
      apply framed_bind; [apply IH|]. intros s. simpl.
      destruct (score_ge _ _); [apply framed_ret|apply IHms].
Qed.

(** What [_iter_possible_moves_in_depth] yields and leaves: the moves
    come from the list, and the store keeps its objects. *)
Lemma iter_loop_post gb sp py_id py_hash d b pl ms alpha beta table h0 h :
  h0 ⊑ h → Forall (harmless h0) ms →
  h0 ⊑ (iter_loop gb sp py_id py_hash d b pl ms alpha beta table h).2 ∧
  Forall (λ y, y.1 ∈ ms)
    (iter_loop gb sp py_id py_hash d b pl ms alpha beta table h).1.1.1.
Proof.
  intros Hh Hms. revert alpha table h Hh.
  induction Hms as [|m ms Hm Hms IH]; intros alpha table h Hh; simpl; [done|].
  unfold bind, _hash_board, ret.
  destruct (framed_deepcopy_board h0 b h Hh) as (H1 & _ & H1').
  destruct (deepcopy_board b h) as [[bc|e] h1]; simpl in *; [|done].
  destruct (framed_execute_harmless h0 m bc (H1' bc eq_refl) Hm h1 H1) as [H2 _].
  destruct (execute m bc h1) as [[[]|e] h2]; simpl in *; [|done].
  assert (∀ (ys : list (Move * Score)),
            Forall (λ y, y.1 ∈ ms) ys → Forall (λ y, y.1 ∈ m :: ms) ys) as Hin.
  { intros ys Hys. eapply Forall_impl; [exact Hys|]. intros y ?. by right. }
  destruct (table !! _) as [score|] eqn:Et.
  - destruct (score_ge _ _); simpl.
    { split; [done|]. constructor; [by left|constructor]. }
    specialize (IH (score_max alpha score) table h2 H2).
    destruct (iter_loop _ _ _ _ _ _ _ _ _ _ _ _) as [[[ys r] t] h3].
    simpl in *. destruct IH as (? & ?).
    split; [done|]. constructor; [by left|by apply Hin].
  - destruct (safe__search gb sp d bc (opponent pl)
                (score_neg beta) (score_neg alpha) h0 h2 H2) as [H3 _].
    destruct (_search _ _ _ _ _ _ _ _) as [[s|e] h3]; simpl in *; [|done].
    destruct (score_ge _ _); simpl.
    { split; [done|]. constructor; [by left|constructor]. }
    match goal with
    | |- context [iter_loop ?a ?b ?c ?d ?e ?f ?g ?h ?i ?j ?k ?l] =>
        specialize (IH i k l H3);
        destruct (iter_loop a b c d e f g h i j k l) as [[[ys r] t] h4]
    end.
    simpl in *. destruct IH as (? & ?).
    split; [done|]. constructor; [by left|by apply Hin].
Qed.

Lemma best_of_elem ys bm bs m :
  best_of ys bm bs = Some m → bm = Some m ∨ m ∈ ys.*1.
Proof.
  revert bm bs. induction ys as [|[m' s] ys IH]; intros bm bs; simpl.
  - by left.
  - destruct (score_gt s bs); intros [H|H]%IH.
    + injection H as ->. right. by left.
    + right. by right.
    + by left.
    + right. by right.
Qed.


Lemma tested_harmless h b self m h' : tested h b self m h' → harmless h' m.
Proof.
  intros (_ & Hw & _). eapply Forall_impl; [exact Hw|]. intros r ?. by right.
Qed.

(** X26. The move that [get_best_move] returns is a legal move of its
    player on the board of the game: it can be executed there, and leaves
    that player out of check.  At depth 0 no move is returned. *)
Theorem get_best_move_sound gb sp py_id py_hash depth table h m table' h' :
  closed h gb →
  get_best_move gb sp py_id py_hash depth table h = (Ok (Some m), table', h') →
  (0 < depth)%nat ∧
  ∃ h2 h3, execute m gb h' = (Ok tt, h2) ∧
           is_in_check gb sp h2 = (Ok false, h3).
Proof.
  intros Hc. unfold get_best_move, _iter_possible_moves_in_depth.
  destruct depth as [|d].
  { by destruct (_evaluate_board gb sp gb h) as [[s|e] h1]. }
  destruct (safe__order_moves gb sp h h) as [H1 _]; [done|].
  destruct (_order_moves gb sp h) as [[ms|e] h1] eqn:E; simpl in *; [|done].
  pose proof (_order_moves_legal h gb sp ms h1 Hc E) as Hlegal.
  assert (Forall (harmless h1) ms) as Hms.
  { eapply Forall_impl; [exact Hlegal|].
    intros m' (self & _ & _ & Ht). by eapply tested_harmless. }
  destruct (iter_loop_post gb sp py_id py_hash d gb sp ms
              NegInf PosInf table h1 h1) as (H2 & Hys); [done|done|].
  destruct (iter_loop _ _ _ _ _ _ _ _ _ _ _ _) as [[[ys [[]|e]] t] h2];
    simpl in *; [|done].
  intros [= Hb <- <-]. split; [lia|].
  apply best_of_elem in Hb as [|Hin]; [done|].
  apply list_elem_of_fmap in Hin as (y & -> & Hy).
  pose proof (proj1 (Forall_forall _ _) Hys y Hy) as Hm.
  destruct (proj1 (Forall_forall _ _) Hlegal _ Hm) as (self & Hs & <- & Ht).
  apply (tested_execute h gb Hc self); [by etrans|].
  exact (tested_extends h gb self Hs y.1 h1 h2 H2 Ht).
Qed.

Lemma iter_loop_table gb sp py_id py_hash d b pl ms alpha beta table h :
  table ⊆ (iter_loop gb sp py_id py_hash d b pl ms alpha beta table h).1.2.
Proof.
  revert alpha table h.
  induction ms as [|m ms IH]; intros alpha table h; simpl; [done|].
  unfold bind, _hash_board, ret.
  destruct (deepcopy_board b h) as [[bc|e] h1]; simpl; [|done].
  destruct (execute m bc h1) as [[[]|e] h2]; simpl; [|done].
  destruct (table !! _) as [score|] eqn:Et.
  - destruct (score_ge _ _); simpl; [done|].
    specialize (IH (score_max alpha score) table h2).
    by destruct (iter_loop _ _ _ _ _ _ _ _ _ _ _ _) as [[[ys r] t] h3].
  - destruct (_search _ _ _ _ _ _ _ _) as [[s|e] h3]; simpl; [|done].
    destruct (score_ge _ _); simpl; [by apply insert_subseteq|].
    match goal with
    | |- context [iter_loop ?a ?b ?c ?d ?e ?f ?g ?h ?i ?j ?k ?l] =>
        specialize (IH i k l);
        destruct (iter_loop a b c d e f g h i j k l) as [[[ys r] t] h4]
    end.
    simpl in *. etrans; [|exact IH]. by apply insert_subseteq.
Qed.

Lemma get_best_move_table gb sp py_id py_hash depth table h :
  table ⊆ (get_best_move gb sp py_id py_hash depth table h).1.2.
Proof.
  unfold get_best_move, _iter_possible_moves_in_depth.
  destruct depth as [|d].
  - by destruct (_evaluate_board gb sp gb h) as [[s|e] h1].
  - destruct (_order_moves gb sp h) as [[ms|e] h1]; simpl; [|done].
    pose proof (iter_loop_table gb sp py_id py_hash d gb sp ms
                  NegInf PosInf table h1) as Ht.
    by destruct (iter_loop _ _ _ _ _ _ _ _ _ _ _ _) as [[[ys [[]|e]] t] h2].
Qed.

(** X27. [get_best_move] only adds entries to the transposition table:
    every key that had a score keeps it, also when the search ends with
    an exception. *)
Theorem get_best_move_keeps_table gb sp py_id py_hash depth table h key score :
  table !! key = Some score →
  (get_best_move gb sp py_id py_hash depth table h).1.2 !! key = Some score.
Proof.
  intros Hk. eapply lookup_weaken; [exact Hk|]. apply get_best_move_table.
Qed.

(** ** The static evaluation *)

Lemma material_opponent pl ps a a' :
  material pl ps a + material (opponent pl) ps a' = a + a'.
Proof.
  revert a a'. induction ps as [|p ps IH]; intros a a'; simpl; [done|].
  destruct pl, (player p); unfold opponent; simpl; rewrite IH; lia.
Qed.

(** X28. While the board of the game has no result, the static
    evaluation of a board for one player is the negation of its
    evaluation for the other player. *)
Theorem evaluate_board_antisymmetric gb pl b h :
  (check_winner gb h).1 = Ok None →
  ∃ v, (_evaluate_board gb pl b h).1 = Ok (Fin v) ∧
       (_evaluate_board gb (opponent pl) b h).1 = Ok (Fin (- v)).
Proof.
  intros Hw. unfold _evaluate_board, bind, iter_pieces, read_all. simpl.
  destruct (check_winner gb h) as [r h1]. simpl in Hw. subst r. simpl.
  eexists. split; [reflexivity|]. do 2 f_equal.
  match goal with
  | |- material _ ?ps 0 = - material _ ?ps 0 =>
      pose proof (material_opponent pl ps 0 0)
  end.
  lia.
Qed.

(** ** Whose turn it is *)

Lemma opponent_involutive pl : opponent (opponent pl) = pl.
Proof. by destruct pl. Qed.

(** X29. When [move_piece] returns without a result, the game goes on
    on the same board object; without an AI the turn has passed to the
    other player, with an AI the AI has replied and the turn is back with
    the player who moved, and the AI's table has kept its entries. *)
Theorem move_piece_turn py_id py_hash start_pos end_pos g h g' h' :
  move_piece py_id py_hash start_pos end_pos g h = (Ok None, g', h') →
  board g' = board g ∧
  match ai g with
  | None => current_player g' = opponent (current_player g) ∧ ai g' = None
  | Some a =>
      current_player g' = current_player g ∧
      ∃ t, ai g' = Some (mkAI (ai_player a) t) ∧ transposition_table a ⊆ t
  end.
Proof.
  unfold move_piece, gm_bind, gm_self, gm_lift, gm_raise, gm_ret,
    set_current_player, ai_get_best_move.
  destruct (getitem (board g) start_pos h) as [[[p|]|e] h1]; [|done|done].
  unfold read. simpl.
  destruct (decide (player (deref h1 p) ≠ current_player g)); [done|].
  destruct (consume _ _ h1) as [[m|e] h2]; [|done].
  destruct (execute m (board g) h2) as [[[]|e] h3]; [|done].
  destruct (check_winner (board g) h3) as [[[r|]|e] h4]; [done| |done].
  simpl. destruct (ai g) as [a|] eqn:Ea; [|by intros [= <- <-]].
  pose proof (get_best_move_table (board g) (ai_player a) py_id py_hash
                2 (transposition_table a) h4) as Ht.
  destruct (get_best_move _ _ _ _ _ _ h4) as [[[[bm|]|e] t] h5]; [|done|done].
  simpl in *.
  destruct (execute bm (board g) h5) as [[[]|e] h6]; [|done].
  destruct (check_winner (board g) h6) as [[[r|]|e] h7]; [done| |done].
  intros [= <- <-]. simpl. rewrite opponent_involutive.
  split; [done|]. split; [done|]. by exists t.
Qed.

(** ** The starting position *)

Lemma place_shifted ps bs l f pos c pl :
  place (length bs) pos c pl (mkHeap (ps ++ l) (bs ++ [shift_field (length ps) f])) =
  match field_set f pos (Some (length l)) with
  | Ok f' =>
      (Ok tt, mkHeap (ps ++ (l ++ [mkPiece c pl false]))
                     (bs ++ [shift_field (length ps) f']))
  | Raise e =>
      (Raise e, mkHeap (ps ++ (l ++ [mkPiece c pl false]))
                       (bs ++ [shift_field (length ps) f]))
  end.
Proof.
  unfold place, bind, new_piece, setitem, bind, get_field, field_of. simpl.
  assert (∀ X : Field, (bs ++ [X]) !!! length bs = X) as Hlast.
  { intros X. apply list_lookup_total_correct.
    rewrite lookup_app_r by done. by rewrite Nat.sub_diag. }
  rewrite Hlast.
  rewrite length_app, <- app_assoc.
  change (Some (length ps + length l)%nat)
    with (fmap (M := option) (Nat.add (length ps)) (Some (length l))).
  unfold shift_field. rewrite field_set_fmap.
  unfold Field, pref in *.
  destruct (field_set f pos (Some (length l))) as [f'|e]; simpl; [|done].
  unfold set_field. simpl.
  rewrite insert_app_r_alt by done. by rewrite Nat.sub_diag.
Qed.

Lemma bind_place_shifted {B} ps bs l f pos c pl (k : unit → M B) :
  bind (place (length bs) pos c pl) k
       (mkHeap (ps ++ l) (bs ++ [shift_field (length ps) f])) =
  match field_set f pos (Some (length l)) with
  | Ok f' => k tt (mkHeap (ps ++ (l ++ [mkPiece c pl false]))
                          (bs ++ [shift_field (length ps) f']))
  | Raise e =>
      (Raise e, mkHeap (ps ++ (l ++ [mkPiece c pl false]))
                       (bs ++ [shift_field (length ps) f]))
  end.
Proof.
  unfold bind at 1. rewrite place_shifted.
  by destruct (field_set f pos (Some (length l))).
Qed.

Lemma bind_place_first {B} ps bs f pos c pl (k : unit → M B) :
  bind (place (length bs) pos c pl) k
       (mkHeap ps (bs ++ [shift_field (length ps) f])) =
  match field_set f pos (Some 0%nat) with
  | Ok f' => k tt (mkHeap (ps ++ ([] ++ [mkPiece c pl false]))
                          (bs ++ [shift_field (length ps) f']))
  | Raise e =>
      (Raise e, mkHeap (ps ++ ([] ++ [mkPiece c pl false]))
                       (bs ++ [shift_field (length ps) f]))
  end.
Proof.
  pose proof (bind_place_shifted ps bs [] f pos c pl k) as H.
  by rewrite app_nil_r in H.
Qed.

(** One placement on a field that is given in full. *)
Ltac place_step :=
  first [rewrite bind_place_shifted | rewrite bind_place_first];
  match goal with
  | |- context [field_set ?f ?pos ?c] =>
      let v := eval vm_compute in (field_set f pos c) in
      change (field_set f pos c) with v
  end;
  cbv beta iota.

(** What [Board.initial] builds, in the terms of the store it runs in. *)
Lemma initial_run ps bs :
  ∃ l f,
    initial (mkHeap ps bs) =
      (Ok (length bs), mkHeap (ps ++ l) (bs ++ [shift_field (length ps) f])) ∧
    length l = 32%nat ∧
    Forall (Forall (λ c : option pref,
                      match c with Some k => (k < 32)%nat | None => True end)) f ∧
    map (map (fmap (M := option) (λ k, l !!! k))) f = start_view ∧
    NoDup (enumerate_cells f).*2.
Proof.
  unfold initial, bind at 1, new_board. simpl.
  change empty_field with (shift_field (length ps) empty_field).
  unfold add_start_pieces.
  change (range 0 8) with [0; 1; 2; 3; 4; 5; 6; 7].
  unfold bind at 1.
  do 16 place_step.
  cbn [place_pawns]. do 16 place_step.
  cbn [ret]. eexists _, _. split; [reflexivity|].
  split; [reflexivity|]. split; [repeat constructor|].
  split; [vm_compute; reflexivity|].
  apply (bool_decide_unpack _). vm_compute. exact I.
Qed.

(** X30. In whatever store it runs, [Board.initial] makes a new board
    with the standard starting position on it: 32 new pieces, one object
    for each occupied square, none of them marked as moved; the objects
    that existed are left as they were. *)
Theorem initial_standard h :
  ∃ h', initial h = (Ok (length (boards h)), h') ∧
    h ⊑ h' ∧ closed h' (length (boards h)) ∧
    view h' (length (boards h)) = start_view ∧
    length (pieces h') = (length (pieces h) + 32)%nat ∧
    NoDup (enumerate_cells (field_of h' (length (boards h)))).*2 ∧
    Forall (λ e : Pos * pref, (length (pieces h) ≤ e.2)%nat)
           (enumerate_cells (field_of h' (length (boards h)))).
Proof.
  destruct h as [ps bs]. simpl.
  destruct (initial_run ps bs) as (l & f & E & Hl & Hf & Hv & Hd).
  eexists. split; [exact E|].
  assert (field_of (mkHeap (ps ++ l) (bs ++ [shift_field (length ps) f]))
            (length bs) = shift_field (length ps) f) as Hfo.
  { unfold field_of. simpl. apply list_lookup_total_correct.
    rewrite lookup_app_r by done. by rewrite Nat.sub_diag. }
  rewrite Hfo.
  split; [split; simpl; by apply prefix_app_r|].
  split; [|split; [|split; [|split]]].
  - split; simpl; [rewrite length_app; simpl; lia|]. rewrite Hfo.
    unfold shift_field. apply Forall_fmap.
    eapply Forall_impl; [exact Hf|]. intros row Hrow. simpl.
    apply Forall_fmap. eapply Forall_impl; [exact Hrow|].
    intros [k|] Hk; simpl; [|done]. rewrite length_app. lia.
  - unfold view. rewrite Hfo. rewrite <- Hv. unfold shift_field.
    rewrite map_map. apply map_ext_Forall.
    eapply Forall_impl; [exact Hf|]. intros row Hrow. simpl.
    rewrite map_map. apply map_ext_Forall.
    eapply Forall_impl; [exact Hrow|]. intros [k|] Hk; simpl; [|done].
    f_equal. unfold deref. simpl.
    by rewrite lookup_total_app_r, Nat.add_sub' by lia.
  - simpl. rewrite length_app. lia.
  - unfold shift_field, enumerate_cells. rewrite enumerate_rows_fmap.
    match goal with
    | |- NoDup ?lhs =>
        assert (lhs = Nat.add (length ps) <$> (enumerate_rows 0 f).*2) as ->
    end.
    { rewrite <- list_fmap_compose.
      change (map ?g ?x) with (g <$> x). by rewrite <- list_fmap_compose. }
    apply NoDup_fmap; [|done].
    intros x y. lia.
  - unfold shift_field, enumerate_cells. rewrite enumerate_rows_fmap.
    apply Forall_forall. intros e (e' & -> & _)%list_elem_of_fmap. simpl. lia.
Qed.

(** ** Examples of the further properties *)

(** A regular field given in full. *)
Ltac regular_by_computation := split; [reflexivity|repeat constructor].

Lemma is_in_check_by_position_witness :
  closed twin_heap 0%nat ∧ closed twin_heap 1%nat ∧
  view twin_heap 0%nat = view twin_heap 1%nat ∧
  (is_in_check 0%nat white twin_heap).1 = (is_in_check 1%nat white twin_heap).1.
Proof.
  assert (closed twin_heap 0%nat) as H1 by closed_by_computation.
  assert (closed twin_heap 1%nat) as H2 by closed_by_computation.
  assert (view twin_heap 0%nat = view twin_heap 1%nat) as H3
    by (vm_compute; reflexivity).
  split; [exact H1|]. split; [exact H2|]. split; [exact H3|].
  exact (is_in_check_by_position twin_heap 0%nat twin_heap 1%nat white H1 H2 H3).
Defined.

Lemma checkmate_stalemate_exclusive_witness :
  closed search_heap 1%nat ∧ search_heap ⊑ search_heap ∧
  ((is_in_checkmate 1%nat white search_heap).1 = Ok true →
   (is_in_stalemate 1%nat white search_heap).1 = Ok false) ∧
  ((is_in_stalemate 1%nat white search_heap).1 = Ok true →
   (is_in_checkmate 1%nat white search_heap).1 = Ok false).
Proof.
  assert (closed search_heap 1%nat) as H1 by closed_by_computation.
  assert (search_heap ⊑ search_heap) as H2 by reflexivity.
  split; [exact H1|]. split; [exact H2|].
  exact (checkmate_stalemate_exclusive search_heap 1%nat white search_heap H1 H2).
Defined.

Lemma check_winner_leaves_board_witness :
  closed search_heap 1%nat ∧
  search_heap ⊑ (check_winner 1%nat search_heap).2 ∧
  field_of (check_winner 1%nat search_heap).2 1%nat = field_of search_heap 1%nat ∧
  view (check_winner 1%nat search_heap).2 1%nat = view search_heap 1%nat.
Proof.
  assert (closed search_heap 1%nat) as H1 by closed_by_computation.
  split; [exact H1|].
  exact (check_winner_leaves_board search_heap 1%nat H1).
Defined.

Lemma check_winner_result_witness :
  closed search_heap 1%nat ∧
  ∃ r h', check_winner 1%nat search_heap = (Ok (Some r), h') ∧
    (r = mkResult None stalemate ∨
     ∃ pl, r = mkResult (Some (opponent pl)) checkmate ∧
           (is_in_check 1%nat pl search_heap).1 = Ok true).
Proof.
  assert (closed search_heap 1%nat) as H1 by closed_by_computation.
  assert (∃ r h', check_winner 1%nat search_heap = (Ok (Some r), h'))
    as (r & h' & H2) by (eexists _, _; vm_compute; reflexivity).
  split; [exact H1|]. exists r, h'. split; [exact H2|].
  exact (check_winner_result search_heap 1%nat r h' H1 H2).
Defined.

Lemma deepcopy_board_independent_witness :
  closed pin_heap 0%nat ∧
  ∃ nb h',
    deepcopy_board 0%nat pin_heap = (Ok nb, h') ∧ nb ≠ 0%nat ∧ pin_heap ⊑ h' ∧
    closed h' nb ∧ view h' nb = view pin_heap 0%nat ∧
    ∀ pos r, field_get (field_of h' nb) pos = Ok (Some r) →
             (length (pieces pin_heap) ≤ r)%nat.
Proof.
  assert (closed pin_heap 0%nat) as H1 by closed_by_computation.
  split; [exact H1|].
  exact (deepcopy_board_independent pin_heap 0%nat H1).
Defined.

Lemma pseudo_moves_shape_witness :
  closed corner_heap 0%nat ∧ (2 < length (pieces corner_heap))%nat ∧
  Forall (pseudo_ok corner_heap 0%nat 2%nat 6 7
            (_possible_moves 2%nat 6 7 0%nat corner_heap).2)
         (_possible_moves 2%nat 6 7 0%nat corner_heap).1.1.
Proof.
  assert (closed corner_heap 0%nat) as H1 by closed_by_computation.
  assert (2 < length (pieces corner_heap))%nat as H2 by (vm_compute; lia).
  split; [exact H1|]. split; [exact H2|].
  exact (pseudo_moves_shape corner_heap 0%nat 2%nat 6 7 H1 H2).
Defined.

Lemma pseudo_moves_never_raise_witness :
  closed castle_heap 0%nat ∧ regular (field_of castle_heap 0%nat) ∧
  (0 < length (pieces castle_heap))%nat ∧ is_inside (4, 7) = true ∧
  (_possible_moves 0%nat 4 7 0%nat castle_heap).1.2 = Ok tt.
Proof.
  assert (closed castle_heap 0%nat) as H1 by closed_by_computation.
  assert (regular (field_of castle_heap 0%nat)) as H2 by regular_by_computation.
  assert (0 < length (pieces castle_heap))%nat as H3 by (vm_compute; lia).
  assert (is_inside (4, 7) = true) as H4 by reflexivity.
  split; [exact H1|]. split; [exact H2|]. split; [exact H3|]. split; [exact H4|].
  exact (pseudo_moves_never_raise castle_heap 0%nat 0%nat 4 7 H1 H2 H3 H4).
Defined.

Lemma setitem_getitem_witness :
  ∃ h',
    setitem 0%nat (4, 6) (Some 0%nat) lone_heap = (Ok tt, h') ∧
    getitem 0%nat (4, 6) h' = (Ok (Some 0%nat), h') ∧
    (∀ pos', 0 ≤ (4, 6).1 → 0 ≤ (4, 6).2 → 0 ≤ pos'.1 → 0 ≤ pos'.2 →
             pos' ≠ (4, 6) →
             (getitem 0%nat pos' h').1 = (getitem 0%nat pos' lone_heap).1) ∧
    pieces h' = pieces lone_heap ∧
    (∀ b', b' ≠ 0%nat → field_of h' b' = field_of lone_heap b').
Proof.
  assert (∃ h', setitem 0%nat (4, 6) (Some 0%nat) lone_heap = (Ok tt, h'))
    as (h' & H1) by (eexists; vm_compute; reflexivity).
  exists h'. split; [exact H1|].
  exact (setitem_getitem lone_heap 0%nat (4, 6) (Some 0%nat) h' H1).
Defined.

Lemma execute_plain_witness :
  regular (field_of lone_heap 0%nat) ∧ (0 < length (pieces lone_heap))%nat ∧
  is_inside (4, 7) = true ∧ is_inside (4, 6) = true ∧ (4, 7) ≠ (4, 6) ∧
  ∃ h', execute (MovePlain 0%nat (4, 7) (4, 6)) 0%nat lone_heap = (Ok tt, h') ∧
    field_get (field_of h' 0%nat) (4, 6) = Ok (Some 0%nat) ∧
    field_get (field_of h' 0%nat) (4, 7) = Ok None ∧
    (∀ pos, is_inside pos = true → pos ≠ (4, 7) → pos ≠ (4, 6) →
            field_get (field_of h' 0%nat) pos =
            field_get (field_of lone_heap 0%nat) pos) ∧
    deref h' 0%nat = moved (deref lone_heap 0%nat) ∧
    (∀ r, r ≠ 0%nat → deref h' r = deref lone_heap r) ∧
    (∀ b', b' ≠ 0%nat → field_of h' b' = field_of lone_heap b') ∧
    regular (field_of h' 0%nat).
Proof.
  assert (regular (field_of lone_heap 0%nat)) as H1 by regular_by_computation.
  assert (0 < length (pieces lone_heap))%nat as H2 by (vm_compute; lia).
  assert (is_inside (4, 7) = true) as H3 by reflexivity.
  assert (is_inside (4, 6) = true) as H4 by reflexivity.
  assert ((4, 7) ≠ (4, 6)) as H5 by discriminate.
  split; [exact H1|]. split; [exact H2|]. split; [exact H3|]. split; [exact H4|].
  split; [exact H5|].
  exact (execute_plain lone_heap 0%nat 0%nat (4, 7) (4, 6) H1 H2 H3 H4 H5).
Defined.

Lemma execute_promotion_witness :
  regular (field_of corner_heap 0%nat) ∧ (1 < length (pieces corner_heap))%nat ∧
  is_inside (0, 6) = true ∧ is_inside (0, 5) = true ∧ (0, 6) ≠ (0, 5) ∧
  ∃ h', execute (MoveWithPromotion 1%nat (0, 6) (0, 5) 3%nat) 0%nat corner_heap
          = (Ok tt, h') ∧
    field_get (field_of h' 0%nat) (0, 5) = Ok (Some 3%nat) ∧
    field_get (field_of h' 0%nat) (0, 6) = Ok None ∧
    (∀ pos, is_inside pos = true → pos ≠ (0, 6) → pos ≠ (0, 5) →
            field_get (field_of h' 0%nat) pos =
            field_get (field_of corner_heap 0%nat) pos) ∧
    deref h' 1%nat = moved (deref corner_heap 1%nat) ∧
    (∀ r, r ≠ 1%nat → deref h' r = deref corner_heap r) ∧
    (∀ b', b' ≠ 0%nat → field_of h' b' = field_of corner_heap b') ∧
    regular (field_of h' 0%nat).
Proof.
  assert (regular (field_of corner_heap 0%nat)) as H1 by regular_by_computation.
  assert (1 < length (pieces corner_heap))%nat as H2 by (vm_compute; lia).
  assert (is_inside (0, 6) = true) as H3 by reflexivity.
  assert (is_inside (0, 5) = true) as H4 by reflexivity.
  assert ((0, 6) ≠ (0, 5)) as H5 by discriminate.
  split; [exact H1|]. split; [exact H2|]. split; [exact H3|]. split; [exact H4|].
  split; [exact H5|].
  exact (execute_promotion corner_heap 0%nat 1%nat (0, 6) (0, 5) 3%nat
           H1 H2 H3 H4 H5).
Defined.

Lemma execute_castling_witness :
  regular (field_of castle_heap 0%nat) ∧
  (0 < length (pieces castle_heap))%nat ∧ (1 < length (pieces castle_heap))%nat ∧
  1%nat ≠ 0%nat ∧
  is_inside (4, 7) = true ∧ is_inside (2, 7) = true ∧
  is_inside (0, 7) = true ∧ is_inside (3, 7) = true ∧
  (4, 7) ≠ (2, 7) ∧ (0, 7) ≠ (3, 7) ∧ (4, 7) ≠ (3, 7) ∧ (2, 7) ≠ (3, 7) ∧
  (2, 7) ≠ (0, 7) ∧
  ∃ h', execute (MoveCastling 0%nat (4, 7) (2, 7) 1%nat (0, 7) (3, 7)) 0%nat
          castle_heap = (Ok tt, h') ∧
    field_get (field_of h' 0%nat) (2, 7) = Ok (Some 0%nat) ∧
    field_get (field_of h' 0%nat) (3, 7) = Ok (Some 1%nat) ∧
    field_get (field_of h' 0%nat) (4, 7) = Ok None ∧
    field_get (field_of h' 0%nat) (0, 7) = Ok None ∧
    (∀ pos, is_inside pos = true →
            pos ≠ (4, 7) → pos ≠ (2, 7) → pos ≠ (0, 7) → pos ≠ (3, 7) →
            field_get (field_of h' 0%nat) pos =
            field_get (field_of castle_heap 0%nat) pos) ∧
    deref h' 0%nat = moved (deref castle_heap 0%nat) ∧
    deref h' 1%nat = moved (deref castle_heap 1%nat) ∧
    (∀ r, r ≠ 0%nat → r ≠ 1%nat → deref h' r = deref castle_heap r) ∧
    (∀ b', b' ≠ 0%nat → field_of h' b' = field_of castle_heap b') ∧
    regular (field_of h' 0%nat).
Proof.
  assert (regular (field_of castle_heap 0%nat)) as H1 by regular_by_computation.
  assert (0 < length (pieces castle_heap))%nat as H2 by (vm_compute; lia).
  assert (1 < length (pieces castle_heap))%nat as H3 by (vm_compute; lia).
  assert (1%nat ≠ 0%nat) as H4 by discriminate.
  assert (is_inside (4, 7) = true) as I1 by reflexivity.
  assert (is_inside (2, 7) = true) as I2 by reflexivity.
  assert (is_inside (0, 7) = true) as I3 by reflexivity.
  assert (is_inside (3, 7) = true) as I4 by reflexivity.
  assert ((4, 7) ≠ (2, 7)) as N1 by discriminate.
  assert ((0, 7) ≠ (3, 7)) as N2 by discriminate.
  assert ((4, 7) ≠ (3, 7)) as N3 by discriminate.
  assert ((2, 7) ≠ (3, 7)) as N4 by discriminate.
  assert ((2, 7) ≠ (0, 7)) as N5 by discriminate.
  repeat (split; [assumption|]).
  exact (execute_castling castle_heap 0%nat 0%nat (4, 7) (2, 7) 1%nat (0, 7) (3, 7)
           H1 H2 H3 H4 I1 I2 I3 I4 N1 N2 N3 N4 N5).
Defined.

Lemma getitem_bounds_witness :
  regular (field_of lone_heap 0%nat) ∧
  (-8 ≤ (-4, -1).1 < 8 → -8 ≤ (-4, -1).2 < 8 →
   ∃ c, getitem 0%nat (-4, -1) lone_heap = (Ok c, lone_heap) ∧
        getitem 0%nat ((-4, -1).1 `mod` 8, (-4, -1).2 `mod` 8) lone_heap =
          (Ok c, lone_heap)) ∧
  (¬ (-8 ≤ (-4, -1).1 < 8 ∧ -8 ≤ (-4, -1).2 < 8) →
   getitem 0%nat (-4, -1) lone_heap = (Raise IndexError, lone_heap)).
Proof.
  assert (regular (field_of lone_heap 0%nat)) as H1 by regular_by_computation.
  split; [exact H1|].
  exact (getitem_bounds lone_heap 0%nat (-4, -1) H1).
Defined.

Lemma search_lower_bound_witness :
  ∃ s h',
    _search 0%nat white 1 0%nat white (Fin 0) PosInf pin_heap = (Ok s, h') ∧
    score_ge s (Fin 0) = true.
Proof.
  assert (∃ s h', _search 0%nat white 1 0%nat white (Fin 0) PosInf pin_heap
                  = (Ok s, h')) as (s & h' & H1)
    by (eexists _, _; vm_compute; reflexivity).
  exists s, h'. split; [exact H1|].
  exact (search_lower_bound 0%nat white 0%nat 0%nat white (Fin 0) PosInf
           pin_heap s h' H1).
Defined.

Lemma order_moves_captures_first_witness :
  (0 < length (boards pin_heap))%nat ∧
  ∃ ms h', _order_moves 0%nat white pin_heap = (Ok ms, h') ∧
    ∃ captures others, ms = captures ++ others ∧
      Forall (λ m, ∃ r, field_get (field_of pin_heap 0%nat) (destination m)
                        = Ok (Some r)) captures ∧
      Forall (λ m, field_get (field_of pin_heap 0%nat) (destination m) = Ok None)
             others.
Proof.
  assert (0 < length (boards pin_heap))%nat as H1 by (vm_compute; lia).
  assert (∃ ms h', _order_moves 0%nat white pin_heap = (Ok ms, h'))
    as (ms & h' & H2) by (eexists _, _; vm_compute; reflexivity).
  split; [exact H1|]. exists ms, h'. split; [exact H2|].
  exact (order_moves_captures_first pin_heap 0%nat white ms h' H1 H2).
Defined.


Lemma get_best_move_sound_witness :
  closed pin_heap 0%nat ∧
  ∃ m table' h',
    get_best_move 0%nat black addr zero_hash 1 ∅ pin_heap =
      (Ok (Some m), table', h') ∧
    (0 < 1)%nat ∧
    ∃ h2 h3, execute m 0%nat h' = (Ok tt, h2) ∧
             is_in_check 0%nat black h2 = (Ok false, h3).
Proof.
  assert (closed pin_heap 0%nat) as H1 by closed_by_computation.
  assert (∃ m table' h',
            get_best_move 0%nat black addr zero_hash 1 ∅ pin_heap =
            (Ok (Some m), table', h')) as (m & t & h' & H2)
    by (eexists _, _, _; vm_compute; reflexivity).
  split; [exact H1|]. exists m, t, h'. split; [exact H2|].
  exact (get_best_move_sound 0%nat black addr zero_hash 1 ∅ pin_heap m t h' H1 H2).
Defined.

Lemma get_best_move_keeps_table_witness :
  ({[ 0 := Fin 3 ]} : Table) !! 0 = Some (Fin 3) ∧
  (get_best_move 0%nat black addr zero_hash 1 {[ 0 := Fin 3 ]} pin_heap).1.2 !! 0
    = Some (Fin 3).
Proof.
  assert (({[ 0 := Fin 3 ]} : Table) !! 0 = Some (Fin 3)) as H1
    by apply lookup_singleton_eq.
  split; [exact H1|].
  exact (get_best_move_keeps_table 0%nat black addr zero_hash 1 {[ 0 := Fin 3 ]}
           pin_heap 0 (Fin 3) H1).
Defined.

Lemma evaluate_board_antisymmetric_witness :
  (check_winner 0%nat pin_heap).1 = Ok None ∧
  ∃ v, (_evaluate_board 0%nat white 0%nat pin_heap).1 = Ok (Fin v) ∧
       (_evaluate_board 0%nat (opponent white) 0%nat pin_heap).1 = Ok (Fin (- v)).
Proof.
  assert ((check_winner 0%nat pin_heap).1 = Ok None) as H1
    by (vm_compute; reflexivity).
  split; [exact H1|].
  exact (evaluate_board_antisymmetric 0%nat white 0%nat pin_heap H1).
Defined.

Lemma move_piece_turn_witness :
  ∃ g' h',
    move_piece addr zero_hash (4, 6) (4, 5) pin_game pin_heap = (Ok None, g', h') ∧
    board g' = board pin_game ∧
    match ai pin_game with
    | None =>
        current_player g' = opponent (current_player pin_game) ∧ ai g' = None
    | Some a =>
        current_player g' = current_player pin_game ∧
        ∃ t, ai g' = Some (mkAI (ai_player a) t) ∧ transposition_table a ⊆ t
    end.
Proof.
  assert (∃ g' h', move_piece addr zero_hash (4, 6) (4, 5) pin_game pin_heap
                   = (Ok None, g', h')) as (g' & h' & H1)
    by (eexists _, _; vm_compute; reflexivity).
  exists g', h'. split; [exact H1|].
  exact (move_piece_turn addr zero_hash (4, 6) (4, 5) pin_game pin_heap g' h' H1).
Defined.

Lemma knight_moves_witness :
  closed minor_heap 0%nat ∧ regular (field_of minor_heap 0%nat) ∧
  (2 < length (pieces minor_heap))%nat ∧ cls (deref minor_heap 2%nat) = Knight ∧
  ((2, 5) ∈ destination <$> (_possible_moves 2%nat 1 7 0%nat minor_heap).1.1 ↔
   ∃ dx dy, step_of Knight dx dy ∧ (2, 5) = (1 + dx, 7 + dy) ∧
            is_inside (2, 5) = true ∧
            lands_ok (view minor_heap 0%nat) (deref minor_heap 2%nat) (2, 5)).
Proof.
  assert (closed minor_heap 0%nat) as H1 by closed_by_computation.
  assert (regular (field_of minor_heap 0%nat)) as H2 by regular_by_computation.
  assert (2 < length (pieces minor_heap))%nat as H3 by (vm_compute; lia).
  assert (cls (deref minor_heap 2%nat) = Knight) as H4 by reflexivity.
  split; [exact H1|]. split; [exact H2|]. split; [exact H3|]. split; [exact H4|].
  exact (knight_moves minor_heap 0%nat 2%nat 1 7 (2, 5) H1 H2 H3 H4).
Defined.

Lemma sliding_moves_witness :
  closed minor_heap 0%nat ∧ regular (field_of minor_heap 0%nat) ∧
  (3 < length (pieces minor_heap))%nat ∧
  (cls (deref minor_heap 3%nat) = Bishop ∨ cls (deref minor_heap 3%nat) = Rook ∨
   cls (deref minor_heap 3%nat) = Queen) ∧
  ((5, 4) ∈ destination <$> (_possible_moves 3%nat 2 7 0%nat minor_heap).1.1 ↔
   ∃ dx dy m, step_of (cls (deref minor_heap 3%nat)) dx dy ∧ 1 ≤ m ∧
     (5, 4) = (2 + m * dx, 7 + m * dy) ∧
     (∀ k, 1 ≤ k < m →
        is_inside (2 + k * dx, 7 + k * dy) = true ∧
        field_get (view minor_heap 0%nat) (2 + k * dx, 7 + k * dy) = Ok None) ∧
     is_inside (5, 4) = true ∧
     lands_ok (view minor_heap 0%nat) (deref minor_heap 3%nat) (5, 4)).
Proof.
  assert (closed minor_heap 0%nat) as H1 by closed_by_computation.
  assert (regular (field_of minor_heap 0%nat)) as H2 by regular_by_computation.
  assert (3 < length (pieces minor_heap))%nat as H3 by (vm_compute; lia).
  assert (cls (deref minor_heap 3%nat) = Bishop ∨
          cls (deref minor_heap 3%nat) = Rook ∨
          cls (deref minor_heap 3%nat) = Queen) as H4 by (left; reflexivity).
  split; [exact H1|]. split; [exact H2|]. split; [exact H3|]. split; [exact H4|].
  exact (sliding_moves minor_heap 0%nat 3%nat 2 7 (5, 4) H1 H2 H3 H4).
Defined.

Lemma king_moves_witness :
  closed castle_heap 0%nat ∧ regular (field_of castle_heap 0%nat) ∧
  (0 < length (pieces castle_heap))%nat ∧ cls (deref castle_heap 0%nat) = King ∧
  is_inside (4, 7) = true ∧
  ((2, 7) ∈ destination <$> (_possible_moves 0%nat 4 7 0%nat castle_heap).1.1 ↔
   (∃ dx dy, step_of King dx dy ∧ (2, 7) = (4 + dx, 7 + dy) ∧
             is_inside (2, 7) = true ∧
             lands_ok (view castle_heap 0%nat) (deref castle_heap 0%nat) (2, 7)) ∨
   ((2, 7) = (4 - 2, 7) ∧
    can_castle (view castle_heap 0%nat) (deref castle_heap 0%nat) 0 1 4 7) ∨
   ((2, 7) = (4 + 2, 7) ∧
    can_castle (view castle_heap 0%nat) (deref castle_heap 0%nat) 7 (4 + 1) 7 7)).
Proof.
  assert (closed castle_heap 0%nat) as H1 by closed_by_computation.
  assert (regular (field_of castle_heap 0%nat)) as H2 by regular_by_computation.
  assert (0 < length (pieces castle_heap))%nat as H3 by (vm_compute; lia).
  assert (cls (deref castle_heap 0%nat) = King) as H4 by reflexivity.
  assert (is_inside (4, 7) = true) as H5 by reflexivity.
  split; [exact H1|]. split; [exact H2|]. split; [exact H3|]. split; [exact H4|].
  split; [exact H5|].
  exact (king_moves castle_heap 0%nat 0%nat 4 7 (2, 7) H1 H2 H3 H4 H5).
Defined.

Lemma pawn_moves_witness :
  closed minor_heap 0%nat ∧ regular (field_of minor_heap 0%nat) ∧
  (4 < length (pieces minor_heap))%nat ∧ cls (deref minor_heap 4%nat) = Pawn ∧
  let me := deref minor_heap 4%nat in
  let dir := direction (player me) in
  (1, 5) ∈ destination <$> (_possible_moves 4%nat 0 6 0%nat minor_heap).1.1 ↔
  ((1, 5) = (0, 6 + dir) ∧ is_inside (1, 5) = true ∧
   field_get (view minor_heap 0%nat) (1, 5) = Ok None) ∨
  ((1, 5) = (0, 6 + 2 * dir) ∧ is_moved me = false ∧
   6 = pawn_start_row (player me) ∧
   is_inside (0, 6 + dir) = true ∧
   field_get (view minor_heap 0%nat) (0, 6 + dir) = Ok None ∧
   field_get (view minor_heap 0%nat) (1, 5) = Ok None) ∨
  (∃ dx, (dx = -1 ∨ dx = 1) ∧ (1, 5) = (0 + dx, 6 + dir) ∧
         is_inside (1, 5) = true ∧ enemy_at (view minor_heap 0%nat) me (1, 5)).
Proof.
  assert (closed minor_heap 0%nat) as H1 by closed_by_computation.
  assert (regular (field_of minor_heap 0%nat)) as H2 by regular_by_computation.
  assert (4 < length (pieces minor_heap))%nat as H3 by (vm_compute; lia).
  assert (cls (deref minor_heap 4%nat) = Pawn) as H4 by reflexivity.
  split; [exact H1|]. split; [exact H2|]. split; [exact H3|]. split; [exact H4|].
  exact (pawn_moves minor_heap 0%nat 4%nat 0 6 (1, 5) H1 H2 H3 H4).
Defined.

Lemma possible_moves_by_position_witness :
  closed twin_heap 0%nat ∧ closed twin_heap 1%nat ∧
  (1 < length (pieces twin_heap))%nat ∧ (3 < length (pieces twin_heap))%nat ∧
  view twin_heap 0%nat = view twin_heap 1%nat ∧
  deref twin_heap 1%nat = deref twin_heap 3%nat ∧
  destination <$> (possible_moves 1%nat 4 7 0%nat twin_heap).1.1 =
    destination <$> (possible_moves 3%nat 4 7 1%nat twin_heap).1.1 ∧
  (possible_moves 1%nat 4 7 0%nat twin_heap).1.2 =
    (possible_moves 3%nat 4 7 1%nat twin_heap).1.2.
Proof.
  assert (closed twin_heap 0%nat) as H1 by closed_by_computation.
  assert (closed twin_heap 1%nat) as H2 by closed_by_computation.
  assert (1 < length (pieces twin_heap))%nat as H3 by (vm_compute; lia).
  assert (3 < length (pieces twin_heap))%nat as H4 by (vm_compute; lia).
  assert (view twin_heap 0%nat = view twin_heap 1%nat) as H5
    by (vm_compute; reflexivity).
  assert (deref twin_heap 1%nat = deref twin_heap 3%nat) as H6 by reflexivity.
  split; [exact H1|]. split; [exact H2|]. split; [exact H3|]. split; [exact H4|].
  split; [exact H5|]. split; [exact H6|].
  exact (possible_moves_by_position twin_heap 0%nat 1%nat twin_heap 1%nat 3%nat
           4 7 H1 H2 H3 H4 H5 H6).
Defined.

Lemma check_winner_by_position_witness :
  closed twin_heap 0%nat ∧ closed twin_heap 1%nat ∧
  view twin_heap 0%nat = view twin_heap 1%nat ∧
  (∀ pl, (is_in_checkmate 0%nat pl twin_heap).1 =
         (is_in_checkmate 1%nat pl twin_heap).1) ∧
  (∀ pl, (is_in_stalemate 0%nat pl twin_heap).1 =
         (is_in_stalemate 1%nat pl twin_heap).1) ∧
  (check_winner 0%nat twin_heap).1 = (check_winner 1%nat twin_heap).1.
Proof.
  assert (closed twin_heap 0%nat) as H1 by closed_by_computation.
  assert (closed twin_heap 1%nat) as H2 by closed_by_computation.
  assert (view twin_heap 0%nat = view twin_heap 1%nat) as H3
    by (vm_compute; reflexivity).
  split; [exact H1|]. split; [exact H2|]. split; [exact H3|].
  exact (check_winner_by_position twin_heap 0%nat twin_heap 1%nat H1 H2 H3).
Defined.


Lemma no_moves_when_mated_witness :
  closed search_heap 1%nat ∧
  ((is_in_checkmate 1%nat white search_heap).1 = Ok true ∨
   (is_in_stalemate 1%nat white search_heap).1 = Ok true) ∧
  (iter_pieces 1%nat (Some white) search_heap).1 = Ok [((7, 7), 5%nat)] ∧
  ((7, 7), 5%nat) ∈ [((7, 7), 5%nat)] ∧
  (possible_moves 5%nat 7 7 1%nat search_heap).1.1 = [].
Proof.
  assert (closed search_heap 1%nat) as H1 by closed_by_computation.
  assert ((is_in_checkmate 1%nat white search_heap).1 = Ok true ∨
          (is_in_stalemate 1%nat white search_heap).1 = Ok true) as H2
    by (right; vm_compute; reflexivity).
  assert ((iter_pieces 1%nat (Some white) search_heap).1
          = Ok [((7, 7), 5%nat)]) as H3 by (vm_compute; reflexivity).
  assert (((7, 7), 5%nat) ∈ [((7, 7), 5%nat)]) as H4 by left.
  split; [exact H1|]. split; [exact H2|]. split; [exact H3|]. split; [exact H4|].
  exact (no_moves_when_mated search_heap 1%nat white [((7, 7), 5%nat)]
           H1 H2 H3 (7, 7) 5%nat H4).
Defined.

